(** * The k-mer index table of the prefilter (src/prefiltering/IndexTable.h)

    A shallow embedding of [IndexTable]: the two build passes
    ([addKmerCount], [addSequence] and their neighbourhood variants), the
    in-place prefix sum [init], the pointer rewind [revertPointer], the
    lookup [getDBSeqList], the k-mer size selection and the constructor;
    further the allocation of the postings [initMemory] and the statistics
    [printStatistics], and, of src/util/assembleresult.cpp, the choice of
    the fragments that extend a query and the printed time.

    Conventions.
    - [size_t] is 64 bits wide and [unsigned int] 32 bits wide; both are
      modelled as [Z] with the wrap-around written out ([wrap64], [wrap32]);
      so is the 16 bits wide [unsigned short] ([wrap16]).
    - The arrays behind the raw pointers [offsets] and [entries] are lists.
      An access outside the array is undefined behaviour in the source and
      is the result [None] here, so a result [Some _] also says that every
      access of the run was inside its array.
    - The collaborators that are not part of the file ([Sequence],
      [Indexer], [KmerGenerator]) are records of what the table consumes. *)

From Stdlib Require Import ZArith Lia.
From stdpp Require Import base tactics option list sets sorting numbers gmap.

Local Open Scope Z_scope.

(** ** Machine integers *)

Definition wrap64 (z : Z) : Z := z mod 2 ^ 64.
Definition wrap32 (z : Z) : Z := z mod 2 ^ 32.
Definition wrap16 (z : Z) : Z := z mod 2 ^ 16.
Definition UINT_MAX : Z := 4294967295.
Definition SIZE_MAX : Z := 2 ^ 64 - 1.

(** ** Arrays behind raw pointers *)

Definition load {A} (a : list A) (i : Z) : option A :=
  if decide (0 ≤ i) then a !! Z.to_nat i else None.

Definition store {A} (a : list A) (i : Z) (v : A) : option (list A) :=
  if decide (0 ≤ i < Z.of_nat (length a)) then Some (<[Z.to_nat i := v]> a)
  else None.

(** [__sync_fetch_and_add(&a[i], v)]: one indivisible read-modify-write that
    returns the value read. *)
Definition sync_fetch_and_add (a : list Z) (i v : Z) : option (Z * list Z) :=
  old ← load a i;
  a' ← store a i (wrap64 (old + v));
  Some (old, a').

(** ** Records of the source *)

(** [struct IndexEntryLocal]: a posting, [seqId] an [unsigned int] and
    [position_j] an [unsigned short]. *)
Record IndexEntryLocal := mkIndexEntryLocal {
  seqId : Z;
  position_j : Z
}.

(** [struct IndexEntryLocalTmp]: a posting tagged with its k-mer, in the
    scratch buffer of the fill pass; [kmer] and [seqId] are [unsigned int]s
    and [position_j] is an [unsigned short]. *)
Record IndexEntryLocalTmp := mkIndexEntryLocalTmp {
  kmer : Z;
  tmp_seqId : Z;
  tmp_position_j : Z
}.

(** [IndexEntryLocalTmp::comapreByIdAndPos]. *)
Definition comapreByIdAndPos (first second : IndexEntryLocalTmp) : bool :=
  if kmer first <? kmer second then true
  else if kmer second <? kmer first then false
  else if tmp_position_j first <? tmp_position_j second then true
  else if tmp_position_j second <? tmp_position_j first then false
  else false.

(** The fields of [class IndexTable] that the build reads and writes. *)
Record IndexTable := mkIndexTable {
  tableSize : Z;
  alphabetSize : Z;
  kmerSize : Z;
  externalData : bool;
  entries : list IndexEntryLocal;
  offsets : list Z
}.

Definition set_offsets (t : IndexTable) (o : list Z) : IndexTable :=
  mkIndexTable (tableSize t) (alphabetSize t) (kmerSize t) (externalData t)
    (entries t) o.

Definition set_entries (t : IndexTable) (e : list IndexEntryLocal) : IndexTable :=
  mkIndexTable (tableSize t) (alphabetSize t) (kmerSize t) (externalData t)
    e (offsets t).

(** The table with both arrays replaced. *)
Definition withArrays (t : IndexTable) (o : list Z) (e : list IndexEntryLocal)
    : IndexTable :=
  set_entries (set_offsets t o) e.

(** ** Collaborators *)

(** What the table consumes of a [Sequence]: its id and, for each turn of
    [while (s->hasNextKmer()) { kmer = s->nextKmer(); ... }], the window of
    symbols returned by [nextKmer] and the value of [getCurrentPosition]
    during that turn. *)
Record Sequence := mkSequence {
  getId : Z;
  kmerStream : list (list Z * Z)
}.

(** [Indexer::int2index(kmer, begin, end)], an [unsigned int].  The table
    also calls [Indexer::reset], which touches only the state of the
    incremental indexing that the table does not use. *)
Record Indexer := mkIndexer {
  int2index : list Z → Z → Z → Z
}.

(** [KmerGenerator::generateKmerList(kmer)]: the [elementSize] indices
    [index[0..elementSize)] of the returned [ScoreMatrix]. *)
Record KmerGenerator := mkKmerGenerator {
  generateKmerList : list Z → list Z
}.

(** ** k-mer size selection *)

(** The result of a call that may end the process with
    [EXIT(EXIT_FAILURE)]. *)
Inductive Exits (A : Type) : Type :=
  | Returns (a : A)
  | ExitFailure.
Arguments Returns {A} a.
Arguments ExitFailure {A}.

Definition getUpperBoundAACountForKmerSize (kmerSize : Z) : Exits Z :=
  if decide (kmerSize = 6) then Returns 3350000000
  else if decide (kmerSize = 7) then Returns (SIZE_MAX - 1)
  else ExitFailure.

Definition computeKmerSize (aaSize : Z) : Exits Z :=
  match getUpperBoundAACountForKmerSize 6 with
  | Returns bound => Returns (if decide (aaSize < bound) then 6 else 7)
  | ExitFailure => ExitFailure
  end.

(** ** Prefix sum and rewind *)

(** The loop of [init], [n] turns left, at index [i]. *)
Fixpoint init_loop (n : nat) (i offset : Z) (offs : list Z) : option (Z * list Z) :=
  match n with
  | O => Some (offset, offs)
  | S n' =>
      currentOffset ← load offs i;
      offs' ← store offs i offset;
      init_loop n' (i + 1) (wrap64 (offset + currentOffset)) offs'
  end.

Definition init (t : IndexTable) : option IndexTable :=
  '(offset, offs) ← init_loop (Z.to_nat (tableSize t)) 0 0 (offsets t);
  offs' ← store offs (tableSize t) offset;
  Some (set_offsets t offs').

(** The loop of [revertPointer] with [i = n]. *)
Fixpoint revert_loop (n : nat) (offs : list Z) : option (list Z) :=
  match n with
  | O => Some offs
  | S n' =>
      v ← load offs (Z.of_nat n');
      offs' ← store offs (Z.of_nat n) v;
      revert_loop n' offs'
  end.

Definition revertPointer (t : IndexTable) : option IndexTable :=
  offs ← revert_loop (Z.to_nat (tableSize t)) (offsets t);
  offs' ← store offs 0 0;
  Some (set_offsets t offs').

(** [getDBSeqList]: the start of the bucket in [entries] and
    [*matchedListSize]. *)
Definition getDBSeqList (t : IndexTable) (kmer : Z) : option (Z * Z) :=
  hi ← load (offsets t) (kmer + 1);
  lo ← load (offsets t) kmer;
  Some (lo, wrap64 (hi - lo)).

(** ** Sorting *)

(** [std::sort(first, last, comp)]: the range is permuted so that no element
    is [comp]-smaller than one before it.  In every buffer the table sorts,
    elements that compare equal are equal (the indices themselves, or
    entries that carry the id of one sequence), so this fixes the result;
    it is computed here by a merge sort, and the proofs below use only that
    the result is a sorted permutation. *)
Definition notAfter {A} (comp : A → A → bool) : relation A :=
  λ x y, comp y x = false.

#[global] Instance notAfter_dec {A} (comp : A → A → bool) x y :
  Decision (notAfter comp x y).
Proof. unfold notAfter. apply _. Defined.

Definition std_sort {A} (comp : A → A → bool) (l : list A) : list A :=
  merge_sort (notAfter comp) l.

(** ** The score filter *)

(** [for (pos = 0; pos < kmerSize; pos++) score += diagonalScore[kmer[pos]]],
    the window [kmer] holding [kmerSize] symbols.  The score is an [int]
    and the summands are [char]s, so the sum stays far from the range of
    [int] and is not wrapped. *)
Definition kmerScore (diagonalScore : Z → Z) (kmerSize : Z) (kmer : list Z) : Z :=
  foldl (λ score sym, score + diagonalScore sym) 0
        (take (Z.to_nat kmerSize) kmer).

(** The block [if (threshold > 0) { ...; if (score < threshold) continue; }]:
    [true] when the turn of the loop is abandoned. *)
Definition belowThreshold (threshold : Z) (diagonalScore : Z → Z)
    (kmerSize : Z) (kmer : list Z) : bool :=
  bool_decide (0 < threshold)
  && bool_decide (kmerScore diagonalScore kmerSize kmer < threshold).

(** ** Counting pass *)

(** First loop of [addKmerCount]: the contents of
    [seqKmerPosBuffer[0..countKmer)] when the loop ends (the buffer of the
    caller has room for every k-mer of the sequence). *)
Fixpoint countScan (idxer : Indexer) (kmerSize threshold : Z)
    (diagonalScore : Z → Z) (stream : list (list Z * Z)) : list Z :=
  match stream with
  | [] => []
  | (kmer, _) :: rest =>
      if belowThreshold threshold diagonalScore kmerSize kmer
      then countScan idxer kmerSize threshold diagonalScore rest
      else int2index idxer kmer 0 kmerSize
             :: countScan idxer kmerSize threshold diagonalScore rest
  end.

(** Last loop of [addKmerCount] and of [addSimilarKmerCount]. *)
Fixpoint countWalk (buf : list Z) (prevKmerIdx : Z) (offs : list Z)
    (countUniqKmer : Z) : option (list Z * Z) :=
  match buf with
  | [] => Some (offs, countUniqKmer)
  | kmerIdx :: rest =>
      if decide (prevKmerIdx ≠ kmerIdx) then
        '(_, offs') ← sync_fetch_and_add offs kmerIdx 1;
        countWalk rest kmerIdx offs' (countUniqKmer + 1)
      else countWalk rest kmerIdx offs countUniqKmer
  end.

Definition addKmerCount (t : IndexTable) (s : Sequence) (idxer : Indexer)
    (threshold : Z) (diagonalScore : Z → Z) : option (IndexTable * Z) :=
  let buf := countScan idxer (kmerSize t) threshold diagonalScore (kmerStream s) in
  let countKmer := Z.of_nat (length buf) in
  let buf := if decide (1 < countKmer) then std_sort Z.ltb buf else buf in
  '(offs, countUniqKmer) ← countWalk buf UINT_MAX (offsets t) 0;
  Some (set_offsets t offs, countUniqKmer).

(** First loop of [addSimilarKmerCount]. *)
Fixpoint similarCountScan (kmerGenerator : KmerGenerator)
    (stream : list (list Z * Z)) : list Z :=
  match stream with
  | [] => []
  | (kmer, _) :: rest =>
      generateKmerList kmerGenerator kmer ++ similarCountScan kmerGenerator rest
  end.

Definition addSimilarKmerCount (t : IndexTable) (s : Sequence)
    (kmerGenerator : KmerGenerator) (idxer : Indexer)
    (threshold : Z) (diagonalScore : Z → Z) : option (IndexTable * Z) :=
  let buf := similarCountScan kmerGenerator (kmerStream s) in
  let buf := if decide (1 < Z.of_nat (length buf)) then std_sort Z.ltb buf else buf in
  '(offs, countUniqKmer) ← countWalk buf UINT_MAX (offsets t) 0;
  Some (set_offsets t offs, countUniqKmer).

(** ** Fill pass *)

(** The test [offsets[kmerIdx + 1] - offsets[kmerIdx] == 0], [kmerIdx] an
    [unsigned int]. *)
Definition regionMasked (offs : list Z) (kmerIdx : Z) : option bool :=
  hi ← load offs (wrap32 (kmerIdx + 1));
  lo ← load offs kmerIdx;
  Some (bool_decide (wrap64 (hi - lo) = 0)).

(** The test [kmerIdx >= aaFrom && kmerIdx < aaFrom + aaSize]. *)
Definition inWindow (aaFrom aaSize kmerIdx : Z) : bool :=
  bool_decide (aaFrom ≤ kmerIdx) && bool_decide (kmerIdx < wrap64 (aaFrom + aaSize)).

(** First loop of [addSequence]: the contents of [buffer[0..kmerPos)].  The
    assignments to [buffer[kmerPos].seqId] and [buffer[kmerPos].position_j]
    convert the id to [unsigned int] and the position to [unsigned
    short]. *)
Fixpoint fillScan (offs : list Z) (kmerSize : Z) (id : Z) (idxer : Indexer)
    (aaFrom aaSize threshold : Z) (diagonalScore : Z → Z)
    (stream : list (list Z * Z)) : option (list IndexEntryLocalTmp) :=
  match stream with
  | [] => Some []
  | (kmer, pos) :: rest =>
      let kmerIdx := int2index idxer kmer 0 kmerSize in
      let continue :=
        fillScan offs kmerSize id idxer aaFrom aaSize threshold diagonalScore rest in
      if inWindow aaFrom aaSize kmerIdx then
        masked ← regionMasked offs kmerIdx;
        if (masked : bool) then continue
        else if belowThreshold threshold diagonalScore kmerSize kmer then continue
        else buffer ← continue;
             Some (mkIndexEntryLocalTmp kmerIdx (wrap32 id) (wrap16 pos)
                     :: buffer)
      else continue
  end.

(** A posting stored by the fill pass: the k-mer whose cursor gave the slot,
    the slot, and the entry stored there. *)
Record Write := mkWrite {
  w_kmer : Z;
  w_slot : Z;
  w_entry : IndexEntryLocal
}.

(** Last loop of [addSequence] and of [addSimilarSequence].  Next to the two
    arrays it returns the postings it stored, in the order of the stores. *)
Fixpoint fillWalk (buffer : list IndexEntryLocalTmp) (prevKmer : Z)
    (offs : list Z) (ents : list IndexEntryLocal)
    : option (list Z * list IndexEntryLocal * list Write) :=
  match buffer with
  | [] => Some (offs, ents, [])
  | b :: rest =>
      let kmerIdx := kmer b in
      if decide (kmerIdx ≠ prevKmer) then
        slot ← load offs kmerIdx;
        let entry := mkIndexEntryLocal (tmp_seqId b) (tmp_position_j b) in
        ents' ← store ents slot entry;
        cur ← load offs kmerIdx;
        offs' ← store offs kmerIdx (wrap64 (cur + 1));
        '(offs'', ents'', ws) ← fillWalk rest kmerIdx offs' ents';
        Some (offs'', ents'', mkWrite kmerIdx slot entry :: ws)
      else fillWalk rest kmerIdx offs ents
  end.

Definition sortBuffer (buffer : list IndexEntryLocalTmp) : list IndexEntryLocalTmp :=
  if decide (1 < Z.of_nat (length buffer)) then std_sort comapreByIdAndPos buffer
  else buffer.

Definition addSequence (t : IndexTable) (s : Sequence) (idxer : Indexer)
    (aaFrom aaSize threshold : Z) (diagonalScore : Z → Z)
    : option (IndexTable * list Write) :=
  buffer ← fillScan (offsets t) (kmerSize t) (getId s) idxer aaFrom aaSize
             threshold diagonalScore (kmerStream s);
  '(offs, ents, ws) ← fillWalk (sortBuffer buffer) UINT_MAX (offsets t) (entries t);
  Some (set_entries (set_offsets t offs) ents, ws).

(** The inner [for] of [addSimilarSequence] over the indices of one
    [ScoreMatrix].  The constructor [IndexEntryLocalTmp(unsigned int,
    unsigned int, unsigned short)] converts the id and the position. *)
Fixpoint similarFillInner (offs : list Z) (id pos aaFrom aaSize : Z)
    (index : list Z) : option (list IndexEntryLocalTmp) :=
  match index with
  | [] => Some []
  | kmerIdx :: rest =>
      let continue := similarFillInner offs id pos aaFrom aaSize rest in
      if inWindow aaFrom aaSize kmerIdx then
        masked ← regionMasked offs kmerIdx;
        if (masked : bool) then continue
        else buffer ← continue;
             Some (mkIndexEntryLocalTmp kmerIdx (wrap32 id) (wrap16 pos)
                     :: buffer)
      else continue
  end.

(** First loop of [addSimilarSequence]. *)
Fixpoint similarFillScan (offs : list Z) (id : Z) (kmerGenerator : KmerGenerator)
    (aaFrom aaSize : Z) (stream : list (list Z * Z))
    : option (list IndexEntryLocalTmp) :=
  match stream with
  | [] => Some []
  | (kmer, pos) :: rest =>
      here ← similarFillInner offs id pos aaFrom aaSize
                (generateKmerList kmerGenerator kmer);
      later ← similarFillScan offs id kmerGenerator aaFrom aaSize rest;
      Some (here ++ later)
  end.

Definition addSimilarSequence (t : IndexTable) (s : Sequence)
    (kmerGenerator : KmerGenerator) (idxer : Indexer)
    (aaFrom aaSize threshold : Z) (diagonalScore : Z → Z)
    : option (IndexTable * list Write) :=
  buffer ← similarFillScan (offsets t) (getId s) kmerGenerator aaFrom aaSize
             (kmerStream s);
  '(offs, ents, ws) ← fillWalk (sortBuffer buffer) UINT_MAX (offsets t) (entries t);
  Some (set_entries (set_offsets t offs) ents, ws).

(** ** Construction *)

(** Modelled from the spec: [MathUtil::ipow] is not part of the file;
    [tableSize] is [A^k], held in a [size_t]. *)
Definition ipow (base exponent : Z) : Z := wrap64 (base ^ exponent).

(** How a call of the constructor ends. *)
Inductive Construction : Type :=
  | Constructed (t : IndexTable)
  | AllocFailed        (* the process is ended by [Util::checkAllocation] *)
  | InvalidWrite.      (* [memset] wrote through the null pointer or past
                          the end of the array: undefined behaviour *)

(** [memset(p, 0, bytes)] on an array of [size_t] cells; [None] when [p] is
    the null pointer or the array is shorter than [bytes]. *)
Definition memset0 (p : option (list Z)) (bytes : Z) : option (list Z) :=
  a ← p;
  if decide (bytes ≤ 8 * Z.of_nat (length a))
  then Some (replicate (Z.to_nat (bytes / 8)) 0 ++ drop (Z.to_nat (bytes / 8)) a)
  else None.

(** Modelled from the spec: [Util::checkAllocation] is not part of the
    file; construction "fails with AllocFailed if memory cannot be
    acquired".  [true] when the pointer is null and the process is ended. *)
Definition checkAllocation {A} (p : option A) : bool :=
  if p is None then true else false.

(** The constructor.  [operator_new n] is [new(std::nothrow) size_t[n]]:
    the null pointer [None] when the memory cannot be acquired, otherwise
    an array of [n] cells of any contents.  A null [entries] or [offsets]
    field is the array without cells. *)
Definition newIndexTable (operator_new : Z → option (list Z))
    (alphabetSize kmerSize : Z) (externalData : bool) : Construction :=
  let tableSize := ipow alphabetSize kmerSize in
  if externalData
  then Constructed (mkIndexTable tableSize alphabetSize kmerSize true [] [])
  else
    let offsets := operator_new (wrap64 (tableSize + 1)) in
    match memset0 offsets (wrap64 (wrap64 (tableSize + 1) * 8)) with
    | None => InvalidWrite
    | Some zeroed =>
        if checkAllocation offsets then AllocFailed
        else Constructed
               (mkIndexTable tableSize alphabetSize kmerSize false [] zeroed)
    end.

(** ** The cursor advance, access by access *)

(** The body of [if (kmerIdx != prevKmer) { ... }] in the last loop of
    [addSequence] and [addSimilarSequence] performs four accesses to the
    shared arrays, none of them atomic:
    - [entry = entries + offsets[kmerIdx]] reads the cursor,
    - [entry->seqId = ...; entry->position_j = ...] stores the posting,
    - [offsets[kmerIdx] += 1] reads the cursor again
    - and stores it incremented. *)
Inductive Pc : Type := ReadSlot | StorePosting | ReadCursor | StoreCursor | Finished.

#[global] Instance Pc_eq_dec : EqDecision Pc.
Proof. solve_decision. Defined.

(** A worker inside that body: where it stands, the buffer element it
    handles, and the two values it has read. *)
Record Worker := mkWorker {
  pc : Pc;
  element : IndexEntryLocalTmp;
  slotRead : Z;
  cursorRead : Z
}.

Definition startWorker (b : IndexEntryLocalTmp) : Worker :=
  mkWorker ReadSlot b 0 0.

Definition workerStep (offs : list Z) (ents : list IndexEntryLocal)
    (w : Worker) : option (list Z * list IndexEntryLocal * Worker) :=
  let b := element w in
  match pc w with
  | ReadSlot =>
      slot ← load offs (kmer b);
      Some (offs, ents, mkWorker StorePosting b slot (cursorRead w))
  | StorePosting =>
      ents' ← store ents (slotRead w)
                (mkIndexEntryLocal (tmp_seqId b) (tmp_position_j b));
      Some (offs, ents', mkWorker ReadCursor b (slotRead w) (cursorRead w))
  | ReadCursor =>
      cur ← load offs (kmer b);
      Some (offs, ents, mkWorker StoreCursor b (slotRead w) cur)
  | StoreCursor =>
      offs' ← store offs (kmer b) (wrap64 (cursorRead w + 1));
      Some (offs', ents, mkWorker Finished b (slotRead w) (cursorRead w))
  | Finished => Some (offs, ents, w)
  end.

(** One worker running [n] accesses with nobody in between. *)
Fixpoint runAlone (n : nat) (offs : list Z) (ents : list IndexEntryLocal)
    (w : Worker) : option (list Z * list IndexEntryLocal * Worker) :=
  match n with
  | O => Some (offs, ents, w)
  | S n' =>
      '(offs', ents', w') ← workerStep offs ents w;
      runAlone n' offs' ents' w'
  end.

(** Two workers on the same arrays; the schedule names the worker that
    performs the next access ([false] the first, [true] the second). *)
Fixpoint interleave (schedule : list bool) (offs : list Z)
    (ents : list IndexEntryLocal) (w0 w1 : Worker)
    : option (list Z * list IndexEntryLocal * Worker * Worker) :=
  match schedule with
  | [] => Some (offs, ents, w0, w1)
  | false :: rest =>
      '(offs', ents', w0') ← workerStep offs ents w0;
      interleave rest offs' ents' w0' w1
  | true :: rest =>
      '(offs', ents', w1') ← workerStep offs ents w1;
      interleave rest offs' ents' w0 w1'
  end.

(** "advanceAtomic(kmer) → previous_offset: atomically fetch-and-add 1 on
    cell[kmer], returning the pre-increment value", twice. *)
Definition twoAtomicAdvances (offs : list Z) (kmerIdx : Z)
    : option (Z * Z * list Z) :=
  '(slot0, offs1) ← sync_fetch_and_add offs kmerIdx 1;
  '(slot1, offs2) ← sync_fetch_and_add offs1 kmerIdx 1;
  Some (slot0, slot1, offs2).

(** The cursor advance of the fill pass is an atomic fetch-and-add: however
    the accesses of two workers that store a posting for the same k-mer are
    interleaved, the cursor ends where two atomic advances leave it and the
    workers hold the two slots these return. *)
Definition advanceIsAtomic : Prop :=
  ∀ schedule offs ents b0 b1 offs' ents' w0 w1,
    kmer b0 = kmer b1 →
    interleave schedule offs ents (startWorker b0) (startWorker b1)
    = Some (offs', ents', w0, w1) →
    pc w0 = Finished → pc w1 = Finished →
    ∃ slot0 slot1,
      twoAtomicAdvances offs (kmer b0) = Some (slot0, slot1, offs')
      ∧ ((slotRead w0 = slot0 ∧ slotRead w1 = slot1)
         ∨ (slotRead w0 = slot1 ∧ slotRead w1 = slot0)).

(** ** The two passes over a database *)

(** Modelled from the spec: the driver of the build is not part of the
    file.  "Each sequence is fed first to CountingPhase (incrementing bucket
    counts), then — after prefixSum() converts counts to offsets — to
    FillPhase."  One worker, the sequences in database order; the values
    returned by [addKmerCount] are collected. *)
Fixpoint countAll (t : IndexTable) (db : list Sequence) (idxer : Indexer)
    (threshold : Z) (diagonalScore : Z → Z) : option (IndexTable * list Z) :=
  match db with
  | [] => Some (t, [])
  | s :: rest =>
      '(t1, n) ← addKmerCount t s idxer threshold diagonalScore;
      '(t2, ns) ← countAll t1 rest idxer threshold diagonalScore;
      Some (t2, n :: ns)
  end.

(** Modelled from the spec: the fill loop of the same driver, for one
    worker with window [[aaFrom, aaFrom + aaSize)]; the postings stored for
    each sequence are collected. *)
Fixpoint fillAll (t : IndexTable) (db : list Sequence) (idxer : Indexer)
    (aaFrom aaSize threshold : Z) (diagonalScore : Z → Z)
    : option (IndexTable * list (list Write)) :=
  match db with
  | [] => Some (t, [])
  | s :: rest =>
      '(t1, ws) ← addSequence t s idxer aaFrom aaSize threshold diagonalScore;
      '(t2, wss) ← fillAll t1 rest idxer aaFrom aaSize threshold diagonalScore;
      Some (t2, ws :: wss)
  end.

(** ** A small database: alphabet of 4 symbols, k-mers of 2 symbols *)

(** Modelled from the spec: the [Indexer] is not part of the file; it is
    the bijection between k-tuples of symbols and [[0, A^k)], here the
    positional encoding with the first symbol as the most significant
    digit. *)
Definition encode (A : Z) (kmer : list Z) (b e : Z) : Z :=
  foldl (λ acc sym, acc * A + sym) 0
        (take (Z.to_nat (e - b)) (drop (Z.to_nat b) kmer)).

Definition indexer4 : Indexer := mkIndexer (encode 4).

(** Modelled from the spec: the [Sequence] cursor yields every window of
    [k] consecutive symbols together with the position of its first symbol. *)
Fixpoint windows (k : nat) (pos : Z) (symbols : list Z) : list (list Z * Z) :=
  match symbols with
  | [] => []
  | _ :: rest =>
      if decide (k ≤ length symbols)%nat
      then (take k symbols, pos) :: windows k (pos + 1) rest
      else []
  end.

Definition sequence2 (id : Z) (symbols : list Z) : Sequence :=
  mkSequence id (windows 2 0 symbols).

Definition emptyTable (cells : nat) (postings : nat) : IndexTable :=
  mkIndexTable (Z.of_nat cells - 1) 4 2 false
    (replicate postings (mkIndexEntryLocal 0 0)) (replicate cells 0).

(** ** Words of the specification *)

(** The sum of a list of counts. *)
Definition sumZ (l : list Z) : Z := foldr Z.add 0 l.

(** The elements of a buffer whose key differs from the key of the element
    before them, [prev] standing before the first: the first occurrences
    when equal keys are adjacent. *)
Fixpoint groupHeads {A} (key : A → Z) (prev : Z) (l : list A) : list A :=
  match l with
  | [] => []
  | x :: rest =>
      if decide (key x = prev) then groupHeads key (key x) rest
      else x :: groupHeads key (key x) rest
  end.

(** "θ > 0 is set ... the sum of a per-symbol diagonal score over the
    k-mer's symbols ... skip when below θ": a k-mer is kept when no
    threshold is set or its score reaches the threshold. *)
Definition kept (threshold : Z) (diagonalScore : Z → Z) (kmer : list Z) : Prop :=
  threshold ≤ 0 ∨ threshold ≤ sumZ (diagonalScore <$> kmer).

#[global] Instance kept_dec threshold diagonalScore kmer :
  Decision (kept threshold diagonalScore kmer).
Proof. unfold kept. apply _. Defined.

(** The indices of the kept k-mers of a sequence, in cursor order. *)
Definition keptIndices (t : IndexTable) (idxer : Indexer) (threshold : Z)
    (diagonalScore : Z → Z) (s : Sequence) : list Z :=
  (λ w, int2index idxer w.1 0 (kmerSize t))
    <$> filter (λ w, kept threshold diagonalScore w.1) (kmerStream s).

(** [lookup(kmer)] gives the length [cell[kmer+1] - cell[kmer]] of a
    bucket, a [size_t]. *)
Definition bucketLength (offs : list Z) (i : Z) : option Z :=
  hi ← load offs (i + 1);
  lo ← load offs i;
  Some (wrap64 (hi - lo)).

(** A bucket of zero length: "masked". *)
Definition masked (offs : list Z) (i : Z) : Prop := bucketLength offs i = Some 0.

(** An occurrence of a k-mer that the fill pass of the worker with window
    [[aaFrom, aaFrom + aaSize)] takes up: its index lies in the window, its
    bucket is not masked and its score is kept. *)
Definition eligible (t : IndexTable) (idxer : Indexer)
    (aaFrom aaSize threshold : Z) (diagonalScore : Z → Z)
    (w : list Z * Z) : Prop :=
  aaFrom ≤ int2index idxer w.1 0 (kmerSize t) < aaFrom + aaSize
  ∧ ¬ masked (offsets t) (int2index idxer w.1 0 (kmerSize t))
  ∧ kept threshold diagonalScore w.1.

#[global] Instance eligible_dec t idxer aaFrom aaSize threshold diagonalScore w :
  Decision (eligible t idxer aaFrom aaSize threshold diagonalScore w).
Proof. unfold eligible, masked. apply _. Defined.

(** The eligible occurrences of a sequence as pairs of k-mer index and
    position, in cursor order. *)
Definition eligibleOccurrences (t : IndexTable) (idxer : Indexer)
    (aaFrom aaSize threshold : Z) (diagonalScore : Z → Z) (s : Sequence)
    : list (Z * Z) :=
  (λ w, (int2index idxer w.1 0 (kmerSize t), w.2))
    <$> filter (eligible t idxer aaFrom aaSize threshold diagonalScore)
               (kmerStream s).

(** The positions at which the k-mer of index [i] occurs. *)
Definition positionsOf (i : Z) (occ : list (Z * Z)) : list Z :=
  snd <$> filter (λ o, o.1 = i) occ.

Definition isLeast (m : Z) (l : list Z) : Prop :=
  m ∈ l ∧ ∀ x, x ∈ l → m ≤ x.

(** The postings of a log stored into [entries], in order. *)
Definition applyWrites (ents : list IndexEntryLocal) (ws : list Write)
    : list IndexEntryLocal :=
  foldl (λ e w, <[Z.to_nat (w_slot w) := w_entry w]> e) ents ws.

(** The postings of a log that were stored for the k-mer of index [i]. *)
Definition writesFor (i : Z) (ws : list Write) : list Write :=
  filter (λ w, w_kmer w = i) ws.

(** "After counting phase: cell i = number of distinct postings destined
    for bucket i": the number of sequences of the database that keep a
    k-mer of index [i]. *)
Definition bucketCount (t : IndexTable) (idxer : Indexer) (threshold : Z)
    (diagonalScore : Z → Z) (db : list Sequence) (i : Z) : Z :=
  Z.of_nat (length (filter
    (λ s, i ∈ keptIndices t idxer threshold diagonalScore s) db)).

Definition bucketCounts (t : IndexTable) (idxer : Indexer) (threshold : Z)
    (diagonalScore : Z → Z) (db : list Sequence) : list Z :=
  bucketCount t idxer threshold diagonalScore db <$> seqZ 0 (tableSize t).

(** [N_total], the number of postings of the whole database. *)
Definition totalPostings (t : IndexTable) (idxer : Indexer) (threshold : Z)
    (diagonalScore : Z → Z) (db : list Sequence) : Z :=
  sumZ (bucketCounts t idxer threshold diagonalScore db).

(** The id and the positions of a sequence are values of the fields of a
    posting: the id an [unsigned int], every position an [unsigned
    short]. *)
Definition storable (s : Sequence) : Prop :=
  0 ≤ getId s < 2 ^ 32
  ∧ Forall (λ w : list Z * Z, 0 ≤ w.2 < 2 ^ 16) (kmerStream s).

(** The sequence and the table fit together: every window of the cursor
    has [kmerSize] symbols and indexes a bucket of the table. *)
Definition fitsTable (t : IndexTable) (idxer : Indexer) (s : Sequence) : Prop :=
  Forall (λ w : list Z * Z,
            length w.1 = Z.to_nat (kmerSize t)
            ∧ 0 ≤ int2index idxer w.1 0 (kmerSize t) < tableSize t)
         (kmerStream s).

(** The table has [tableSize + 1] cells and its k-mer indices are below
    [UINT_MAX]. *)
Definition tableShape (t : IndexTable) : Prop :=
  0 ≤ tableSize t ≤ UINT_MAX
  ∧ Z.of_nat (length (offsets t)) = tableSize t + 1.

(** ** Auxiliary definitions of the proofs *)

(** The cells written by [init_loop], starting with the running [offset]. *)
Fixpoint prefixSums (offset : Z) (cs : list Z) : list Z :=
  match cs with
  | [] => []
  | c :: cs' => offset :: prefixSums (wrap64 (offset + c)) cs'
  end.

(** The buffer element of an eligible occurrence: id and position as the
    fields of the element hold them. *)
Definition tmpOf (id : Z) (o : Z * Z) : IndexEntryLocalTmp :=
  mkIndexEntryLocalTmp o.1 (wrap32 id) (wrap16 o.2).

(** The posting of a buffer element. *)
Definition entryOf (b : IndexEntryLocalTmp) : IndexEntryLocal :=
  mkIndexEntryLocal (tmp_seqId b) (tmp_position_j b).

(** The posting stored for the buffer element [b] when the cursors are
    [offs]. *)
Definition writeOf (offs : list Z) (b : IndexEntryLocalTmp) : Write :=
  mkWrite (kmer b) (default 0 (load offs (kmer b))) (entryOf b).

(** The cursors when, of the database [db], the sequences [seen] have
    been filled: every cursor stands as many slots after the start of its
    bucket as [seen] has sequences for it. *)
Definition cursorsAt (t : IndexTable) (idxer : Indexer) (threshold : Z)
    (diagonalScore : Z → Z) (db seen : list Sequence) (offs : list Z) : Prop :=
  Z.of_nat (length offs) = tableSize t + 1
  ∧ (∀ i, 0 ≤ i < tableSize t →
       load offs i
       = Some (sumZ (take (Z.to_nat i)
                           (bucketCounts t idxer threshold diagonalScore db))
               + bucketCount t idxer threshold diagonalScore seen i))
  ∧ load offs (tableSize t)
    = Some (totalPostings t idxer threshold diagonalScore db).

(** What a worker that handles [b] and found the cursor at [cur] has done
    to the two arrays when it stands at [pc w], and what it then holds. *)
Definition postingStored (p : Pc) : bool :=
  match p with
  | ReadCursor | StoreCursor | Finished => true
  | ReadSlot | StorePosting => false
  end.

Definition offsetsAfter (b : IndexEntryLocalTmp) (cur : Z) (w : Worker)
    (offs : list Z) : list Z :=
  if decide (pc w = Finished)
  then <[Z.to_nat (kmer b) := wrap64 (cur + 1)]> offs else offs.

Definition entriesAfter (b : IndexEntryLocalTmp) (cur : Z) (w : Worker)
    (ents : list IndexEntryLocal) : list IndexEntryLocal :=
  if postingStored (pc w) then <[Z.to_nat cur := entryOf b]> ents else ents.

Definition progressed (b : IndexEntryLocalTmp) (cur : Z) (w : Worker) : Prop :=
  element w = b
  ∧ (pc w ≠ ReadSlot → slotRead w = cur)
  ∧ (pc w = StoreCursor ∨ pc w = Finished → cursorRead w = cur).

(** The table after [init] for an alphabet of four symbols and k = 2 in
    which the bucket of the k-mer (0,2), index 2, holds one posting and the
    bucket of (0,1), index 1, has length zero. *)
Definition maskedTable : IndexTable :=
  mkIndexTable 16 4 2 false [mkIndexEntryLocal 0 0]
    [0; 0; 0; 1; 1; 1; 1; 1; 1; 1; 1; 1; 1; 1; 1; 1; 1].

(** ** The finished index *)

(** [initMemory]: [entries = new(std::nothrow)
    IndexEntryLocal[tableEntriesNum]] and the allocation check that follows
    it.  [operator_new n] is the null pointer [None] or an array of [n]
    postings of any contents.  The fields [tableEntriesNum], [size] and
    [sequenceLookup], which the build does not read, are not part of
    [IndexTable]. *)
Definition initMemory (operator_new : Z → option (list IndexEntryLocal))
    (t : IndexTable) (tableEntriesNum : Z) : Construction :=
  let entries := operator_new tableEntriesNum in
  if checkAllocation entries then AllocFailed
  else Constructed (set_entries t (default [] entries)).

(** Modelled from the spec: the lifecycle of a build without mask, run by
    one worker with the full window: "Each sequence is fed first to
    CountingPhase, then — after prefixSum() converts counts to offsets — to
    FillPhase", the posting store being "one contiguous buffer of N_total
    Posting records, where N_total is the final value of BucketTable[A^k]
    after prefix-sum", and "after the fill phase, a pointer rewind restores
    offsets".  An access outside an array ends the build as
    [InvalidWrite]. *)
Definition buildIndex (operator_new : Z → option (list IndexEntryLocal))
    (t : IndexTable) (db : list Sequence) (idxer : Indexer)
    (threshold : Z) (diagonalScore : Z → Z) : Construction :=
  match countAll t db idxer threshold diagonalScore with
  | None => InvalidWrite
  | Some (counted, _) =>
      match init counted with
      | None => InvalidWrite
      | Some stage3 =>
          match load (offsets stage3) (tableSize t) with
          | None => InvalidWrite
          | Some N_total =>
              match initMemory operator_new stage3 N_total with
              | Constructed allocated =>
                  match fillAll allocated db idxer 0 (tableSize t)
                          threshold diagonalScore with
                  | None => InvalidWrite
                  | Some (filled, _) =>
                      match revertPointer filled with
                      | None => InvalidWrite
                      | Some ready => Constructed ready
                      end
                  end
              | failure => failure
              end
          end
      end
  end.

(** The positions at which a sequence has a kept k-mer of index [i]. *)
Definition keptPositions (t : IndexTable) (idxer : Indexer) (threshold : Z)
    (diagonalScore : Z → Z) (s : Sequence) (i : Z) : list Z :=
  snd <$> filter (λ w, kept threshold diagonalScore w.1
                       ∧ int2index idxer w.1 0 (kmerSize t) = i)
                 (kmerStream s).

(** The least element of a list of positions (0 for the empty list). *)
Definition leastOf (l : list Z) : Z :=
  match l with
  | [] => 0
  | p :: ps => foldr Z.min p ps
  end.

(** The postings a database owes to bucket [i]: one for each sequence that
    keeps a k-mer of index [i], in database order, with the id of the
    sequence as an [unsigned int] and the least of the positions of that
    k-mer as [unsigned short]s, the values the fields of a posting hold. *)
Definition bucketPostings (t : IndexTable) (idxer : Indexer) (threshold : Z)
    (diagonalScore : Z → Z) (db : list Sequence) (i : Z)
    : list IndexEntryLocal :=
  (λ s, mkIndexEntryLocal (wrap32 (getId s))
          (leastOf (wrap16 <$> keptPositions t idxer threshold diagonalScore
                                 s i)))
    <$> filter (λ s, i ∈ keptIndices t idxer threshold diagonalScore s) db.

(** The start of bucket [i]: the number of postings owed to the buckets
    before it. *)
Definition bucketStart (t : IndexTable) (idxer : Indexer) (threshold : Z)
    (diagonalScore : Z → Z) (db : list Sequence) (i : Z) : Z :=
  sumZ (take (Z.to_nat i) (bucketCounts t idxer threshold diagonalScore db)).

(** The entries when, of the database [db], the sequences [seen] have been
    filled: the postings owed by [seen] stand at the start of their
    buckets. *)
Definition entriesAt (t : IndexTable) (idxer : Indexer) (threshold : Z)
    (diagonalScore : Z → Z) (db seen : list Sequence)
    (ents : list IndexEntryLocal) : Prop :=
  ∀ i j p, 0 ≤ i < tableSize t →
    bucketPostings t idxer threshold diagonalScore seen i !! j = Some p →
    load ents (bucketStart t idxer threshold diagonalScore db i + Z.of_nat j)
    = Some p.

(** A posting stored in the part of its bucket that the sequences [seen]
    have not used. *)
Definition inFreePart (t : IndexTable) (idxer : Indexer) (threshold : Z)
    (diagonalScore : Z → Z) (db seen : list Sequence) (w : Write) : Prop :=
  0 ≤ w_kmer w < tableSize t
  ∧ bucketStart t idxer threshold diagonalScore db (w_kmer w)
    + bucketCount t idxer threshold diagonalScore seen (w_kmer w)
    ≤ w_slot w
    < bucketStart t idxer threshold diagonalScore db (w_kmer w + 1).

(** ** Words for the neighbourhood variants *)

(** A generated k-mer index that the fill pass of the neighbourhood variant
    takes up: it lies in the window and its bucket is not masked. *)
Definition taken (t : IndexTable) (aaFrom aaSize : Z) (i : Z) : Prop :=
  aaFrom ≤ i < aaFrom + aaSize ∧ ¬ masked (offsets t) i.

#[global] Instance taken_dec t aaFrom aaSize i :
  Decision (taken t aaFrom aaSize i).
Proof. unfold taken, masked. apply _. Defined.

(** The occurrences taken up for a sequence, as pairs of generated k-mer
    index and position of the window that generated it, in the order of
    the two loops. *)
Definition similarOccurrences (t : IndexTable) (kmerGenerator : KmerGenerator)
    (aaFrom aaSize : Z) (s : Sequence) : list (Z * Z) :=
  kmerStream s ≫= λ w,
    (λ i, (i, w.2))
      <$> filter (taken t aaFrom aaSize) (generateKmerList kmerGenerator w.1).

(** Every generated index names a bucket of the table. *)
Definition generatesInto (t : IndexTable) (kmerGenerator : KmerGenerator)
    (s : Sequence) : Prop :=
  Forall (λ i, 0 ≤ i < tableSize t)
         (similarCountScan kmerGenerator (kmerStream s)).

(** A generator for the small database: a window and the window with its
    two symbols exchanged. *)
Definition swapGenerator : KmerGenerator :=
  mkKmerGenerator (λ kmer, [encode 4 kmer 0 2; encode 4 (reverse kmer) 0 2]).

(** ** Statistics *)

(** The variables of [printStatistics] that hold what it prints as
    "Entries", "Min Kmer Size", "Empty list" and "Top 10 Kmers"; an element
    of [topElements] is the pair of a bucket length ([first]) and a k-mer
    index ([second]).  The average, a [double], and the size in bytes
    computed from "Entries" are left out. *)
Record Statistics := mkStatistics {
  entrySize : Z;
  minKmer : Z;
  emptyKmer : Z;
  topElements : list (Z * Z)
}.

Definition top_N : Z := 10.

(** The inner loop [for (j = 0; j < top_N; j++)]: the first element whose
    length is below [size] is overwritten. *)
Fixpoint topInsert (top : list (Z * Z)) (size i : Z) : list (Z * Z) :=
  match top with
  | [] => []
  | e :: rest =>
      if decide (e.1 < size) then (size, i) :: rest
      else e :: topInsert rest size i
  end.

(** One turn of the loop over the buckets; [size] is the difference as the
    [size_t] it is compared and added as. *)
Definition statisticsStep (offs : list Z) (st : Statistics) (i : Z)
    : option Statistics :=
  hi ← load offs (i + 1);
  lo ← load offs i;
  let size := wrap64 (hi - lo) in
  least ← load (topElements st) (top_N - 1);
  Some (mkStatistics
          (wrap64 (entrySize st + size))
          (Z.min (minKmer st) size)
          (if decide (size = 0) then wrap64 (emptyKmer st + 1)
           else emptyKmer st)
          (if decide (size < least.1) then topElements st
           else topInsert (topElements st) size i)).

Fixpoint statisticsLoop (n : nat) (i : Z) (offs : list Z) (st : Statistics)
    : option Statistics :=
  match n with
  | O => Some st
  | S n' =>
      st' ← statisticsStep offs st i;
      statisticsLoop n' (i + 1) offs st'
  end.

(** [printStatistics]: the variables when the loop has ended. *)
Definition printStatistics (t : IndexTable) : option Statistics :=
  statisticsLoop (Z.to_nat (tableSize t)) 0 (offsets t)
    (mkStatistics 0 0 0 (replicate (Z.to_nat top_N) (0, 0))).

(** What the loop of [printStatistics] has established when it has seen
    the buckets below [i]. *)
Definition tallied (offs : list Z) (i : Z) (st : Statistics) : Prop :=
  (∃ first cur, load offs 0 = Some first ∧ load offs i = Some cur
     ∧ entrySize st = wrap64 (cur - first))
  ∧ minKmer st = 0
  ∧ emptyKmer st = Z.of_nat (length (filter (λ j, bucketLength offs j = Some 0) (seqZ 0 i)))
  ∧ Z.of_nat (length (topElements st)) = top_N
  ∧ StronglySorted (λ a b : Z * Z, b.1 ≤ a.1) (topElements st)
  ∧ (∀ j n, 0 ≤ j < i → bucketLength offs j = Some n →
       ∃ e, head (topElements st) = Some e ∧ n ≤ e.1)
  ∧ (∀ e, e ∈ topElements st →
       e = (0, 0) ∨ (0 ≤ e.2 < i ∧ bucketLength offs e.2 = Some e.1)).

(** ** Assembly: the choice of the fragment that extends a query *)

(** The fields of [Matcher::result_t] that [assembleresult.cpp] reads; the
    header of [Matcher] is not part of the files. *)
Record result_t := mk_result_t {
  dbKey : Z;
  qStartPos : Z;
  dbStartPos : Z
}.

#[global] Instance result_t_eq_dec : EqDecision result_t.
Proof. solve_decision. Defined.

(** [Matcher::result_t(UINT_MAX,0,0,0,0,0,0,0,0,0,0,0,0,"")], the value
    returned when no alignment is chosen: every number after the first
    argument is 0, and the caller recognises the value by [dbKey ==
    UINT_MAX]. *)
Definition noFragment : result_t := mk_result_t UINT_MAX 0 0.

(** [selectBestExtentionFragment]; the reader of the sequence database is
    not used by the function. *)
Fixpoint selectBestExtentionFragment (alignments : list result_t)
    (prevFound : gset Z) (queryKey : Z) : result_t :=
  match alignments with
  | [] => noFragment
  | a :: rest =>
      let foundPrev := bool_decide (dbKey a ∈ prevFound) in
      if bool_decide (foundPrev = false) then
        if (bool_decide (dbStartPos a = 0) || bool_decide (qStartPos a = 0))
           && bool_decide (dbKey a ≠ queryKey)
        then a
        else selectBestExtentionFragment rest prevFound queryKey
      else selectBestExtentionFragment rest prevFound queryKey
  end.

(** The loop [for (alnIdx = 0; alnIdx < alignments.size(); alnIdx++)] of
    [doassembly], [n] turns left, as far as it chooses fragments: the set
    [prevFound] and the fragments chosen so far, in order.  The extension
    of the query string by a chosen fragment does not enter the choice. *)
Fixpoint extensionLoop (n : nat) (alignments : list result_t) (queryKey : Z)
    (prevFound : gset Z) (chosen : list result_t)
    : gset Z * list result_t :=
  match n with
  | O => (prevFound, chosen)
  | S n' =>
      let besttHitToExtend :=
        selectBestExtentionFragment alignments prevFound queryKey in
      if decide (dbKey besttHitToExtend = UINT_MAX)
      then extensionLoop n' alignments queryKey prevFound chosen
      else extensionLoop n' alignments queryKey
             ({[dbKey besttHitToExtend]} ∪ prevFound)
             (chosen ++ [besttHitToExtend])
  end.

Definition chosenFragments (alignments : list result_t) (queryKey : Z)
    : gset Z * list result_t :=
  extensionLoop (length alignments) alignments queryKey ∅ [].

(** An alignment that can extend the query: its target has not been used,
    it starts at the first residue of the query or of the target, and the
    target is not the query itself. *)
Definition extends (prevFound : gset Z) (queryKey : Z) (a : result_t) : Prop :=
  (dbKey a ∉ prevFound)
  ∧ (dbStartPos a = 0 ∨ qStartPos a = 0)
  ∧ dbKey a ≠ queryKey.

#[global] Instance extends_dec prevFound queryKey a :
  Decision (extends prevFound queryKey a).
Proof. unfold extends. apply _. Defined.

(** The time printed by [assembleresult]: [sec / 3600], [sec % 3600 / 60]
    and [sec % 60], in the arithmetic of [time_t]. *)
Definition processingTime (sec : Z) : Z * Z * Z :=
  (Z.quot sec 3600, Z.quot (Z.rem sec 3600) 60, Z.rem sec 60).

(** ** Workers with windows *)

(** The postings that bucket [i] holds when the buckets below [a] are
    filled and, of the buckets of the window [[a, b)], the postings of the
    sequences [seen]. *)
Definition filledIn (t : IndexTable) (idxer : Indexer) (threshold : Z)
    (diagonalScore : Z → Z) (db : list Sequence) (a b : Z)
    (seen : list Sequence) (i : Z) : list IndexEntryLocal :=
  if decide (i < a) then bucketPostings t idxer threshold diagonalScore db i
  else if decide (i < b)
       then bucketPostings t idxer threshold diagonalScore seen i
       else [].

(** The cursors in that state: every cursor stands behind the postings its
    bucket holds. *)
Definition cursorsInWindow (t : IndexTable) (idxer : Indexer) (threshold : Z)
    (diagonalScore : Z → Z) (db : list Sequence) (a b : Z)
    (seen : list Sequence) (offs : list Z) : Prop :=
  Z.of_nat (length offs) = tableSize t + 1
  ∧ (∀ i, 0 ≤ i < tableSize t →
       load offs i
       = Some (bucketStart t idxer threshold diagonalScore db i
               + Z.of_nat (length (filledIn t idxer threshold diagonalScore
                                     db a b seen i))))
  ∧ load offs (tableSize t)
    = Some (totalPostings t idxer threshold diagonalScore db).

(** The entries in that state. *)
Definition entriesInWindow (t : IndexTable) (idxer : Indexer) (threshold : Z)
    (diagonalScore : Z → Z) (db : list Sequence) (a b : Z)
    (seen : list Sequence) (ents : list IndexEntryLocal) : Prop :=
  ∀ i j p, 0 ≤ i < tableSize t →
    filledIn t idxer threshold diagonalScore db a b seen i !! j = Some p →
    load ents (bucketStart t idxer threshold diagonalScore db i + Z.of_nat j)
    = Some p.

(* ================================================================== *)
(** * Properties *)
(* ================================================================== *)

(** ** Arrays *)

Lemma load_lookup {A} (a : list A) (i : nat) : load a (Z.of_nat i) = a !! i.
Proof. unfold load. rewrite decide_True by lia. by rewrite Nat2Z.id. Qed.

Lemma load_Some_range {A} (a : list A) i v :
  load a i = Some v → 0 ≤ i < Z.of_nat (length a).
Proof.
  unfold load. destruct (decide (0 ≤ i)); [|done].
  intros Hl%lookup_lt_Some. lia.
Qed.

Lemma load_is_Some {A} (a : list A) i :
  0 ≤ i < Z.of_nat (length a) → is_Some (load a i).
Proof.
  intros. unfold load. rewrite decide_True by lia.
  apply lookup_lt_is_Some. lia.
Qed.

Lemma store_Some {A} (a : list A) i v :
  0 ≤ i < Z.of_nat (length a) → store a i v = Some (<[Z.to_nat i := v]> a).
Proof. intros. unfold store. by rewrite decide_True. Qed.

Lemma store_inv {A} (a a' : list A) i v :
  store a i v = Some a' →
  0 ≤ i < Z.of_nat (length a) ∧ a' = <[Z.to_nat i := v]> a.
Proof.
  unfold store. destruct (decide _); intros [= <-]; auto.
Qed.

Lemma store_length {A} (a a' : list A) i v :
  store a i v = Some a' → length a' = length a.
Proof. intros [_ ->]%store_inv. apply length_insert. Qed.

Lemma load_store_eq {A} (a a' : list A) i v :
  store a i v = Some a' → load a' i = Some v.
Proof.
  intros [? ->]%store_inv. unfold load. rewrite decide_True by lia.
  apply list_lookup_insert_eq. lia.
Qed.

Lemma load_store_ne {A} (a a' : list A) i j v :
  store a i v = Some a' → i ≠ j → load a' j = load a j.
Proof.
  intros [? ->]%store_inv ?. unfold load. case_decide; [|done].
  apply list_lookup_insert_ne. lia.
Qed.

(** ** k-mer size selection *)

(** C8. [computeKmerSize] returns 6 below 3,350,000,000 residues and 7 from
    there on; [getUpperBoundAACountForKmerSize] ends the process for every
    k-mer size other than 6 and 7 and returns a bound for these two. *)
Theorem computeKmerSize_selection :
  (∀ R, computeKmerSize R = Returns (if decide (R < 3350000000) then 6 else 7))
  ∧ (∀ k, k ≠ 6 → k ≠ 7 → getUpperBoundAACountForKmerSize k = ExitFailure)
  ∧ getUpperBoundAACountForKmerSize 6 = Returns 3350000000
  ∧ getUpperBoundAACountForKmerSize 7 = Returns (SIZE_MAX - 1).
Proof.
  repeat split.
  intros k H6 H7. unfold getUpperBoundAACountForKmerSize.
  by rewrite !decide_False.
Qed.

(** ** Prefix sum *)

Lemma prefixSums_length offset cs : length (prefixSums offset cs) = length cs.
Proof. revert offset. induction cs; simpl; auto. Qed.

Lemma init_loop_spec cs : ∀ pre post offset,
  init_loop (length cs) (Z.of_nat (length pre)) offset (pre ++ cs ++ post)
  = Some (foldl (λ o c, wrap64 (o + c)) offset cs,
          pre ++ prefixSums offset cs ++ post).
Proof.
  induction cs as [|c cs IH]; intros pre post offset; [done|].
  cbn [length init_loop foldl prefixSums].
  rewrite load_lookup, lookup_app_r, Nat.sub_diag by lia. cbn.
  rewrite store_Some by (rewrite length_app; cbn; lia).
  cbn. rewrite Nat2Z.id.
  rewrite insert_app_r_alt, Nat.sub_diag by lia. cbn.
  specialize (IH (pre ++ [offset]) post (wrap64 (offset + c))).
  rewrite length_app in IH. cbn in IH.
  replace (Z.of_nat (length pre) + 1) with (Z.of_nat (length pre + 1)) by lia.
  rewrite <- !(assoc_L (++)) in IH. apply IH.
Qed.

Lemma sumZ_nonneg l : Forall (λ c, 0 ≤ c) l → 0 ≤ sumZ l.
Proof. unfold sumZ. induction 1; cbn; lia. Qed.

Lemma sumZ_cons c l : sumZ (c :: l) = c + sumZ l.
Proof. done. Qed.

Lemma sumZ_app l1 l2 : sumZ (l1 ++ l2) = sumZ l1 + sumZ l2.
Proof. unfold sumZ. induction l1; cbn; lia. Qed.

Lemma sumZ_take_le l i : Forall (λ c, 0 ≤ c) l → sumZ (take i l) ≤ sumZ l.
Proof.
  intros H. rewrite <- (take_drop i l) at 2. rewrite sumZ_app.
  pose proof (sumZ_nonneg (drop i l) (Forall_drop _ _ _ H)). lia.
Qed.

Lemma wrap64_small z : 0 ≤ z < 2 ^ 64 → wrap64 z = z.
Proof. apply Z.mod_small. Qed.

Lemma total64_exact cs : ∀ offset,
  Forall (λ c, 0 ≤ c) cs → 0 ≤ offset → offset + sumZ cs < 2 ^ 64 →
  foldl (λ o c, wrap64 (o + c)) offset cs = offset + sumZ cs.
Proof.
  induction cs as [|c cs IH]; intros offset Hcs Ho Hs; [cbn; lia|].
  rewrite sumZ_cons in Hs. rewrite sumZ_cons. cbn [foldl].
  apply Forall_cons_1 in Hcs as [Hc Hcs].
  pose proof (sumZ_nonneg cs Hcs).
  rewrite wrap64_small by lia. rewrite IH; [lia|done|lia|lia].
Qed.

Lemma prefixSums_lookup cs : ∀ offset i,
  Forall (λ c, 0 ≤ c) cs → 0 ≤ offset → offset + sumZ cs < 2 ^ 64 →
  (i < length cs)%nat →
  prefixSums offset cs !! i = Some (offset + sumZ (take i cs)).
Proof.
  induction cs as [|c cs IH]; intros offset i Hcs Ho Hs Hi; [cbn in Hi; lia|].
  rewrite sumZ_cons in Hs. cbn in Hi.
  apply Forall_cons_1 in Hcs as [Hc Hcs].
  pose proof (sumZ_nonneg cs Hcs).
  destruct i as [|i]; cbn [prefixSums lookup list_lookup take];
    [f_equal; cbn; lia|].
  rewrite sumZ_cons.
  rewrite IH by (try done; rewrite ?wrap64_small; lia).
  rewrite wrap64_small by lia. f_equal. lia.
Qed.

Lemma init_offsets (t : IndexTable) (counts : list Z) (last : Z) :
  offsets t = counts ++ [last] →
  Z.of_nat (length counts) = tableSize t →
  init t = Some (set_offsets t
    (prefixSums 0 counts ++ [foldl (λ o c, wrap64 (o + c)) 0 counts])).
Proof.
  intros Ho Hn. unfold init. rewrite <- Hn, Nat2Z.id, Ho.
  pose proof (init_loop_spec counts [] [last] 0) as H.
  cbn [app length] in H. change (Z.of_nat 0) with 0 in H.
  rewrite H. cbn.
  rewrite store_Some by (rewrite length_app, prefixSums_length; cbn; lia).
  cbn. rewrite Nat2Z.id.
  rewrite insert_app_r_alt by (rewrite prefixSums_length; lia).
  by rewrite prefixSums_length, Nat.sub_diag.
Qed.

Lemma init_run (t : IndexTable) (counts : list Z) (last : Z) :
  offsets t = counts ++ [last] →
  Z.of_nat (length counts) = tableSize t →
  Forall (λ c, 0 ≤ c) counts →
  sumZ counts < 2 ^ 64 →
  ∃ offs', init t = Some (set_offsets t offs')
    ∧ length offs' = length (offsets t)
    ∧ (∀ i, 0 ≤ i ≤ tableSize t →
         load offs' i = Some (sumZ (take (Z.to_nat i) counts))).
Proof.
  intros Ho Hn Hcs Hs.
  eexists. split; [by apply init_offsets with (last := last)|].
  split; [by rewrite Ho, !length_app, prefixSums_length|].
  intros i Hi. unfold load. rewrite decide_True by lia.
  destruct (decide (i = tableSize t)) as [->|Hne].
  - rewrite lookup_app_r by (rewrite prefixSums_length; lia).
    rewrite prefixSums_length, <- Hn, Nat2Z.id, Nat.sub_diag. cbn.
    rewrite firstn_all. by rewrite total64_exact by (done || lia).
  - rewrite lookup_app_l by (rewrite prefixSums_length; lia).
    rewrite prefixSums_lookup by (done || lia). done.
Qed.

(** C4. After [init], cell [i] holds the sum of the counts of the cells
    before it (cell 0 holds 0, cell [tableSize] the total) and the cells
    never decrease from one to the next.  The counts are [size_t] values
    whose total is one too. *)
Theorem init_prefix_sum (t : IndexTable) (counts : list Z) (last : Z) :
  offsets t = counts ++ [last] →
  Z.of_nat (length counts) = tableSize t →
  Forall (λ c, 0 ≤ c) counts →
  sumZ counts < 2 ^ 64 →
  ∃ t', init t = Some t'
    ∧ (∀ i, 0 ≤ i ≤ tableSize t →
         load (offsets t') i = Some (sumZ (take (Z.to_nat i) counts)))
    ∧ load (offsets t') 0 = Some 0
    ∧ load (offsets t') (tableSize t) = Some (sumZ counts)
    ∧ (∀ i, 0 ≤ i < tableSize t →
         ∃ a b, load (offsets t') i = Some a
              ∧ load (offsets t') (i + 1) = Some b ∧ a ≤ b).
Proof.
  intros Ho Hn Hcs Hs.
  destruct (init_run t counts last Ho Hn Hcs Hs) as (offs' & Hrun & _ & Hcell).
  eexists. split; [exact Hrun|]. cbn.
  split; [done|]. split; [apply (Hcell 0); lia|].
  split.
  { rewrite Hcell by lia. by rewrite <- Hn, Nat2Z.id, firstn_all. }
  intros i Hi. do 2 eexists.
  split; [apply Hcell; lia|]. split; [apply Hcell; lia|].
  replace (Z.to_nat (i + 1)) with (S (Z.to_nat i)) by lia.
  destruct (lookup_lt_is_Some_2 counts (Z.to_nat i)) as [c Hc]; [lia|].
  rewrite (take_S_r _ _ c) by done. rewrite sumZ_app, sumZ_cons.
  apply (Forall_lookup_1 _ _ _ _ Hcs) in Hc. cbn. lia.
Qed.

(** A table of four buckets with counts 2, 0, 1, 3. *)
Lemma init_prefix_sum_witness :
  ∃ t', init (mkIndexTable 4 2 2 false [] [2; 0; 1; 3; 0]) = Some t'
    ∧ load (offsets t') 4 = Some 6.
Proof.
  destruct (init_prefix_sum (mkIndexTable 4 2 2 false [] [2; 0; 1; 3; 0])
              [2; 0; 1; 3] 0) as (t' & Hi & _ & _ & Ht & _).
  - reflexivity.
  - reflexivity.
  - repeat constructor; lia.
  - vm_compute. reflexivity.
  - exists t'. split; [exact Hi | exact Ht].
Defined.

(** ** Rewind *)

Lemma revert_loop_spec n : ∀ offs : list Z,
  (n < length offs)%nat →
  revert_loop n offs = Some (take 1 offs ++ take n offs ++ drop (S n) offs).
Proof.
  induction n as [|n IH]; intros offs Hn.
  - destruct offs; [cbn in Hn; lia | done].
  - cbn [revert_loop].
    destruct (lookup_lt_is_Some_2 offs n) as [v Hv]; [lia|].
    rewrite load_lookup, Hv. cbn.
    rewrite store_Some by lia. cbn. rewrite IH by (rewrite length_insert; lia).
    rewrite Nat2Z.id, !take_insert_ge by lia.
    rewrite drop_insert_ge, Nat.sub_diag by lia.
    destruct (lookup_lt_is_Some_2 offs (S n)) as [w Hw]; [lia|].
    rewrite (drop_S _ w (S n)) by done. cbn [insert list_insert].
    rewrite (take_S_r offs n v) by done.
    by rewrite <- (assoc_L (++) (take n offs)).
Qed.

Lemma revertPointer_offsets (t : IndexTable) :
  0 ≤ tableSize t →
  Z.of_nat (length (offsets t)) = tableSize t + 1 →
  revertPointer t
  = Some (set_offsets t (0 :: take (Z.to_nat (tableSize t)) (offsets t))).
Proof.
  intros Hsz Hlen. unfold revertPointer.
  rewrite revert_loop_spec by lia.
  rewrite (drop_ge (offsets t)), app_nil_r by lia.
  destruct (offsets t) as [|o os] eqn:Ho; [cbn in Hlen; lia|].
  cbn [take mbind option_bind app].
  rewrite store_Some by (cbn; lia). done.
Qed.

Lemma list_snoc_of_length {A} (l : list A) n :
  length l = S n → ∃ l' x, l = l' ++ [x] ∧ length l' = n.
Proof.
  intros Hl. destruct l as [|y l] using rev_ind; [done|].
  rewrite length_app in Hl. cbn in Hl. exists l, y. split; [done | lia].
Qed.

Lemma init_first_cell (counted stage3 : IndexTable) :
  0 ≤ tableSize counted →
  Z.of_nat (length (offsets counted)) = tableSize counted + 1 →
  init counted = Some stage3 →
  tableSize stage3 = tableSize counted
  ∧ length (offsets stage3) = length (offsets counted)
  ∧ offsets stage3 !! 0%nat = Some 0.
Proof.
  intros Hsz Hlen Hinit.
  destruct (list_snoc_of_length (offsets counted) (Z.to_nat (tableSize counted)))
    as (counts & last & Ho & Hc); [lia|].
  rewrite (init_offsets counted counts last) in Hinit by (done || lia).
  injection Hinit as <-. cbn.
  rewrite Ho, !length_app, prefixSums_length. split; [done|]. split; [done|].
  by destruct counts.
Qed.

(** C5. [revertPointer] moves every cell one place up (cell [i] becomes the
    former cell [i-1] for [i] from [tableSize] down to 1) and clears cell 0.
    Hence, when the fill pass has left the cursor of every bucket at the
    start that [init] gave to the next bucket, the rewound cells are the
    cells [init] produced. *)
Theorem revertPointer_shift (t : IndexTable) :
  0 ≤ tableSize t →
  Z.of_nat (length (offsets t)) = tableSize t + 1 →
  ∃ t', revertPointer t = Some t'
    ∧ load (offsets t') 0 = Some 0
    ∧ (∀ i, 1 ≤ i ≤ tableSize t →
         load (offsets t') i = load (offsets t) (i - 1))
    ∧ (∀ counted stage3,
         tableSize counted = tableSize t →
         Z.of_nat (length (offsets counted)) = tableSize counted + 1 →
         init counted = Some stage3 →
         (∀ i, 0 ≤ i < tableSize t →
            load (offsets t) i = load (offsets stage3) (i + 1)) →
         offsets t' = offsets stage3).
Proof.
  intros Hsz Hlen. eexists. split; [by apply revertPointer_offsets|]. cbn.
  split; [done|]. split.
  - intros i Hi. unfold load. rewrite !decide_True by lia.
    replace (Z.to_nat i) with (S (Z.to_nat (i - 1))) by lia. cbn.
    apply lookup_take_lt. lia.
  - intros counted stage3 Hsame Hclen Hinit Hcur.
    destruct (init_first_cell counted stage3) as (_ & Hl3 & H0);
      [lia | done | done |].
    apply list_eq. intros [|i]; [by rewrite H0|].
    change (take (Z.to_nat (tableSize t)) (offsets t) !! i
            = offsets stage3 !! S i).
    destruct (decide (i < Z.to_nat (tableSize t))%nat) as [Hi|Hi].
    + rewrite lookup_take_lt by done.
      specialize (Hcur (Z.of_nat i)). rewrite !load_lookup in Hcur.
      replace (Z.of_nat i + 1) with (Z.of_nat (S i)) in Hcur by lia.
      rewrite load_lookup in Hcur. apply Hcur. lia.
    + rewrite lookup_take_ge by lia.
      symmetry. apply lookup_ge_None. lia.
Qed.

(** Three buckets with counts 2, 0, 1: [init] gives 0, 2, 2, 3 and a fill
    that used every slot leaves the cursors at 2, 2, 3, 3. *)
Lemma revertPointer_shift_witness :
  ∃ t' stage3,
    revertPointer (mkIndexTable 3 3 1 false [] [2; 2; 3; 3]) = Some t'
    ∧ init (mkIndexTable 3 3 1 false [] [2; 0; 1; 0]) = Some stage3
    ∧ offsets t' = offsets stage3.
Proof.
  destruct (revertPointer_shift (mkIndexTable 3 3 1 false [] [2; 2; 3; 3]))
    as (t' & Hr & _ & _ & Hstage); [cbn; lia | reflexivity |].
  exists t', (mkIndexTable 3 3 1 false [] [0; 2; 2; 3]).
  split; [exact Hr|]. split; [reflexivity|].
  apply (Hstage (mkIndexTable 3 3 1 false [] [2; 0; 1; 0]));
    [reflexivity | reflexivity | reflexivity |].
  intros i Hi. cbn in Hi.
  assert (i = 0 ∨ i = 1 ∨ i = 2) as [-> | [-> | ->]] by lia; reflexivity.
Defined.

(** ** First occurrences in a sorted buffer *)

Section group_heads.
Context {A : Type} (key : A → Z) (R : relation A).
Hypothesis R_key : ∀ x y, R x y → key x ≤ key y.

Lemma groupHeads_elem_of prev l h : h ∈ groupHeads key prev l → h ∈ l.
Proof.
  revert prev. induction l as [|x l IH]; intros prev; cbn; [done|].
  destruct (decide (key x = prev)).
  - intros Hh. apply elem_of_cons. right. eauto.
  - rewrite !elem_of_cons. intros [->|Hh]; eauto.
Qed.

(** After an element [p], in a buffer sorted together with [p]. *)
Lemma groupHeads_after l : ∀ p,
  StronglySorted R (p :: l) →
  NoDup (key <$> groupHeads key (key p) l)
  ∧ (key p ∉ key <$> groupHeads key (key p) l)
  ∧ (∀ h b, h ∈ groupHeads key (key p) l →
       b ∈ l → key b = key h → R h b ∨ h = b)
  ∧ (∀ b, b ∈ l → key b ≠ key p →
       key b ∈ (key <$> groupHeads key (key p) l)).
Proof.
  induction l as [|x l IH]; intros p Hs.
  { cbn. split; [constructor|]. split; [apply not_elem_of_nil|].
    split; intros *; by rewrite elem_of_nil. }
  apply StronglySorted_cons in Hs as [Hp Hs].
  pose proof Hs as Hxl.
  apply StronglySorted_cons in Hxl as [Hx Hl].
  apply Forall_cons_1 in Hp as [Hpx Hpl].
  destruct (IH x Hs) as (Hnd & Hnx & Hmin & Hcov).
  assert (Hlow : ∀ h, h ∈ groupHeads key (key x) l → key x < key h).
  { intros h Hh.
    assert (key x ≠ key h).
    { intros Heq. apply Hnx. by apply (list_elem_of_fmap_2' _ _ h). }
    apply groupHeads_elem_of in Hh.
    rewrite list.Forall_forall in Hx. apply Hx, R_key in Hh. lia. }
  cbn [groupHeads]. case_decide as Hk.
  - (* the key of [x] repeats the key of [p] *)
    rewrite <- Hk. split; [done|]. split; [done|]. split.
    + intros h b Hh Hb Hbh. apply elem_of_cons in Hb as [->|Hb]; [|eauto].
      apply Hlow in Hh. lia.
    + intros b Hb Hne. apply elem_of_cons in Hb as [->|Hb]; [done|eauto].
  - rewrite fmap_cons. apply R_key in Hpx. split; [|split; [|split]].
    + by constructor.
    + rewrite not_elem_of_cons. split; [lia|].
      intros (h & Hkh & Hh)%list_elem_of_fmap. apply Hlow in Hh. lia.
    + intros h b Hh Hb Hbh.
      apply elem_of_cons in Hh as [->|Hh], Hb as [->|Hb]; eauto.
      * left. rewrite list.Forall_forall in Hx. by apply Hx.
      * apply Hlow in Hh. lia.
    + intros b Hb Hne. apply elem_of_cons.
      apply elem_of_cons in Hb as [->|Hb]; [by left|].
      destruct (decide (key b = key x)) as [->|]; [by left|]. right. eauto.
Qed.

(** From the start of a sorted buffer none of whose keys is [prev]. *)
Lemma groupHeads_sorted prev l :
  StronglySorted R l →
  prev ∉ (key <$> l) →
  NoDup (key <$> groupHeads key prev l)
  ∧ (∀ h, h ∈ groupHeads key prev l → h ∈ l)
  ∧ (∀ h b, h ∈ groupHeads key prev l →
       b ∈ l → key b = key h → R h b ∨ h = b)
  ∧ (∀ b, b ∈ l → key b ∈ (key <$> groupHeads key prev l)).
Proof.
  intros Hs Hprev. split; [|split; [apply groupHeads_elem_of|]].
  all: destruct l as [|x l];
    [cbn; try constructor; try split; intros *; by rewrite elem_of_nil|].
  all: rewrite fmap_cons, not_elem_of_cons in Hprev; destruct Hprev as [Hne _].
  all: cbn [groupHeads]; rewrite decide_False by done.
  all: destruct (groupHeads_after l x Hs) as (Hnd & Hnx & Hmin & Hcov).
  { rewrite fmap_cons. by constructor. }
  apply StronglySorted_cons in Hs as [Hx Hl].
  rewrite list.Forall_forall in Hx. split.
  - intros h b Hh Hb Hbh.
    apply elem_of_cons in Hh as [->|Hh], Hb as [->|Hb]; eauto.
    destruct Hnx. by apply (list_elem_of_fmap_2' _ _ h).
  - intros b Hb. rewrite fmap_cons. apply elem_of_cons.
    apply elem_of_cons in Hb as [->|Hb]; [by left|].
    destruct (decide (key b = key x)) as [->|]; [by left|]. right. eauto.
Qed.
End group_heads.

(** ** Sorting *)

Lemma notAfter_ltb x y : notAfter Z.ltb x y ↔ x ≤ y.
Proof. unfold notAfter. rewrite Z.ltb_ge. done. Qed.

Lemma notAfter_comapre x y :
  notAfter comapreByIdAndPos x y
  ↔ kmer x < kmer y ∨ (kmer x = kmer y ∧ tmp_position_j x ≤ tmp_position_j y).
Proof.
  unfold notAfter, comapreByIdAndPos.
  repeat (case_match; try rewrite Z.ltb_lt in *; try rewrite Z.ltb_ge in * );
    split; (done || lia).
Qed.

#[local] Instance notAfter_ltb_trans : Transitive (notAfter Z.ltb).
Proof. intros x y z. rewrite !notAfter_ltb. lia. Qed.

#[local] Instance notAfter_ltb_total : Total (notAfter Z.ltb).
Proof. intros x y. rewrite !notAfter_ltb. lia. Qed.

#[local] Instance notAfter_comapre_trans : Transitive (notAfter comapreByIdAndPos).
Proof. intros x y z. rewrite !notAfter_comapre. lia. Qed.

#[local] Instance notAfter_comapre_total : Total (notAfter comapreByIdAndPos).
Proof. intros x y. rewrite !notAfter_comapre. lia. Qed.

Lemma std_sort_Permutation {A} (comp : A → A → bool) l : std_sort comp l ≡ₚ l.
Proof. apply merge_sort_Permutation. Qed.

Lemma std_sort_sorted {A} (comp : A → A → bool)
    `{!Transitive (notAfter comp), !Total (notAfter comp)} l :
  StronglySorted (notAfter comp) (std_sort comp l).
Proof. apply StronglySorted_merge_sort; apply _. Qed.

Lemma short_list_sorted {A} (R : relation A) (l : list A) :
  ¬ 1 < Z.of_nat (length l) → StronglySorted R l.
Proof.
  destruct l as [|x [|y l]]; cbn; intros; [constructor| |lia].
  repeat constructor.
Qed.

Lemma sortBuffer_Permutation buffer : sortBuffer buffer ≡ₚ buffer.
Proof. unfold sortBuffer. case_decide; [apply std_sort_Permutation|done]. Qed.

Lemma sortBuffer_sorted buffer :
  StronglySorted (notAfter comapreByIdAndPos) (sortBuffer buffer).
Proof.
  unfold sortBuffer. case_decide.
  - apply (std_sort_sorted comapreByIdAndPos).
  - by apply short_list_sorted.
Qed.

(** ** The score filter *)

Lemma foldl_score (diagonalScore : Z → Z) l : ∀ a,
  foldl (λ score sym, score + diagonalScore sym) a l
  = a + sumZ (diagonalScore <$> l).
Proof.
  induction l as [|x l IH]; intros a; [unfold sumZ; cbn; lia|].
  rewrite fmap_cons, sumZ_cons. cbn [foldl]. rewrite IH. lia.
Qed.

Lemma kmerScore_sum diagonalScore kmerSize kmer :
  length kmer = Z.to_nat kmerSize →
  kmerScore diagonalScore kmerSize kmer = sumZ (diagonalScore <$> kmer).
Proof.
  intros Hlen. unfold kmerScore.
  rewrite <- Hlen, firstn_all, foldl_score. lia.
Qed.

Lemma belowThreshold_kept threshold diagonalScore kmerSize kmer :
  length kmer = Z.to_nat kmerSize →
  belowThreshold threshold diagonalScore kmerSize kmer = false
  ↔ kept threshold diagonalScore kmer.
Proof.
  intros Hlen. unfold belowThreshold, kept.
  rewrite kmerScore_sum by done.
  rewrite andb_false_iff, !bool_decide_eq_false. lia.
Qed.

(** ** Counting pass *)

Lemma countScan_keptIndices t idxer threshold diagonalScore s :
  fitsTable t idxer s →
  countScan idxer (kmerSize t) threshold diagonalScore (kmerStream s)
  = keptIndices t idxer threshold diagonalScore s.
Proof.
  unfold fitsTable, keptIndices.
  induction 1 as [|[w pos] stream [Hlen _] _ IH]; [done|].
  cbn [countScan]. cbn in Hlen.
  pose proof (belowThreshold_kept threshold diagonalScore _ _ Hlen) as Hk.
  destruct (belowThreshold _ _ _ _).
  - rewrite filter_cons_False; [done|]. cbn. intros ?%Hk. done.
  - rewrite filter_cons_True by (cbn; by apply Hk). by rewrite fmap_cons, IH.
Qed.

Lemma sync_fetch_and_add_Some (a : list Z) i :
  0 ≤ i < Z.of_nat (length a) →
  ∃ v a', sync_fetch_and_add a i 1 = Some (v, a')
        ∧ load a i = Some v
        ∧ store a i (wrap64 (v + 1)) = Some a'.
Proof.
  intros Hi. destruct (load_is_Some a i Hi) as [v Hv].
  exists v, (<[Z.to_nat i := wrap64 (v + 1)]> a).
  unfold sync_fetch_and_add. rewrite Hv. cbn.
  by rewrite store_Some.
Qed.

Lemma countWalk_spec buf : ∀ prev offs c,
  Forall (λ k, 0 ≤ k < Z.of_nat (length offs)) buf →
  ∃ offs',
    countWalk buf prev offs c
    = Some (offs', c + Z.of_nat (length (groupHeads id prev buf)))
    ∧ length offs' = length offs
    ∧ (∀ i, i ∉ groupHeads id prev buf → load offs' i = load offs i)
    ∧ (NoDup (groupHeads id prev buf) →
       ∀ i, i ∈ groupHeads id prev buf →
         ∃ v, load offs i = Some v ∧ load offs' i = Some (wrap64 (v + 1))).
Proof.
  induction buf as [|k buf IH]; intros prev offs c Hbuf.
  { exists offs. cbn. rewrite Z.add_0_r. split; [done|]. split; [done|].
    split; [done|]. intros _ i Hi. by apply elem_of_nil in Hi. }
  apply Forall_cons_1 in Hbuf as [Hk Hbuf].
  cbn [countWalk groupHeads id]. destruct (decide (k = prev)) as [->|Hne].
  { rewrite decide_False by (intros Hk'; by apply Hk'). by apply IH. }
  rewrite decide_True by done.
  destruct (sync_fetch_and_add_Some offs k Hk) as (v & offs1 & -> & Hv & Hst).
  cbn. pose proof (store_length _ _ _ _ Hst) as Hlen1.
  destruct (IH k offs1 (c + 1)) as (offs' & -> & Hlen & Hout & Hin).
  { by rewrite Hlen1. }
  exists offs'. split; [f_equal; f_equal; cbn; lia|].
  split; [congruence|]. split.
  - intros i [Hik Hi]%not_elem_of_cons. rewrite Hout by done.
    by apply (load_store_ne _ _ _ _ _ Hst).
  - intros [Hk' Hnd]%list.NoDup_cons i [->|Hi]%elem_of_cons.
    + exists v. split; [done|]. rewrite Hout by done.
      by apply (load_store_eq _ _ _ _ Hst).
    + destruct (Hin Hnd i Hi) as (v' & Hv' & Hv'').
      exists v'. split; [|done]. rewrite <- Hv'. symmetry.
      apply (load_store_ne _ _ _ _ _ Hst). intros ->. done.
Qed.

Lemma guarded_sort {A} (comp : A → A → bool)
    `{!Transitive (notAfter comp), !Total (notAfter comp)} (l : list A) :
  let l' := if decide (1 < Z.of_nat (length l)) then std_sort comp l else l in
  l' ≡ₚ l ∧ StronglySorted (notAfter comp) l'.
Proof.
  cbn. case_decide.
  - split; [apply std_sort_Permutation | by apply std_sort_sorted].
  - split; [done | by apply short_list_sorted].
Qed.

(** The sort and the last loop of the counting pass on a buffer [buf]. *)
Lemma countPass_spec (offs buf : list Z) :
  Forall (λ k, 0 ≤ k < Z.of_nat (length offs) ∧ k ≠ UINT_MAX) buf →
  ∃ offs',
    countWalk (if decide (1 < Z.of_nat (length buf))
               then std_sort Z.ltb buf else buf) UINT_MAX offs 0
    = Some (offs', Z.of_nat (length (remove_dups buf)))
    ∧ length offs' = length offs
    ∧ (∀ i, i ∈ buf →
         ∃ v, load offs i = Some v ∧ load offs' i = Some (wrap64 (v + 1)))
    ∧ (∀ i, i ∉ buf → load offs' i = load offs i).
Proof.
  intros Hbuf.
  destruct (guarded_sort Z.ltb buf) as [Hperm Hsorted].
  set (sorted := if decide (1 < Z.of_nat (length buf))
                 then std_sort Z.ltb buf else buf) in *.
  rewrite <- Hperm in Hbuf.
  destruct (groupHeads_sorted id (notAfter Z.ltb)
              (λ x y, proj1 (notAfter_ltb x y)) UINT_MAX sorted Hsorted)
    as (Hnd & Hsub & _ & Hcov).
  { rewrite list_fmap_id. intros Hin.
    rewrite list.Forall_forall in Hbuf. by destruct (Hbuf _ Hin). }
  rewrite list_fmap_id in Hnd. setoid_rewrite list_fmap_id in Hcov.
  destruct (countWalk_spec sorted UINT_MAX offs 0)
    as (offs' & Hwalk & Hlen & Hout & Hin).
  { eapply list.Forall_impl; [exact Hbuf|]. by intros k [? _]. }
  assert (Hsame : ∀ i, i ∈ groupHeads id UINT_MAX sorted ↔ i ∈ buf).
  { intros i. rewrite <- Hperm. split; [apply Hsub | apply Hcov]. }
  exists offs'. rewrite Hwalk. split.
  { rewrite Z.add_0_l. do 3 f_equal.
    apply Permutation_length, NoDup_Permutation;
      [done | apply NoDup_remove_dups |].
    intros i. by rewrite Hsame, elem_of_remove_dups. }
  split; [done|]. split.
  - intros i Hi. apply Hin; [done | by apply Hsame].
  - intros i Hi. apply Hout. by rewrite Hsame.
Qed.

Lemma fitsTable_keptIndices t idxer threshold diagonalScore s :
  fitsTable t idxer s →
  Forall (λ k, 0 ≤ k < tableSize t)
         (keptIndices t idxer threshold diagonalScore s).
Proof.
  unfold fitsTable, keptIndices. intros Hfit.
  apply Forall_fmap, list.Forall_forall.
  intros w [_ Hw]%list_elem_of_filter.
  rewrite list.Forall_forall in Hfit. by destruct (Hfit w Hw).
Qed.

Lemma addKmerCount_run (t : IndexTable) (s : Sequence)
    (idxer : Indexer) (threshold : Z) (diagonalScore : Z → Z) :
  tableShape t →
  fitsTable t idxer s →
  ∃ offs',
    addKmerCount t s idxer threshold diagonalScore
    = Some (set_offsets t offs',
            Z.of_nat (length (remove_dups
                        (keptIndices t idxer threshold diagonalScore s))))
    ∧ length offs' = length (offsets t)
    ∧ (∀ i, i ∈ keptIndices t idxer threshold diagonalScore s →
         ∃ v, load (offsets t) i = Some v
            ∧ load offs' i = Some (wrap64 (v + 1)))
    ∧ (∀ i, i ∉ keptIndices t idxer threshold diagonalScore s →
         load offs' i = load (offsets t) i).
Proof.
  intros [Hsize Hcells] Hfit.
  pose proof (fitsTable_keptIndices t idxer threshold diagonalScore s Hfit)
    as Hrange.
  unfold addKmerCount. rewrite countScan_keptIndices by done.
  destruct (countPass_spec (offsets t)
              (keptIndices t idxer threshold diagonalScore s))
    as (offs' & -> & Hlen & Hin & Hout).
  { eapply list.Forall_impl; [exact Hrange|]. cbn. intros k Hk. lia. }
  cbn. by exists offs'.
Qed.

(** C2. [addKmerCount] keeps a k-mer when no threshold is set or its
    diagonal score reaches the threshold ([kept]); it adds one, in [size_t],
    to the cell of every index that occurs among the kept k-mers, leaves
    every other cell as it was, and returns the number of distinct indices
    among the kept k-mers. *)
Theorem addKmerCount_distinct (t : IndexTable) (s : Sequence)
    (idxer : Indexer) (threshold : Z) (diagonalScore : Z → Z) :
  tableShape t →
  fitsTable t idxer s →
  ∃ t' n,
    addKmerCount t s idxer threshold diagonalScore = Some (t', n)
    ∧ n = Z.of_nat (length (remove_dups
                      (keptIndices t idxer threshold diagonalScore s)))
    ∧ (∀ i, i ∈ keptIndices t idxer threshold diagonalScore s →
         ∃ v, load (offsets t) i = Some v
            ∧ load (offsets t') i = Some (wrap64 (v + 1))
            ∧ (0 ≤ v < SIZE_MAX → wrap64 (v + 1) = v + 1))
    ∧ (∀ i, i ∉ keptIndices t idxer threshold diagonalScore s →
         load (offsets t') i = load (offsets t) i)
    ∧ entries t' = entries t.
Proof.
  intros Hshape Hfit.
  destruct (addKmerCount_run t s idxer threshold diagonalScore Hshape Hfit)
    as (offs' & Hrun & _ & Hin & Hout).
  eexists _, _. split; [exact Hrun|]. split; [done|]. cbn.
  split; [|done].
  intros i Hi. destruct (Hin i Hi) as (v & Hv & Hv').
  exists v. split; [done|]. split; [done|].
  intros Hsmall. apply wrap64_small. unfold SIZE_MAX in Hsmall. lia.
Qed.

(** Scenario S2 of the specification: the sequence 0,0,0,0 over an
    alphabet of four symbols with k = 2 contributes one k-mer. *)
Lemma addKmerCount_distinct_witness :
  ∃ t', addKmerCount (emptyTable 17 2) (sequence2 0 [0; 0; 0; 0])
          indexer4 0 (λ _, 0) = Some (t', 1).
Proof.
  destruct (addKmerCount_distinct (emptyTable 17 2)
              (sequence2 0 [0; 0; 0; 0]) indexer4 0 (λ _, 0))
    as (t' & n & Hrun & Hn & _).
  - split; [cbn; unfold UINT_MAX; lia | reflexivity].
  - unfold fitsTable. cbn. repeat constructor; by vm_compute.
  - exists t'. rewrite Hrun, Hn. reflexivity.
Defined.

(** ** Fill pass *)

Lemma inWindow_spec aaFrom aaSize i :
  0 ≤ aaFrom → 0 ≤ aaSize → aaFrom + aaSize < 2 ^ 64 →
  inWindow aaFrom aaSize i = true ↔ aaFrom ≤ i < aaFrom + aaSize.
Proof.
  intros. unfold inWindow. rewrite wrap64_small by lia.
  rewrite andb_true_iff, !bool_decide_eq_true. done.
Qed.

Lemma regionMasked_spec (t : IndexTable) i :
  tableShape t → 0 ≤ i < tableSize t →
  ∃ lo n, load (offsets t) i = Some lo
        ∧ bucketLength (offsets t) i = Some n
        ∧ regionMasked (offsets t) i = Some (bool_decide (n = 0)).
Proof.
  intros [Hsize Hcells] Hi. unfold regionMasked, bucketLength, wrap32.
  unfold UINT_MAX in Hsize. rewrite Z.mod_small by lia.
  destruct (load_is_Some (offsets t) (i + 1)) as [hi ->]; [lia|].
  destruct (load_is_Some (offsets t) i) as [lo ->]; [lia|].
  cbn. eauto.
Qed.

Lemma fillScan_eligible t s idxer aaFrom aaSize threshold diagonalScore :
  tableShape t → fitsTable t idxer s →
  0 ≤ aaFrom → 0 ≤ aaSize → aaFrom + aaSize < 2 ^ 64 →
  fillScan (offsets t) (kmerSize t) (getId s) idxer aaFrom aaSize threshold
    diagonalScore (kmerStream s)
  = Some (tmpOf (getId s)
            <$> eligibleOccurrences t idxer aaFrom aaSize threshold
                  diagonalScore s).
Proof.
  intros Hshape Hfit HaF HaS Hwin. unfold fitsTable, eligibleOccurrences in *.
  induction Hfit as [|[w pos] stream [Hlen Hidx] _ IH]; [done|].
  cbn [fillScan]. cbn in Hlen, Hidx. rewrite IH. clear IH.
  pose proof (inWindow_spec aaFrom aaSize
                (int2index idxer w 0 (kmerSize t)) HaF HaS Hwin) as Hw.
  destruct (regionMasked_spec t _ Hshape Hidx) as (lo & n & _ & Hn & Hm).
  pose proof (belowThreshold_kept threshold diagonalScore _ _ Hlen) as Hk.
  assert (Hn0 : n = 0 ↔ masked (offsets t) (int2index idxer w 0 (kmerSize t))).
  { unfold masked. rewrite Hn. split; congruence. }
  assert (Hadm : eligible t idxer aaFrom aaSize threshold diagonalScore (w, pos)
    ↔ inWindow aaFrom aaSize (int2index idxer w 0 (kmerSize t)) = true
      ∧ n ≠ 0
      ∧ belowThreshold threshold diagonalScore (kmerSize t) w = false).
  { unfold eligible. cbn [fst]. rewrite Hw, Hn0, Hk. done. }
  destruct (decide (eligible t idxer aaFrom aaSize threshold diagonalScore
                      (w, pos))) as [Hyes|Hno].
  - rewrite filter_cons_True by done.
    apply Hadm in Hyes as (-> & Hnz & ->). rewrite Hm. cbn [mbind option_bind].
    by rewrite bool_decide_eq_false_2.
  - rewrite filter_cons_False by done.
    destruct (inWindow _ _ _); [|done].
    rewrite Hm. cbn [mbind option_bind]. case_bool_decide; [done|].
    destruct (belowThreshold _ _ _ _); [done|].
    destruct Hno. by apply Hadm.
Qed.

Lemma fillWalk_spec buffer : ∀ prev offs ents,
  NoDup (kmer <$> groupHeads kmer prev buffer) →
  (∀ h, h ∈ groupHeads kmer prev buffer →
     ∃ cur, load offs (kmer h) = Some cur ∧ 0 ≤ cur < Z.of_nat (length ents)) →
  ∃ offs',
    fillWalk buffer prev offs ents
    = Some (offs',
            applyWrites ents (writeOf offs <$> groupHeads kmer prev buffer),
            writeOf offs <$> groupHeads kmer prev buffer)
    ∧ length offs' = length offs
    ∧ (∀ i, i ∉ (kmer <$> groupHeads kmer prev buffer) →
         load offs' i = load offs i)
    ∧ (∀ i cur, i ∈ (kmer <$> groupHeads kmer prev buffer) →
         load offs i = Some cur → load offs' i = Some (wrap64 (cur + 1))).
Proof.
  induction buffer as [|b buffer IH]; intros prev offs ents Hnd Hslots.
  { exists offs. cbn. split; [done|]. split; [done|]. split; [done|].
    intros i cur Hi. by apply elem_of_nil in Hi. }
  cbn [fillWalk groupHeads] in *. destruct (decide (kmer b = prev)) as [->|Hne].
  { rewrite decide_False by (intros Hk; by apply Hk). by apply IH. }
  rewrite decide_True by done.
  rewrite fmap_cons in Hnd. apply list.NoDup_cons in Hnd as [Hb Hnd].
  destruct (Hslots b) as (cur & Hcur & Hrange); [by left|].
  rewrite Hcur. cbn [mbind option_bind].
  pose proof (load_Some_range _ _ _ Hcur) as Hk.
  rewrite !store_Some by done. cbn [mbind option_bind].
  set (offs1 := <[Z.to_nat (kmer b) := wrap64 (cur + 1)]> offs).
  set (ents1 := <[Z.to_nat cur := _]> ents).
  assert (Hst : store offs (kmer b) (wrap64 (cur + 1)) = Some offs1)
    by by apply store_Some.
  assert (Hother : ∀ h, h ∈ groupHeads kmer (kmer b) buffer →
            load offs1 (kmer h) = load offs (kmer h)).
  { intros h Hh. apply (load_store_ne _ _ _ _ _ Hst).
    intros Heq. apply Hb. by apply (list_elem_of_fmap_2' _ _ h). }
  destruct (IH (kmer b) offs1 ents1 Hnd) as (offs' & -> & Hlen & Hout & Hin).
  { intros h Hh. rewrite Hother by done. unfold ents1. rewrite length_insert.
    apply Hslots. by right. }
  assert (Hws : writeOf offs1 <$> groupHeads kmer (kmer b) buffer
                = writeOf offs <$> groupHeads kmer (kmer b) buffer).
  { apply list_fmap_ext. intros j h Hh%list_elem_of_lookup_2.
    unfold writeOf. by rewrite Hother. }
  exists offs'. rewrite Hws, fmap_cons. cbn [mbind option_bind].
  assert (Hwb : writeOf offs b = mkWrite (kmer b) cur (entryOf b))
    by (unfold writeOf; by rewrite Hcur).
  rewrite Hwb. split; [done|].
  split; [by rewrite Hlen; unfold offs1; rewrite length_insert|]. split.
  - intros i [Hik Hi]%not_elem_of_cons. rewrite Hout by done.
    by apply (load_store_ne _ _ _ _ _ Hst).
  - intros i cur' [->|Hi]%elem_of_cons Hcur'.
    + rewrite Hout by done. rewrite (load_store_eq _ _ _ _ Hst). congruence.
    + apply Hin; [done|]. rewrite <- Hcur'.
      apply (load_store_ne _ _ _ _ _ Hst). intros Heq. apply Hb.
      subst i. exact Hi.
Qed.

Lemma filter_key_absent {A} (f : A → Z) (l : list A) i :
  i ∉ (f <$> l) → filter (λ x, f x = i) l = [].
Proof.
  induction l as [|x l IH]; [done|].
  rewrite fmap_cons, not_elem_of_cons. intros [Hx Hl].
  rewrite filter_cons_False by (cbn; congruence). auto.
Qed.

Lemma filter_key_unique {A} (f : A → Z) (l : list A) x :
  NoDup (f <$> l) → x ∈ l → filter (λ y, f y = f x) l = [x].
Proof.
  induction l as [|y l IH]; [by intros _ ?%elem_of_nil|].
  rewrite fmap_cons, list.NoDup_cons. intros [Hy Hnd] [->|Hx]%elem_of_cons.
  - rewrite filter_cons_True by done. f_equal. by apply filter_key_absent.
  - rewrite filter_cons_False; [auto|]. cbn. intros Heq. apply Hy.
    rewrite Heq. by apply list_elem_of_fmap_2.
Qed.

(** The sort and the last loop of the fill pass on a buffer [buffer]. *)
Lemma fillPass_spec (offs : list Z) (ents : list IndexEntryLocal)
    (buffer : list IndexEntryLocalTmp) :
  (∀ b, b ∈ buffer →
     kmer b ≠ UINT_MAX
     ∧ ∃ cur, load offs (kmer b) = Some cur ∧ 0 ≤ cur < Z.of_nat (length ents)) →
  ∃ offs' ws,
    fillWalk (sortBuffer buffer) UINT_MAX offs ents
    = Some (offs', applyWrites ents ws, ws)
    ∧ length offs' = length offs
    ∧ NoDup (w_kmer <$> ws)
    ∧ (∀ w, w ∈ ws →
         ∃ h, h ∈ buffer ∧ w = writeOf offs h
            ∧ ∀ b, b ∈ buffer → kmer b = kmer h →
                tmp_position_j h ≤ tmp_position_j b)
    ∧ (∀ i, i ∈ (w_kmer <$> ws) ↔ i ∈ (kmer <$> buffer))
    ∧ (∀ i, i ∉ (kmer <$> buffer) → load offs' i = load offs i)
    ∧ (∀ i cur, i ∈ (kmer <$> buffer) → load offs i = Some cur →
         load offs' i = Some (wrap64 (cur + 1))).
Proof.
  intros Hbuf.
  pose proof (sortBuffer_Permutation buffer) as Hperm.
  pose proof (sortBuffer_sorted buffer) as Hsorted.
  set (sorted := sortBuffer buffer) in *.
  assert (Hmem : ∀ b, b ∈ sorted ↔ b ∈ buffer) by (intros b; by rewrite Hperm).
  destruct (groupHeads_sorted kmer (notAfter comapreByIdAndPos)) with
    (prev := UINT_MAX) (l := sorted) as (Hnd & Hsub & Hmin & Hcov).
  { intros x y Hxy%notAfter_comapre. lia. }
  { done. }
  { intros (b & Hk & Hb)%list_elem_of_fmap. apply Hmem, Hbuf in Hb as [? _].
    congruence. }
  set (heads := groupHeads kmer UINT_MAX sorted) in *.
  destruct (fillWalk_spec sorted UINT_MAX offs ents Hnd)
    as (offs' & Hwalk & Hlen & Hout & Hin).
  { intros h Hh%Hsub%Hmem. by apply Hbuf. }
  fold heads in Hwalk, Hout, Hin.
  assert (Hkeys : w_kmer <$> (writeOf offs <$> heads) = kmer <$> heads).
  { rewrite <- list_fmap_compose. done. }
  assert (Hsame : ∀ i, i ∈ (kmer <$> heads) ↔ i ∈ (kmer <$> buffer)).
  { intros i. rewrite !list_elem_of_fmap. split.
    - intros (h & -> & Hh). exists h. split; [done|]. by apply Hmem, Hsub.
    - intros (b & -> & Hb%Hmem). by apply list_elem_of_fmap, Hcov. }
  exists offs', (writeOf offs <$> heads). rewrite Hkeys.
  split; [done|]. split; [done|]. split; [done|]. split; [|split; [done|split]].
  - intros w (h & -> & Hh)%list_elem_of_fmap. exists h.
    split; [by apply Hmem, Hsub|]. split; [done|].
    intros b Hb%Hmem Hkey.
    destruct (Hmin h b Hh Hb Hkey) as [Hle%notAfter_comapre | ->]; lia.
  - intros i Hi. apply Hout. by rewrite Hsame.
  - intros i cur Hi. apply Hin. by rewrite Hsame.
Qed.

Lemma elem_of_positionsOf i p occ : p ∈ positionsOf i occ ↔ (i, p) ∈ occ.
Proof.
  unfold positionsOf. rewrite list_elem_of_fmap. split.
  - intros ([i' p'] & -> & [Hi Ho]%list_elem_of_filter). cbn in *. by subst.
  - intros Ho. exists (i, p). split; [done|]. by apply list_elem_of_filter.
Qed.

Lemma eligibleOccurrences_range t idxer aaFrom aaSize threshold diagonalScore s o :
  fitsTable t idxer s →
  o ∈ eligibleOccurrences t idxer aaFrom aaSize threshold diagonalScore s →
  0 ≤ o.1 < tableSize t.
Proof.
  unfold fitsTable, eligibleOccurrences. rewrite list.Forall_forall.
  intros Hfit (w & -> & [_ Hw]%list_elem_of_filter)%list_elem_of_fmap.
  by destruct (Hfit w Hw).
Qed.

Lemma addSequence_run (t : IndexTable) (s : Sequence)
    (idxer : Indexer) (aaFrom aaSize threshold : Z) (diagonalScore : Z → Z) :
  let occ := eligibleOccurrences t idxer aaFrom aaSize threshold
               diagonalScore s in
  tableShape t →
  fitsTable t idxer s →
  0 ≤ aaFrom → 0 ≤ aaSize → aaFrom + aaSize < 2 ^ 64 →
  (∀ i cur, i ∈ occ.*1 → load (offsets t) i = Some cur →
     0 ≤ cur < Z.of_nat (length (entries t))) →
  ∃ offs' ws,
    addSequence t s idxer aaFrom aaSize threshold diagonalScore
    = Some (set_entries (set_offsets t offs') (applyWrites (entries t) ws), ws)
    ∧ length offs' = length (offsets t)
    ∧ NoDup (w_kmer <$> ws)
    ∧ (∀ i, i ∈ (w_kmer <$> ws) ↔ i ∈ occ.*1)
    ∧ (∀ w, w ∈ ws →
         ∃ o, o ∈ occ ∧ w = writeOf (offsets t) (tmpOf (getId s) o)
            ∧ ∀ p, (o.1, p) ∈ occ → wrap16 o.2 ≤ wrap16 p)
    ∧ (∀ i, i ∉ occ.*1 → load offs' i = load (offsets t) i)
    ∧ (∀ i cur, i ∈ occ.*1 → load (offsets t) i = Some cur →
         load offs' i = Some (wrap64 (cur + 1))).
Proof.
  intros occ Hshape Hfit HaF HaS Hwin Hslots.
  unfold addSequence. rewrite fillScan_eligible by done.
  cbn [mbind option_bind]. fold occ.
  assert (Hocc : ∀ o, o ∈ occ → 0 ≤ o.1 < tableSize t)
    by (intros o; by apply eligibleOccurrences_range).
  assert (Hkmers : kmer <$> (tmpOf (getId s) <$> occ) = occ.*1)
    by by rewrite <- list_fmap_compose.
  destruct (fillPass_spec (offsets t) (entries t) (tmpOf (getId s) <$> occ))
    as (offs' & ws & -> & Hlen & Hnd & Hws & Hkeys & Hout & Hin).
  { intros b (o & -> & Ho)%list_elem_of_fmap. cbn. split.
    - destruct Hshape as [Hsize _]. specialize (Hocc o Ho). lia.
    - destruct Hshape as [_ Hcells].
      destruct (load_is_Some (offsets t) o.1) as [cur Hcur];
        [specialize (Hocc o Ho); lia|].
      exists cur. split; [done|]. apply (Hslots o.1); [|done].
      by apply list_elem_of_fmap_2. }
  rewrite Hkmers in Hkeys, Hout, Hin.
  cbn. exists offs', ws. split; [done|]. split; [done|]. split; [done|].
  split; [done|]. split; [|done].
  intros w Hw.
  destruct (Hws w Hw) as (h & (o & -> & Ho)%list_elem_of_fmap & -> & Hmin).
  exists o. split; [done|]. split; [done|]. intros p Hp.
  apply (Hmin (tmpOf (getId s) (o.1, p))); [|done].
  by apply list_elem_of_fmap_2.
Qed.

Lemma wrap16_small z : 0 ≤ z < 2 ^ 16 → wrap16 z = z.
Proof. apply Z.mod_small. Qed.

Lemma wrap32_small z : 0 ≤ z < 2 ^ 32 → wrap32 z = z.
Proof. apply Z.mod_small. Qed.

Lemma fmap_wrap16_storable (l : list Z) :
  Forall (λ p, 0 ≤ p < 2 ^ 16) l → wrap16 <$> l = l.
Proof.
  induction 1 as [|p l Hp _ IH]; [done|].
  by rewrite fmap_cons, IH, wrap16_small.
Qed.

Lemma storable_positions t idxer aaFrom aaSize threshold diagonalScore s i :
  storable s →
  Forall (λ p, 0 ≤ p < 2 ^ 16)
    (positionsOf i (eligibleOccurrences t idxer aaFrom aaSize threshold
                      diagonalScore s)).
Proof.
  intros [_ Hpos]. rewrite list.Forall_forall in Hpos.
  apply list.Forall_forall. intros p Hp%elem_of_positionsOf.
  unfold eligibleOccurrences in Hp.
  apply list_elem_of_fmap in Hp as (w & [= _ ->] & [_ Hw]%list_elem_of_filter).
  by apply Hpos.
Qed.

(** C1. [addSequence] with window [[aaFrom, aaFrom + aaSize)] stores, for
    every k-mer index that has an eligible occurrence (in the window, bucket
    not of zero length, score kept), exactly one posting: at the slot that
    the cursor [offsets[kmer]] held, with the id of the sequence, as the
    [unsigned int] the posting holds, and the least of the positions of
    these occurrences, as the [unsigned short]s the buffer holds; that
    cursor is then one more, in [size_t].  When the id and the positions of
    the sequence are values of these two types, the posting holds the id
    itself and the least position.  For every other index nothing is stored
    and the cursor stays.  The new [entries] array is the old one with
    these postings stored. *)
Theorem addSequence_first_occurrences (t : IndexTable) (s : Sequence)
    (idxer : Indexer) (aaFrom aaSize threshold : Z) (diagonalScore : Z → Z) :
  tableShape t →
  fitsTable t idxer s →
  0 ≤ aaFrom → 0 ≤ aaSize → aaFrom + aaSize < 2 ^ 64 →
  (∀ i cur,
     i ∈ (eligibleOccurrences t idxer aaFrom aaSize threshold diagonalScore s).*1 →
     load (offsets t) i = Some cur →
     0 ≤ cur < Z.of_nat (length (entries t))) →
  ∃ t' ws,
    addSequence t s idxer aaFrom aaSize threshold diagonalScore = Some (t', ws)
    ∧ entries t' = applyWrites (entries t) ws
    ∧ ∀ i,
        let positions :=
          positionsOf i (eligibleOccurrences t idxer aaFrom aaSize threshold
                           diagonalScore s) in
        (positions = [] →
           writesFor i ws = [] ∧ load (offsets t') i = load (offsets t) i)
        ∧ (positions ≠ [] →
           ∃ cur m,
             load (offsets t) i = Some cur
             ∧ isLeast m (wrap16 <$> positions)
             ∧ writesFor i ws
               = [mkWrite i cur (mkIndexEntryLocal (wrap32 (getId s)) m)]
             ∧ load (offsets t') i = Some (wrap64 (cur + 1))
             ∧ (cur < SIZE_MAX → wrap64 (cur + 1) = cur + 1)
             ∧ (storable s →
                wrap32 (getId s) = getId s ∧ isLeast m positions)).
Proof.
  intros Hshape Hfit HaF HaS Hwin Hslots.
  destruct (addSequence_run t s idxer aaFrom aaSize threshold diagonalScore)
    as (offs' & ws & Hrun & _ & Hnd & Hkeys & Hws & Hout & Hin); try done.
  set (occ := eligibleOccurrences t idxer aaFrom aaSize threshold
                diagonalScore s) in *.
  eexists _, ws. split; [exact Hrun|]. split; [done|]. cbn.
  assert (Hpos : ∀ i, i ∈ occ.*1 ↔ ∃ p, p ∈ positionsOf i occ).
  { intros i. setoid_rewrite elem_of_positionsOf.
    rewrite list_elem_of_fmap. split.
    - intros ([i' p] & -> & Ho). by exists p.
    - intros [p Ho]. by exists (i, p). }
  intros i. split.
  - intros Hnil. assert (Hi : i ∉ occ.*1).
    { rewrite Hpos, Hnil. intros [p Hp]. by apply elem_of_nil in Hp. }
    split; [|by apply Hout].
    apply filter_key_absent. by rewrite Hkeys.
  - intros Hne.
    assert (Hi : i ∈ occ.*1).
    { apply Hpos. destruct (positionsOf i occ) as [|p ps]; [done|].
      exists p. by left. }
    pose proof Hi as (w & Hwi & Hw)%Hkeys%list_elem_of_fmap.
    destruct (Hws w Hw) as (o & Ho & -> & Hmin).
    cbn in Hwi. subst i.
    destruct (load_is_Some (offsets t) o.1) as [cur Hcur].
    { destruct Hshape as [_ Hcells].
      pose proof (eligibleOccurrences_range _ _ _ _ _ _ _ _ Hfit Ho). lia. }
    pose proof (Hslots o.1 cur Hi Hcur) as Hrange.
    assert (Hleast : isLeast (wrap16 o.2) (wrap16 <$> positionsOf o.1 occ)).
    { split.
      - apply list_elem_of_fmap_2, elem_of_positionsOf. by destruct o.
      - intros x (p & -> & Hp%elem_of_positionsOf)%list_elem_of_fmap.
        by apply Hmin. }
    exists cur, (wrap16 o.2).
    split; [done|]. split; [done|]. split; [|split; [|split]].
    + unfold writesFor.
      change o.1 with (w_kmer (writeOf (offsets t) (tmpOf (getId s) o))).
      rewrite filter_key_unique by done.
      unfold writeOf. cbn. by rewrite Hcur.
    + by apply Hin.
    + intros Hsmall. apply wrap64_small. unfold SIZE_MAX in Hsmall. lia.
    + intros Hstorable. split; [apply wrap32_small, Hstorable|].
      rewrite <- (fmap_wrap16_storable (positionsOf o.1 occ)); [done|].
      by apply storable_positions.
Qed.

(** Scenario S1 of the specification: the sequence 0,1,0,1 into the table
    that [init] produces from the counts of 0,1,2,3 and 0,1,0,1. *)
Lemma addSequence_first_occurrences_witness :
  ∃ t', addSequence
          (mkIndexTable 16 4 2 false (replicate 5 (mkIndexEntryLocal 0 0))
             [0; 0; 2; 2; 2; 3; 3; 4; 4; 4; 4; 4; 5; 5; 5; 5; 5])
          (sequence2 1 [0; 1; 0; 1]) indexer4 0 16 0 (λ _, 0)
        = Some (t', [mkWrite 1 0 (mkIndexEntryLocal 1 0);
                     mkWrite 4 2 (mkIndexEntryLocal 1 1)]).
Proof.
  destruct (addSequence_first_occurrences
              (mkIndexTable 16 4 2 false (replicate 5 (mkIndexEntryLocal 0 0))
                 [0; 0; 2; 2; 2; 3; 3; 4; 4; 4; 4; 4; 5; 5; 5; 5; 5])
              (sequence2 1 [0; 1; 0; 1]) indexer4 0 16 0 (λ _, 0))
    as (t' & ws & Hrun & _).
  - split; [cbn; unfold UINT_MAX; lia | reflexivity].
  - unfold fitsTable. cbn. repeat constructor; by vm_compute.
  - lia.
  - lia.
  - lia.
  - intros i cur Hi. vm_compute in Hi.
    repeat (apply elem_of_cons in Hi as [->|Hi]; [intros [= <-]; cbn; lia|]).
    by apply elem_of_nil in Hi.
  - vm_compute in Hrun. injection Hrun as <- <-. eexists. reflexivity.
Defined.

(** Positions beyond [unsigned short]: the k-mer (0,3), index 3, of the
    sequence 3 occurs at the positions 65535 and 65536; the buffer holds
    them as 65535 and 0, and the posting stored has position 0. *)
Example position_beyond_unsigned_short :
  ∃ t',
    addSequence
      (mkIndexTable 16 4 2 false [mkIndexEntryLocal 9 9]
         [0; 0; 0; 0; 1; 1; 1; 1; 1; 1; 1; 1; 1; 1; 1; 1; 1])
      (mkSequence 3 [([0; 3], 65535); ([0; 3], 65536)])
      indexer4 0 16 0 (λ _, 0)
    = Some (t', [mkWrite 3 0 (mkIndexEntryLocal 3 0)])
    ∧ entries t' = [mkIndexEntryLocal 3 0].
Proof. eexists. split; [vm_compute; reflexivity | reflexivity]. Qed.

(** ** The build: count, prefix sum, fill *)

Lemma filter_iff_Forall {A} (P Q : A → Prop)
    `{!∀ x, Decision (P x), !∀ x, Decision (Q x)} (l : list A) :
  Forall (λ x, P x ↔ Q x) l → filter P l = filter Q l.
Proof.
  induction 1 as [|x l Hx _ IH]; [done|].
  destruct (decide (P x)) as [HP|HP].
  - rewrite !filter_cons_True by tauto. by rewrite IH.
  - rewrite !filter_cons_False by tauto. done.
Qed.

Lemma applyWrites_length ws : ∀ ents, length (applyWrites ents ws) = length ents.
Proof.
  induction ws as [|w ws IH]; intros ents; [done|].
  cbn. unfold applyWrites in IH. by rewrite IH, length_insert.
Qed.

Lemma loads_determine (l : list Z) (n : Z) (f : Z → Z) (z : Z) :
  0 ≤ n →
  Z.of_nat (length l) = n + 1 →
  (∀ i, 0 ≤ i < n → load l i = Some (f i)) →
  load l n = Some z →
  l = (f <$> seqZ 0 n) ++ [z].
Proof.
  intros Hn Hlen Hcells Hlast. apply list_eq. intros j.
  destruct (decide (Z.of_nat j < n)) as [Hj|Hj].
  - rewrite lookup_app_l by (rewrite length_fmap, length_seqZ; lia).
    rewrite list_lookup_fmap, lookup_seqZ_lt by done. cbn.
    rewrite <- load_lookup. apply Hcells. lia.
  - rewrite lookup_app_r by (rewrite length_fmap, length_seqZ; lia).
    rewrite length_fmap, length_seqZ.
    destruct (decide (Z.of_nat j = n)) as [Hjn|Hjn].
    + replace (j - Z.to_nat n)%nat with 0%nat by lia. cbn.
      rewrite <- load_lookup, Hjn. done.
    + rewrite lookup_ge_None_2 by lia.
      replace (j - Z.to_nat n)%nat with (S (j - Z.to_nat n - 1)) by lia.
      done.
Qed.

Section build.
Context (t : IndexTable) (idxer : Indexer).
Context (threshold : Z) (diagonalScore : Z → Z).
Hypothesis Hsize : 0 ≤ tableSize t ≤ UINT_MAX.

Local Abbreviation keptOf := (keptIndices t idxer threshold diagonalScore).
Local Abbreviation cnt := (bucketCount t idxer threshold diagonalScore).
Local Abbreviation distinct s :=
  (Z.of_nat (length (remove_dups (keptIndices t idxer threshold
                                    diagonalScore s)))).

Lemma bucketCount_cons s db i :
  cnt (s :: db) i = (if decide (i ∈ keptOf s) then 1 else 0) + cnt db i.
Proof.
  unfold bucketCount. case_decide.
  - rewrite filter_cons_True by done. cbn [length]. lia.
  - rewrite filter_cons_False by done. lia.
Qed.

Lemma bucketCount_app db1 db2 i : cnt (db1 ++ db2) i = cnt db1 i + cnt db2 i.
Proof. unfold bucketCount. rewrite list.filter_app, length_app. lia. Qed.

Lemma bucketCount_nonneg db i : 0 ≤ cnt db i.
Proof. unfold bucketCount. lia. Qed.

Lemma bucketCount_snoc db s i :
  cnt (db ++ [s]) i = cnt db i + (if decide (i ∈ keptOf s) then 1 else 0).
Proof.
  rewrite bucketCount_app, bucketCount_cons. unfold bucketCount.
  rewrite filter_nil. cbn [length]. lia.
Qed.

Lemma countAll_spec rest : ∀ seen offs ents,
  Z.of_nat (length offs) = tableSize t + 1 →
  Forall (fitsTable t idxer) rest →
  (∀ i, 0 ≤ i < tableSize t → load offs i = Some (cnt seen i)) →
  load offs (tableSize t) = Some 0 →
  (∀ i, 0 ≤ i < tableSize t → cnt (seen ++ rest) i < 2 ^ 64) →
  ∃ offs',
    countAll (withArrays t offs ents) rest idxer threshold diagonalScore
    = Some (withArrays t offs' ents, (λ s, distinct s) <$> rest)
    ∧ Z.of_nat (length offs') = tableSize t + 1
    ∧ (∀ i, 0 ≤ i < tableSize t → load offs' i = Some (cnt (seen ++ rest) i))
    ∧ load offs' (tableSize t) = Some 0.
Proof.
  induction rest as [|s rest IH]; intros seen offs ents Hlen Hfit Hcells Hlast Hbound.
  { exists offs. rewrite app_nil_r. done. }
  apply Forall_cons_1 in Hfit as [Hs Hfit].
  destruct (addKmerCount_run (withArrays t offs ents) s idxer threshold
              diagonalScore) as (offs1 & Hrun & Hlen1 & Hin & Hout);
    [done | done |].
  change (keptIndices (withArrays t offs ents) idxer threshold
            diagonalScore s) with (keptOf s) in *.
  change (offsets (withArrays t offs ents)) with offs in *.
  change (set_offsets (withArrays t offs ents) offs1)
    with (withArrays t offs1 ents) in Hrun.
  pose proof (fitsTable_keptIndices t idxer threshold diagonalScore s Hs)
    as Hrange. rewrite list.Forall_forall in Hrange.
  destruct (IH (seen ++ [s]) offs1 ents) as (offs' & Hrest & Hlen' & Hcells' & Hlast').
  - lia.
  - done.
  - intros i Hi. rewrite bucketCount_snoc. case_decide as Hk.
    + destruct (Hin i Hk) as (v & Hv & ->). rewrite Hcells in Hv by done.
      injection Hv as <-. f_equal. apply wrap64_small.
      specialize (Hbound i Hi).
      rewrite bucketCount_app, bucketCount_cons, decide_True in Hbound by done.
      pose proof (bucketCount_nonneg seen i).
      pose proof (bucketCount_nonneg rest i). lia.
    + rewrite Hout, Hcells by done. f_equal. lia.
  - rewrite Hout; [done|]. intros Hk%Hrange. lia.
  - intros i Hi. rewrite <- (assoc_L (++)). by apply Hbound.
  - exists offs'. cbn [countAll]. rewrite Hrun. cbn [mbind option_bind].
    rewrite Hrest. cbn. rewrite <- (assoc_L (++)) in Hcells'. done.
Qed.

(** *** The fill pass, for the database [db] *)

Context (db : list Sequence).
Hypothesis Htotal : totalPostings t idxer threshold diagonalScore db < 2 ^ 64.

Local Abbreviation counts := (bucketCounts t idxer threshold diagonalScore db).
Local Abbreviation total := (totalPostings t idxer threshold diagonalScore db).
Local Abbreviation start i := (sumZ (take (Z.to_nat i) counts)).

Lemma bucketCounts_length : length counts = Z.to_nat (tableSize t).
Proof. unfold bucketCounts. by rewrite length_fmap, length_seqZ. Qed.

Lemma bucketCounts_nonneg : Forall (λ c, 0 ≤ c) counts.
Proof.
  unfold bucketCounts. apply Forall_fmap, list.Forall_forall.
  intros i _. apply bucketCount_nonneg.
Qed.

Lemma bucketCounts_lookup i :
  0 ≤ i < tableSize t → counts !! Z.to_nat i = Some (cnt db i).
Proof.
  intros Hi. unfold bucketCounts.
  rewrite list_lookup_fmap, lookup_seqZ_lt by lia. cbn. do 2 f_equal. lia.
Qed.

Lemma start_succ i : 0 ≤ i < tableSize t → start (i + 1) = start i + cnt db i.
Proof.
  intros Hi. replace (Z.to_nat (i + 1)) with (S (Z.to_nat i)) by lia.
  rewrite (take_S_r _ _ (cnt db i)) by by apply bucketCounts_lookup.
  rewrite sumZ_app, sumZ_cons. change (sumZ []) with 0. lia.
Qed.

Lemma start_bounds i : 0 ≤ start i ≤ total.
Proof.
  split.
  - apply sumZ_nonneg, Forall_take, bucketCounts_nonneg.
  - apply sumZ_take_le, bucketCounts_nonneg.
Qed.

Lemma start_last : start (tableSize t) = total.
Proof. by rewrite <- bucketCounts_length, firstn_all. Qed.

Local Abbreviation cursorsAfter :=
  (cursorsAt t idxer threshold diagonalScore db).

Lemma cursor_bounds seen rest offs j :
  db = seen ++ rest → cursorsAfter seen offs → 0 ≤ j ≤ tableSize t →
  ∃ c, load offs j = Some c ∧ start j ≤ c ≤ total.
Proof.
  intros Hdb (Hlen & Hcells & Hlast) Hj.
  destruct (decide (j = tableSize t)) as [->|Hne].
  - exists total. split; [done|]. rewrite start_last. lia.
  - exists (start j + cnt seen j). split; [apply Hcells; lia|].
    pose proof (bucketCount_nonneg seen j).
    pose proof (bucketCount_nonneg rest j).
    pose proof (start_succ j ltac:(lia)) as Hsucc.
    pose proof (start_bounds (j + 1)).
    assert (cnt db j = cnt seen j + cnt rest j)
      by (rewrite Hdb; apply bucketCount_app).
    lia.
Qed.

Lemma kept_not_masked seen s rest offs i :
  db = seen ++ s :: rest → cursorsAfter seen offs →
  0 ≤ i < tableSize t → i ∈ keptOf s →
  ¬ masked offs i.
Proof.
  intros Hdb Hcur Hi Hk. unfold masked, bucketLength.
  destruct (cursor_bounds seen (s :: rest) offs (i + 1) Hdb Hcur)
    as (hi & -> & Hhi); [lia|].
  destruct Hcur as (_ & Hcells & _). rewrite Hcells by done. cbn.
  pose proof (start_succ i Hi) as Hsucc.
  assert (cnt db i = cnt seen i + (1 + cnt rest i)).
  { rewrite Hdb, bucketCount_app, bucketCount_cons, decide_True by done.
    done. }
  pose proof (bucketCount_nonneg seen i).
  pose proof (bucketCount_nonneg rest i).
  pose proof (start_bounds i).
  rewrite wrap64_small by lia. intros [=]. lia.
Qed.

Lemma eligible_full_window seen s rest offs ents :
  db = seen ++ s :: rest → cursorsAfter seen offs → fitsTable t idxer s →
  eligibleOccurrences (withArrays t offs ents) idxer 0 (tableSize t)
    threshold diagonalScore s
  = (λ w, (int2index idxer w.1 0 (kmerSize t), w.2))
      <$> filter (λ w, kept threshold diagonalScore w.1) (kmerStream s).
Proof.
  intros Hdb Hcur Hfit. unfold eligibleOccurrences.
  change (kmerSize (withArrays t offs ents)) with (kmerSize t).
  f_equal. apply filter_iff_Forall, list.Forall_forall.
  intros w Hw. unfold eligible.
  change (kmerSize (withArrays t offs ents)) with (kmerSize t).
  change (offsets (withArrays t offs ents)) with offs.
  unfold fitsTable in Hfit. rewrite list.Forall_forall in Hfit.
  destruct (Hfit w Hw) as [_ Hrange].
  split; [tauto|]. intros Hk. split; [lia|]. split; [|done].
  apply (kept_not_masked seen s rest); [done..|].
  unfold keptIndices. apply list_elem_of_fmap. exists w.
  split; [done|]. by apply list_elem_of_filter.
Qed.

Lemma fillAll_spec rest : ∀ seen offs ents,
  db = seen ++ rest →
  Forall (fitsTable t idxer) rest →
  cursorsAfter seen offs →
  total ≤ Z.of_nat (length ents) →
  ∃ t' wss,
    fillAll (withArrays t offs ents) rest idxer 0 (tableSize t)
      threshold diagonalScore = Some (t', wss)
    ∧ Forall2 (λ s ws, distinct s = Z.of_nat (length ws)) rest wss.
Proof.
  induction rest as [|s rest IH]; intros seen offs ents Hdb Hfit Hcur Hents.
  { exists (withArrays t offs ents), []. split; [done | constructor]. }
  apply Forall_cons_1 in Hfit as [Hs Hfit].
  pose proof (eligible_full_window seen s rest offs ents Hdb Hcur Hs) as Hocc.
  assert (Hidx : (eligibleOccurrences (withArrays t offs ents) idxer 0
                    (tableSize t) threshold diagonalScore s).*1 = keptOf s).
  { rewrite Hocc. unfold keptIndices. by rewrite <- list_fmap_compose. }
  pose proof (fitsTable_keptIndices t idxer threshold diagonalScore s Hs)
    as Hrange. rewrite list.Forall_forall in Hrange.
  pose proof Hcur as (Hlen & Hcells & Hlast).
  assert (Hslot : ∀ i cur, i ∈ keptOf s → load offs i = Some cur →
            0 ≤ cur ∧ cur + 1 ≤ start (i + 1)).
  { intros i cur Hk Hload. specialize (Hrange i Hk).
    rewrite Hcells in Hload by done. injection Hload as <-.
    pose proof (start_succ i Hrange) as Hsucc.
    assert (cnt db i = cnt seen i + (1 + cnt rest i)).
    { rewrite Hdb, bucketCount_app, bucketCount_cons, decide_True by done.
      done. }
    pose proof (bucketCount_nonneg seen i).
    pose proof (bucketCount_nonneg rest i).
    pose proof (start_bounds i). lia. }
  destruct (addSequence_run (withArrays t offs ents) s idxer 0 (tableSize t)
              threshold diagonalScore)
    as (offs1 & ws & Hrun & Hlen1 & Hnd & Hkeys & _ & Hout & Hin).
  { done. }
  { done. }
  { lia. }
  { lia. }
  { unfold UINT_MAX in Hsize. lia. }
  { rewrite Hidx. intros i cur Hk Hload.
    destruct (Hslot i cur Hk Hload) as [? ?].
    pose proof (start_bounds (i + 1)).
    change (entries (withArrays t offs ents)) with ents. lia. }
  rewrite Hidx in Hkeys, Hout, Hin.
  change (offsets (withArrays t offs ents)) with offs in *.
  change (entries (withArrays t offs ents)) with ents in *.
  change (set_entries (set_offsets (withArrays t offs ents) offs1)
            (applyWrites ents ws))
    with (withArrays t offs1 (applyWrites ents ws)) in Hrun.
  destruct (IH (seen ++ [s]) offs1 (applyWrites ents ws))
    as (t' & wss & Hrest & Hpar).
  - by rewrite <- (assoc_L (++)).
  - done.
  - split; [lia|]. split.
    + intros i Hi. rewrite bucketCount_snoc. case_decide as Hk.
      * destruct (load_is_Some offs i) as [cur Hload]; [lia|].
        rewrite (Hin i cur Hk Hload).
        destruct (Hslot i cur Hk Hload) as [? ?].
        pose proof (start_bounds (i + 1)).
        rewrite wrap64_small by lia.
        rewrite Hcells in Hload by done. injection Hload as <-.
        f_equal. lia.
      * rewrite Hout, Hcells by done. f_equal. lia.
    + rewrite Hout; [done|]. intros Hk%Hrange. lia.
  - by rewrite applyWrites_length.
  - exists t', (ws :: wss). cbn [fillAll]. rewrite Hrun.
    cbn [mbind option_bind]. rewrite Hrest. split; [done|].
    constructor; [|done].
    rewrite <- (length_fmap w_kmer ws). f_equal.
    apply Permutation_length, NoDup_Permutation;
      [apply NoDup_remove_dups | done |].
    intros i. by rewrite elem_of_remove_dups, Hkeys.
Qed.
End build.

(** ** Masked buckets across calls *)

(** C6, at the failing input.  Bucket 1 has length zero before the fill
    pass.  The sequence 0,2 is filled first and advances the cursor of
    bucket 2; the masked-region test of the next call then reads a non-zero
    difference for bucket 1, so [addSequence] stores a posting for the
    k-mer of index 1, in the slot of bucket 2.  After [revertPointer] the
    lookup of bucket 1 has length 1 and that of bucket 2 length 0. *)
Lemma mask_lost_after_neighbour_filled :
  masked (offsets maskedTable) 1
  ∧ ∃ filled rewound,
      fillAll maskedTable [sequence2 0 [0; 2]; sequence2 1 [0; 1]]
        indexer4 0 16 0 (λ _, 0)
      = Some (filled, [[mkWrite 2 0 (mkIndexEntryLocal 0 0)];
                       [mkWrite 1 0 (mkIndexEntryLocal 1 0)]])
      ∧ entries filled = [mkIndexEntryLocal 1 0]
      ∧ revertPointer filled = Some rewound
      ∧ getDBSeqList rewound 1 = Some (0, 1)
      ∧ getDBSeqList rewound 2 = Some (1, 0).
Proof.
  split; [reflexivity|]. do 2 eexists.
  split; [vm_compute; reflexivity|].
  split; [reflexivity|]. split; [vm_compute; reflexivity|].
  split; reflexivity.
Qed.

(** ** Neighbourhood variants *)

(** C10. The neighbourhood variants never read their [threshold] and
    [diagonalScore] arguments: for any two choices of them
    [addSimilarKmerCount] leaves the same table and returns the same count,
    and [addSimilarSequence] leaves the same table and stores the same
    postings. *)
Theorem similar_variants_ignore_filter (t : IndexTable) (s : Sequence)
    (kmerGenerator : KmerGenerator) (idxer : Indexer)
    (aaFrom aaSize threshold1 threshold2 : Z)
    (diagonalScore1 diagonalScore2 : Z → Z) :
  addSimilarKmerCount t s kmerGenerator idxer threshold1 diagonalScore1
  = addSimilarKmerCount t s kmerGenerator idxer threshold2 diagonalScore2
  ∧ addSimilarSequence t s kmerGenerator idxer aaFrom aaSize
      threshold1 diagonalScore1
    = addSimilarSequence t s kmerGenerator idxer aaFrom aaSize
        threshold2 diagonalScore2.
Proof. split; reflexivity. Qed.

(** ** Construction *)

(** C9, at the failing input.  The constructor reaches [memset] before
    [Util::checkAllocation]: when [new(std::nothrow)] returns the null
    pointer the zeroes are written through it, and no call of the
    constructor ends in the error branch of the allocation check. *)
Theorem constructor_memset_before_check
    (operator_new : Z → option (list Z)) (A k : Z) :
  newIndexTable operator_new A k false ≠ AllocFailed
  ∧ (operator_new (wrap64 (ipow A k + 1)) = None →
     newIndexTable operator_new A k false = InvalidWrite).
Proof.
  unfold newIndexTable. split.
  - destruct (operator_new (wrap64 (ipow A k + 1))) as [a|]; [|done].
    cbn. case_decide; done.
  - intros Hnull. by rewrite Hnull.
Qed.

(** Protein alphabet with 7-mers, no memory left. *)
Lemma constructor_memset_before_check_witness :
  newIndexTable (λ _, None) 21 7 false = InvalidWrite.
Proof.
  apply (constructor_memset_before_check (λ _, None) 21 7). reflexivity.
Defined.

Lemma constructor_zeroed (operator_new : Z → option (list Z)) A k a :
  operator_new (wrap64 (ipow A k + 1)) = Some a →
  Z.of_nat (length a) = ipow A k + 1 →
  (ipow A k + 1) * 8 < 2 ^ 64 →
  newIndexTable operator_new A k false
  = Constructed (mkIndexTable (ipow A k) A k false []
                   (replicate (Z.to_nat (ipow A k + 1)) 0)).
Proof.
  intros Hnew Hlen Hfit. unfold newIndexTable. rewrite Hnew.
  assert (0 ≤ ipow A k) by (unfold ipow, wrap64; apply Z.mod_pos_bound; lia).
  rewrite (wrap64_small (ipow A k + 1)) by lia.
  rewrite wrap64_small by lia. unfold memset0. cbn [mbind option_bind].
  rewrite decide_True by lia. cbn [checkAllocation].
  replace ((ipow A k + 1) * 8 / 8) with (ipow A k + 1)
    by (rewrite Z.div_mul; lia).
  rewrite drop_ge, app_nil_r by lia. done.
Qed.

(** ** Workers on different buckets *)

(** A step of a worker on arrays that nobody else has touched at its
    cursor and its slot. *)
Lemma workerStep_progress (b : IndexEntryLocalTmp) (cur : Z) (w : Worker)
    (offs : list Z) (ents : list IndexEntryLocal) :
  progressed b cur w →
  load offs (kmer b) = Some cur →
  0 ≤ cur < Z.of_nat (length ents) →
  ∃ w',
    workerStep (offsetsAfter b cur w offs) (entriesAfter b cur w ents) w
    = Some (offsetsAfter b cur w' offs, entriesAfter b cur w' ents, w')
    ∧ progressed b cur w'.
Proof.
  intros (Hb & Hslot & Hcur) Hload Hrange.
  pose proof (load_Some_range _ _ _ Hload) as Hk.
  destruct w as [p b' slot c]. cbn in Hb, Hslot, Hcur. subst b'.
  unfold workerStep, offsetsAfter, entriesAfter, progressed.
  destruct p; cbn -[load store decide];
    rewrite ?decide_False, ?decide_True by done.
  - rewrite Hload. exists (mkWorker StorePosting b cur c).
    cbn -[decide]. rewrite decide_False by done.
    split; [done|]. split; [done|]. split; [done|]. by intros [|].
  - assert (slot = cur) as -> by auto. rewrite store_Some by done.
    exists (mkWorker ReadCursor b cur c).
    cbn -[decide]. rewrite decide_False by done.
    split; [done|]. split; [done|]. split; [done|]. by intros [|].
  - assert (slot = cur) as -> by auto. rewrite Hload.
    exists (mkWorker StoreCursor b cur cur).
    cbn -[decide]. rewrite decide_False by done. done.
  - assert (slot = cur) as -> by auto. assert (c = cur) as -> by auto.
    rewrite store_Some by done.
    exists (mkWorker Finished b cur cur).
    cbn -[decide]. rewrite decide_True by done. done.
  - assert (slot = cur) as -> by auto. assert (c = cur) as -> by auto.
    exists (mkWorker Finished b cur cur).
    cbn -[decide]. rewrite decide_True by done. done.
Qed.

Lemma offsetsAfter_comm b0 b1 cur0 cur1 w0 w1 (offs : list Z) :
  0 ≤ kmer b0 → 0 ≤ kmer b1 → kmer b0 ≠ kmer b1 →
  offsetsAfter b1 cur1 w1 (offsetsAfter b0 cur0 w0 offs)
  = offsetsAfter b0 cur0 w0 (offsetsAfter b1 cur1 w1 offs).
Proof.
  intros. unfold offsetsAfter. repeat case_decide; try done.
  apply list_insert_insert_ne. lia.
Qed.

Lemma entriesAfter_comm b0 b1 cur0 cur1 w0 w1 (ents : list IndexEntryLocal) :
  0 ≤ cur0 → 0 ≤ cur1 → cur0 ≠ cur1 →
  entriesAfter b1 cur1 w1 (entriesAfter b0 cur0 w0 ents)
  = entriesAfter b0 cur0 w0 (entriesAfter b1 cur1 w1 ents).
Proof.
  intros. unfold entriesAfter.
  destruct (postingStored (pc w0)), (postingStored (pc w1)); try done.
  apply list_insert_insert_ne. lia.
Qed.

Lemma offsetsAfter_load b cur w (offs : list Z) i :
  0 ≤ kmer b → kmer b ≠ i → load (offsetsAfter b cur w offs) i = load offs i.
Proof.
  intros Hk Hne. unfold offsetsAfter, load. case_decide; [|done].
  case_decide; [|done]. apply list_lookup_insert_ne. lia.
Qed.

Lemma entriesAfter_length b cur w (ents : list IndexEntryLocal) :
  length (entriesAfter b cur w ents) = length ents.
Proof.
  unfold entriesAfter. destruct (postingStored _); [|done].
  apply length_insert.
Qed.

(** Two workers whose k-mers and slots differ: whatever the schedule, each
    has done to the arrays exactly what it would have done alone. *)
Lemma interleave_disjoint schedule : ∀ b0 b1 cur0 cur1 offs ents w0 w1,
  kmer b0 ≠ kmer b1 → cur0 ≠ cur1 →
  load offs (kmer b0) = Some cur0 → load offs (kmer b1) = Some cur1 →
  0 ≤ cur0 < Z.of_nat (length ents) → 0 ≤ cur1 < Z.of_nat (length ents) →
  progressed b0 cur0 w0 → progressed b1 cur1 w1 →
  ∃ w0' w1',
    interleave schedule
      (offsetsAfter b1 cur1 w1 (offsetsAfter b0 cur0 w0 offs))
      (entriesAfter b1 cur1 w1 (entriesAfter b0 cur0 w0 ents)) w0 w1
    = Some (offsetsAfter b1 cur1 w1' (offsetsAfter b0 cur0 w0' offs),
            entriesAfter b1 cur1 w1' (entriesAfter b0 cur0 w0' ents),
            w0', w1')
    ∧ progressed b0 cur0 w0' ∧ progressed b1 cur1 w1'.
Proof.
  induction schedule as [|who schedule IH];
    intros b0 b1 cur0 cur1 offs ents w0 w1 Hk Hc Hl0 Hl1 Hr0 Hr1 Hp0 Hp1.
  { by exists w0, w1. }
  pose proof (load_Some_range _ _ _ Hl0) as Hk0.
  pose proof (load_Some_range _ _ _ Hl1) as Hk1.
  cbn [interleave]. destruct who.
  - (* the second worker moves *)
    destruct (workerStep_progress b1 cur1 w1
                (offsetsAfter b0 cur0 w0 offs) (entriesAfter b0 cur0 w0 ents))
      as (w1' & -> & Hp1'); [done | | |].
    { rewrite offsetsAfter_load by lia. done. }
    { by rewrite entriesAfter_length. }
    cbn [mbind option_bind]. by apply IH.
  - (* the first worker moves *)
    rewrite (offsetsAfter_comm b0 b1), (entriesAfter_comm b0 b1) by lia.
    destruct (workerStep_progress b0 cur0 w0
                (offsetsAfter b1 cur1 w1 offs) (entriesAfter b1 cur1 w1 ents))
      as (w0' & -> & Hp0'); [done | | |].
    { rewrite offsetsAfter_load by lia. done. }
    { by rewrite entriesAfter_length. }
    cbn [mbind option_bind].
    rewrite <- (offsetsAfter_comm b0 b1), <- (entriesAfter_comm b0 b1) by lia.
    by apply IH.
Qed.

(** Hence, when both have finished, the arrays are those of the two
    advances performed one after the other, and each worker has used the
    slot its own cursor held. *)
Lemma disjoint_advances_independent schedule b0 b1 cur0 cur1 offs ents
    offs' ents' w0 w1 :
  kmer b0 ≠ kmer b1 → cur0 ≠ cur1 →
  load offs (kmer b0) = Some cur0 → load offs (kmer b1) = Some cur1 →
  0 ≤ cur0 < Z.of_nat (length ents) → 0 ≤ cur1 < Z.of_nat (length ents) →
  interleave schedule offs ents (startWorker b0) (startWorker b1)
  = Some (offs', ents', w0, w1) →
  pc w0 = Finished → pc w1 = Finished →
  offs' = <[Z.to_nat (kmer b1) := wrap64 (cur1 + 1)]>
            (<[Z.to_nat (kmer b0) := wrap64 (cur0 + 1)]> offs)
  ∧ ents' = <[Z.to_nat cur1 := entryOf b1]> (<[Z.to_nat cur0 := entryOf b0]> ents)
  ∧ slotRead w0 = cur0 ∧ slotRead w1 = cur1.
Proof.
  intros Hk Hc Hl0 Hl1 Hr0 Hr1 Hrun Hf0 Hf1.
  assert (Hstart : ∀ b cur, progressed b cur (startWorker b)).
  { intros b cur. split; [done|]. split; [done|]. by intros [|]. }
  destruct (interleave_disjoint schedule b0 b1 cur0 cur1 offs ents
              (startWorker b0) (startWorker b1))
    as (w0' & w1' & Hrun' & Hp0 & Hp1); try done.
  change (offsetsAfter b1 cur1 (startWorker b1)
            (offsetsAfter b0 cur0 (startWorker b0) offs)) with offs in Hrun'.
  change (entriesAfter b1 cur1 (startWorker b1)
            (entriesAfter b0 cur0 (startWorker b0) ents)) with ents in Hrun'.
  rewrite Hrun in Hrun'. injection Hrun' as -> -> <- <-.
  unfold offsetsAfter, entriesAfter. rewrite Hf0, Hf1. cbn.
  destruct Hp0 as (_ & Hs0 & _), Hp1 as (_ & Hs1 & _).
  rewrite Hf0 in Hs0. rewrite Hf1 in Hs1. auto.
Qed.

(** ** The cursor advance of the fill pass *)

(** C7, as stated, does not hold of the code.  Two workers store a posting
    for the k-mer of index 0 into a bucket with two slots and take turns
    access by access: both read slot 0, both store there, and the cursor
    ends at 1, where two atomic advances hand out the slots 0 and 1 and
    leave the cursor at 2. *)
Lemma fill_advance_not_atomic : ¬ advanceIsAtomic.
Proof.
  intros Hatomic.
  destruct (Hatomic [false; true; false; true; false; true; false; true]
              [0; 2] (replicate 2 (mkIndexEntryLocal 0 0))
              (mkIndexEntryLocalTmp 0 0 0) (mkIndexEntryLocalTmp 0 1 0)
              [1; 2] [mkIndexEntryLocal 1 0; mkIndexEntryLocal 0 0]
              (mkWorker Finished (mkIndexEntryLocalTmp 0 0 0) 0 0)
              (mkWorker Finished (mkIndexEntryLocalTmp 0 1 0) 0 0))
    as (slot0 & slot1 & Htwo & _); [reflexivity..|].
  vm_compute in Htwo. discriminate Htwo.
Qed.

(** C7, amended.  For every posting it stores, the last loop of
    [addSequence] and [addSimilarSequence] performs the four plain accesses
    of [workerStep] one after the other: the cursor is read for the slot,
    the posting is stored, and the cursor is read again and stored
    incremented.  With no access of another worker in between, the slot is
    the value the cursor had and the cursor is then one more, in [size_t];
    the same holds under every interleaving with a worker that stores a
    posting for another k-mer in another slot. *)
Theorem fill_advance_plain (b : IndexEntryLocalTmp)
    (rest : list IndexEntryLocalTmp) (prev : Z) (offs : list Z)
    (ents : list IndexEntryLocal) :
  kmer b ≠ prev →
  fillWalk (b :: rest) prev offs ents
  = ('(offs1, ents1, w) ← runAlone 4 offs ents (startWorker b);
     '(offs2, ents2, ws) ← fillWalk rest (kmer b) offs1 ents1;
     Some (offs2, ents2, mkWrite (kmer b) (slotRead w) (entryOf b) :: ws))
  ∧ (∀ cur, load offs (kmer b) = Some cur →
       0 ≤ cur < Z.of_nat (length ents) →
       runAlone 4 offs ents (startWorker b)
       = Some (<[Z.to_nat (kmer b) := wrap64 (cur + 1)]> offs,
               <[Z.to_nat cur := entryOf b]> ents,
               mkWorker Finished b cur cur))
  ∧ (∀ schedule b1 cur cur1 offs' ents' w w1,
       kmer b ≠ kmer b1 → cur ≠ cur1 →
       load offs (kmer b) = Some cur → load offs (kmer b1) = Some cur1 →
       0 ≤ cur < Z.of_nat (length ents) → 0 ≤ cur1 < Z.of_nat (length ents) →
       interleave schedule offs ents (startWorker b) (startWorker b1)
       = Some (offs', ents', w, w1) →
       pc w = Finished → pc w1 = Finished →
       slotRead w = cur ∧ load offs' (kmer b) = Some (wrap64 (cur + 1))).
Proof.
  intros Hne. split; [|split].
  - cbn [fillWalk]. rewrite decide_True by done.
    destruct (load offs (kmer b)) as [slot|] eqn:Hload;
      [|cbn -[load store fillWalk]; by rewrite Hload].
    cbn -[load store fillWalk]. rewrite Hload. cbn -[load store fillWalk].
    fold (entryOf b).
    destruct (store ents slot (entryOf b)) as [ents1|]; [|done].
    cbn -[load store fillWalk]. rewrite Hload. cbn -[load store fillWalk].
    destruct (store offs (kmer b) (wrap64 (slot + 1))) as [offs1|]; [|done].
    done.
  - intros cur Hcur Hrange.
    pose proof (load_Some_range _ _ _ Hcur).
    cbn -[load store]. rewrite Hcur. cbn -[load store].
    rewrite store_Some by done. cbn -[load store].
    rewrite Hcur. cbn -[load store].
    rewrite store_Some by done. done.
  - intros schedule b1 cur cur1 offs' ents' w w1 Hk Hc Hl Hl1 Hr Hr1 Hrun Hf Hf1.
    destruct (disjoint_advances_independent schedule b b1 cur cur1 offs ents
                offs' ents' w w1) as (-> & _ & Hslot & _); try done.
    split; [done|].
    pose proof (load_Some_range _ _ _ Hl).
    pose proof (load_Some_range _ _ _ Hl1).
    unfold load. rewrite decide_True by lia.
    rewrite list_lookup_insert_ne by lia.
    apply list_lookup_insert_eq. lia.
Qed.

(** One worker, one posting for the k-mer of index 0, cursor at 0. *)
Lemma fill_advance_plain_witness :
  fillWalk [mkIndexEntryLocalTmp 0 7 3] UINT_MAX [0; 2]
    (replicate 2 (mkIndexEntryLocal 0 0))
  = Some ([1; 2], [mkIndexEntryLocal 7 3; mkIndexEntryLocal 0 0],
          [mkWrite 0 0 (mkIndexEntryLocal 7 3)]).
Proof.
  destruct (fill_advance_plain (mkIndexEntryLocalTmp 0 7 3) [] UINT_MAX
              [0; 2] (replicate 2 (mkIndexEntryLocal 0 0)))
    as (Hwalk & Halone & _).
  - cbn. unfold UINT_MAX. lia.
  - rewrite Hwalk, (Halone 0) by (reflexivity || (cbn; lia)). reflexivity.
Defined.

(** ** Further facts about the passes *)

(** Within one call a bucket that has length zero when the call starts
    receives no posting and keeps its cursor. *)
Lemma masked_at_call_not_written (t : IndexTable) (s : Sequence)
    (idxer : Indexer) (aaFrom aaSize threshold : Z) (diagonalScore : Z → Z)
    (m : Z) :
  tableShape t →
  fitsTable t idxer s →
  0 ≤ aaFrom → 0 ≤ aaSize → aaFrom + aaSize < 2 ^ 64 →
  (∀ i cur,
     i ∈ (eligibleOccurrences t idxer aaFrom aaSize threshold diagonalScore s).*1 →
     load (offsets t) i = Some cur →
     0 ≤ cur < Z.of_nat (length (entries t))) →
  masked (offsets t) m →
  ∃ t' ws,
    addSequence t s idxer aaFrom aaSize threshold diagonalScore = Some (t', ws)
    ∧ writesFor m ws = []
    ∧ load (offsets t') m = load (offsets t) m.
Proof.
  intros Hshape Hfit HaF HaS Hwin Hslots Hmasked.
  destruct (addSequence_run t s idxer aaFrom aaSize threshold diagonalScore)
    as (offs' & ws & Hrun & _ & _ & Hkeys & _ & Hout & _); try done.
  assert (Hm : m ∉ (eligibleOccurrences t idxer aaFrom aaSize threshold
                      diagonalScore s).*1).
  { unfold eligibleOccurrences. rewrite <- list_fmap_compose.
    intros (w & -> & [Hel _]%list_elem_of_filter)%list_elem_of_fmap.
    by destruct Hel as (_ & Hnot & _). }
  eexists _, ws. split; [exact Hrun|]. split; [|by apply Hout].
  apply filter_key_absent. by rewrite Hkeys.
Qed.

(** [addSimilarKmerCount] counts every distinct index of the generated
    neighbourhoods once. *)
Lemma addSimilarKmerCount_run (t : IndexTable) (s : Sequence)
    (kmerGenerator : KmerGenerator) (idxer : Indexer)
    (threshold : Z) (diagonalScore : Z → Z) :
  Forall (λ k, 0 ≤ k < Z.of_nat (length (offsets t)) ∧ k ≠ UINT_MAX)
         (similarCountScan kmerGenerator (kmerStream s)) →
  ∃ offs',
    addSimilarKmerCount t s kmerGenerator idxer threshold diagonalScore
    = Some (set_offsets t offs',
            Z.of_nat (length (remove_dups
                        (similarCountScan kmerGenerator (kmerStream s)))))
    ∧ (∀ i, i ∈ similarCountScan kmerGenerator (kmerStream s) →
         ∃ v, load (offsets t) i = Some v
            ∧ load offs' i = Some (wrap64 (v + 1)))
    ∧ (∀ i, i ∉ similarCountScan kmerGenerator (kmerStream s) →
         load offs' i = load (offsets t) i).
Proof.
  intros Hbuf. unfold addSimilarKmerCount.
  destruct (countPass_spec (offsets t) _ Hbuf)
    as (offs' & -> & _ & Hin & Hout).
  cbn. by exists offs'.
Qed.

(** ** Scenarios of the specification *)

(** S2: the sequences 0,0,0,0 and 0,0 give the bucket of the k-mer (0,0)
    two postings, one for each sequence. *)
Example scenario_S2 :
  ∃ counted stage3 filled wss rewound,
    countAll (emptyTable 17 0) [sequence2 0 [0; 0; 0; 0]; sequence2 1 [0; 0]]
      indexer4 0 (λ _, 0) = Some (counted, [1; 1])
    ∧ init counted = Some stage3
    ∧ fillAll (set_entries stage3 (replicate 2 (mkIndexEntryLocal 9 9)))
        [sequence2 0 [0; 0; 0; 0]; sequence2 1 [0; 0]] indexer4 0 16 0 (λ _, 0)
      = Some (filled, wss)
    ∧ entries filled = [mkIndexEntryLocal 0 0; mkIndexEntryLocal 1 0]
    ∧ revertPointer filled = Some rewound
    ∧ getDBSeqList rewound 0 = Some (0, 2).
Proof. do 5 eexists. repeat split; vm_compute; reflexivity. Qed.

(** S6: with the diagonal scores 1, 1, 1, 10 and threshold 12 only the
    k-mer (3,3) of the sequence 3,3,0,3 is kept; it gets one posting, at
    position 0. *)
Example scenario_S6 :
  let score := λ sym, if decide (sym = 3) then 10 else 1 in
  ∃ counted stage3 filled,
    countAll (emptyTable 17 0) [sequence2 0 [3; 3; 0; 3]] indexer4 12 score
    = Some (counted, [1])
    ∧ init counted = Some stage3
    ∧ fillAll (set_entries stage3 [mkIndexEntryLocal 9 9])
        [sequence2 0 [3; 3; 0; 3]] indexer4 0 16 12 score
      = Some (filled, [[mkWrite 15 0 (mkIndexEntryLocal 0 0)]]).
Proof. do 3 eexists. repeat split; vm_compute; reflexivity. Qed.

(** S1 and S4: the sequences 0,1,2,3 and 0,1,0,1 give five postings, two of
    them in the bucket of the k-mer (0,1); a worker for the window [0, 8)
    followed by a worker for the window [8, 16) leaves the same arrays as
    one worker for the window [0, 16). *)
Example scenario_S1_S4 :
  let db := [sequence2 0 [0; 1; 2; 3]; sequence2 1 [0; 1; 0; 1]] in
  ∃ counted stage3 filled wss lower both wssLower wssUpper rewound,
    countAll (emptyTable 17 0) db indexer4 0 (λ _, 0) = Some (counted, [3; 2])
    ∧ init counted = Some stage3
    ∧ load (offsets stage3) 16 = Some 5
    ∧ fillAll (set_entries stage3 (replicate 5 (mkIndexEntryLocal 9 9)))
        db indexer4 0 16 0 (λ _, 0) = Some (filled, wss)
    ∧ fillAll (set_entries stage3 (replicate 5 (mkIndexEntryLocal 9 9)))
        db indexer4 0 8 0 (λ _, 0) = Some (lower, wssLower)
    ∧ fillAll lower db indexer4 8 8 0 (λ _, 0) = Some (both, wssUpper)
    ∧ both = filled
    ∧ revertPointer filled = Some rewound
    ∧ getDBSeqList rewound 1 = Some (0, 2)
    ∧ take 2 (entries rewound) = [mkIndexEntryLocal 0 0; mkIndexEntryLocal 1 0].
Proof. do 9 eexists. repeat split; vm_compute; reflexivity. Qed.

(** ** Logs of postings *)

Lemma applyWrites_snoc ents ws w :
  applyWrites ents (ws ++ [w])
  = <[Z.to_nat (w_slot w) := w_entry w]> (applyWrites ents ws).
Proof. unfold applyWrites. by rewrite foldl_app. Qed.

Lemma applyWrites_load_other ws : ∀ ents k,
  (∀ w, w ∈ ws → 0 ≤ w_slot w ∧ w_slot w ≠ k) →
  load (applyWrites ents ws) k = load ents k.
Proof.
  induction ws as [|w ws IH] using rev_ind; intros ents k Hws; [done|].
  rewrite applyWrites_snoc.
  destruct (Hws w) as [Hpos Hne]; [apply elem_of_app; right; by left|].
  rewrite <- (IH ents k)
    by (intros w' Hw'; apply Hws, elem_of_app; by left).
  unfold load. destruct (decide (0 ≤ k)); [|done].
  apply list_lookup_insert_ne. lia.
Qed.

Lemma applyWrites_load_in ws : ∀ ents k e,
  0 ≤ k < Z.of_nat (length ents) →
  (∃ w, w ∈ ws ∧ w_slot w = k) →
  (∀ w, w ∈ ws → 0 ≤ w_slot w ∧ (w_slot w = k → w_entry w = e)) →
  load (applyWrites ents ws) k = Some e.
Proof.
  induction ws as [|w ws IH] using rev_ind; intros ents k e Hk Hex Hall.
  { destruct Hex as (w & Hw & _). by apply elem_of_nil in Hw. }
  rewrite applyWrites_snoc.
  destruct (Hall w) as [Hpos Hent]; [apply elem_of_app; right; by left|].
  unfold load. rewrite decide_True by lia.
  destruct (decide (w_slot w = k)) as [Heq|Hne].
  - rewrite Heq, list_lookup_insert_eq by (rewrite applyWrites_length; lia).
    by rewrite Hent.
  - rewrite list_lookup_insert_ne by lia.
    rewrite <- (IH ents k e Hk). { unfold load. by rewrite decide_True by lia. }
    + destruct Hex as (w' & [Hw'|Hw']%elem_of_app & Hs); [by exists w'|].
      apply list_elem_of_singleton in Hw'. by subst.
    + intros w' Hw'. apply Hall, elem_of_app. by left.
Qed.

Lemma leastOf_isLeast l : l ≠ [] → isLeast (leastOf l) l.
Proof.
  destruct l as [|p ps]; [done|]. intros _. cbn [leastOf].
  induction ps as [|q ps IH] in p |- *.
  { cbn. split; [by left|]. intros x ->%list_elem_of_singleton. lia. }
  cbn [foldr]. destruct (IH p) as [Hin Hle]. split.
  - destruct (Z.min_spec q (foldr Z.min p ps)) as [[_ ->]|[_ ->]].
    + right. by left.
    + apply elem_of_cons in Hin as [->|Hin]; [by left|]. right. by right.
  - intros x Hx.
    assert (foldr Z.min p ps ≤ x ∨ q ≤ x) as [?|?]; [|lia..].
    apply elem_of_cons in Hx as [->|[->|Hx]%elem_of_cons].
    + left. apply Hle. by left.
    + by right.
    + left. apply Hle. by right.
Qed.

Lemma isLeast_unique m m' l : isLeast m l → isLeast m' l → m = m'.
Proof. intros [Hm Hle] [Hm' Hle']. apply Hle in Hm'. apply Hle' in Hm. lia. Qed.

Lemma NoDup_fmap_eq {A B} (f : A → B) (l : list A) x y :
  NoDup (f <$> l) → x ∈ l → y ∈ l → f x = f y → x = y.
Proof.
  induction l as [|a l IH]; [by intros _ ?%elem_of_nil|].
  rewrite fmap_cons, list.NoDup_cons. intros [Hnotin Hnd] Hx Hy Hxy.
  apply elem_of_cons in Hx as [->|Hx]; apply elem_of_cons in Hy as [->|Hy].
  - done.
  - destruct Hnotin. rewrite Hxy. by apply list_elem_of_fmap_2.
  - destruct Hnotin. rewrite <- Hxy. by apply list_elem_of_fmap_2.
  - by apply IH.
Qed.

Lemma elem_of_concat {A} (x : A) (ls : list (list A)) :
  x ∈ concat ls ↔ ∃ l, x ∈ l ∧ l ∈ ls.
Proof.
  induction ls as [|l0 ls IH]; cbn [concat].
  - split; [by intros ?%elem_of_nil|]. by intros (l & _ & ?%elem_of_nil).
  - rewrite elem_of_app, IH. split.
    + intros [Hx|(l & Hx & Hl)]; [exists l0|exists l]; split; try done.
      * by left.
      * by right.
    + intros (l & Hx & [->|Hl]%elem_of_cons); [by left|]. right. by exists l.
Qed.

(** ** The finished index *)

Section finished_index.
Context (t : IndexTable) (idxer : Indexer).
Context (threshold : Z) (diagonalScore : Z → Z).
Hypothesis Hsize : 0 ≤ tableSize t ≤ UINT_MAX.
Context (db : list Sequence).
Hypothesis Htotal : totalPostings t idxer threshold diagonalScore db < 2 ^ 64.

Local Abbreviation keptOf := (keptIndices t idxer threshold diagonalScore).
Local Abbreviation cnt := (bucketCount t idxer threshold diagonalScore).
Local Abbreviation total := (totalPostings t idxer threshold diagonalScore db).
Local Abbreviation start := (bucketStart t idxer threshold diagonalScore db).
Local Abbreviation owed := (bucketPostings t idxer threshold diagonalScore).
Local Abbreviation postingOf s i :=
  (mkIndexEntryLocal (wrap32 (getId s))
     (leastOf (wrap16 <$> keptPositions t idxer threshold diagonalScore s i))).

Lemma bucketStart_succ i :
  0 ≤ i < tableSize t → start (i + 1) = start i + cnt db i.
Proof. apply start_succ. Qed.

Lemma bucketStart_bounds i : 0 ≤ start i ≤ total.
Proof. apply start_bounds. Qed.

Lemma bucketStart_mono i j : 0 ≤ i ≤ j → start i ≤ start j.
Proof.
  intros Hij. unfold bucketStart.
  replace (Z.to_nat i) with (Z.to_nat i `min` Z.to_nat j)%nat by lia.
  rewrite <- take_take. apply sumZ_take_le, Forall_take, bucketCounts_nonneg.
Qed.

Lemma bucketPostings_length seen i : Z.of_nat (length (owed seen i)) = cnt seen i.
Proof. unfold bucketPostings, bucketCount. by rewrite length_fmap. Qed.

Lemma bucketPostings_snoc seen s i :
  owed (seen ++ [s]) i
  = owed seen i ++ (if decide (i ∈ keptOf s) then [postingOf s i] else []).
Proof.
  unfold bucketPostings. rewrite list.filter_app, fmap_app. f_equal.
  case_decide.
  - by rewrite filter_cons_True by done.
  - by rewrite filter_cons_False by done.
Qed.

(** Two k-mers of a sequence still to be filled have their next free slots
    apart. *)
Lemma free_slots_apart seen s rest i i' j :
  db = seen ++ s :: rest →
  0 ≤ i < tableSize t → 0 ≤ i' < tableSize t →
  i' ∈ keptOf s → i ≠ i' →
  0 ≤ j → j < cnt db i →
  start i' + cnt seen i' ≠ start i + j.
Proof.
  intros Hdb Hi Hi' Hk Hne Hj0 Hj.
  assert (cnt db i' = cnt seen i' + (1 + cnt rest i')).
  { rewrite Hdb, bucketCount_app, bucketCount_cons, decide_True by done.
    done. }
  pose proof (bucketCount_nonneg t idxer threshold diagonalScore seen i').
  pose proof (bucketCount_nonneg t idxer threshold diagonalScore rest i').
  pose proof (bucketStart_succ i Hi).
  pose proof (bucketStart_succ i' Hi').
  destruct (decide (i < i')).
  - pose proof (bucketStart_mono (i + 1) i' ltac:(lia)). lia.
  - pose proof (bucketStart_mono (i' + 1) i ltac:(lia)). lia.
Qed.

(** The postings one call stores for the k-mer of index [i]. *)
Lemma writesFor_one_call (ws : list Write) (keys : list Z) i :
  NoDup (w_kmer <$> ws) →
  (∀ k, k ∈ (w_kmer <$> ws) ↔ k ∈ keys) →
  Z.of_nat (length (writesFor i ws)) = if decide (i ∈ keys) then 1 else 0.
Proof.
  intros Hnd Hkeys. unfold writesFor. case_decide as Hi.
  - apply Hkeys in Hi as (w & -> & Hw)%list_elem_of_fmap.
    by rewrite filter_key_unique.
  - rewrite filter_key_absent; [done|]. by rewrite Hkeys.
Qed.

Lemma fillAll_entries rest : ∀ seen offs ents,
  db = seen ++ rest →
  Forall (fitsTable t idxer) rest →
  cursorsAt t idxer threshold diagonalScore db seen offs →
  total ≤ Z.of_nat (length ents) →
  entriesAt t idxer threshold diagonalScore db seen ents →
  ∃ offs' ents' wss,
    fillAll (withArrays t offs ents) rest idxer 0 (tableSize t)
      threshold diagonalScore = Some (withArrays t offs' ents', wss)
    ∧ cursorsAt t idxer threshold diagonalScore db db offs'
    ∧ length ents' = length ents
    ∧ entriesAt t idxer threshold diagonalScore db db ents'
    ∧ Forall (Forall (inFreePart t idxer threshold diagonalScore db seen)) wss
    ∧ NoDup (w_slot <$> concat wss)
    ∧ ents' = applyWrites ents (concat wss)
    ∧ (∀ i, Z.of_nat (length (writesFor i (concat wss))) = cnt rest i)
    ∧ Forall2 (λ s ws, NoDup (w_kmer <$> ws)
                       ∧ ∀ w, w ∈ ws → seqId (w_entry w) = wrap32 (getId s))
        rest wss.
Proof.
  induction rest as [|s rest IH];
    intros seen offs ents Hdb Hfit Hcur Hents Hfilled.
  { rewrite app_nil_r in Hdb. subst seen.
    exists offs, ents, []. split; [done|]. split; [done|]. split; [done|].
    split; [done|]. split; [constructor|]. split; [constructor|].
    split; [done|]. split; [done | constructor]. }
  apply Forall_cons_1 in Hfit as [Hs Hfit].
  pose proof (eligible_full_window t idxer threshold diagonalScore Hsize db
                Htotal seen s rest offs ents Hdb Hcur Hs) as Hocc.
  assert (Hidx : (eligibleOccurrences (withArrays t offs ents) idxer 0
                    (tableSize t) threshold diagonalScore s).*1 = keptOf s).
  { rewrite Hocc. unfold keptIndices. by rewrite <- list_fmap_compose. }
  pose proof (fitsTable_keptIndices t idxer threshold diagonalScore s Hs)
    as Hrange. rewrite list.Forall_forall in Hrange.
  pose proof Hcur as (Hlen & Hcells0 & Hlast).
  assert (Hcells : ∀ i, 0 ≤ i < tableSize t →
            load offs i = Some (start i + cnt seen i)) by exact Hcells0.
  clear Hcells0.
  assert (Hcnt : ∀ i, cnt db i = cnt seen i
                   + ((if decide (i ∈ keptOf s) then 1 else 0) + cnt rest i)).
  { intros i. by rewrite Hdb, bucketCount_app, bucketCount_cons. }
  assert (Hnn : ∀ l i, 0 ≤ cnt l i)
    by (intros; apply bucketCount_nonneg).
  assert (Hslot : ∀ i cur, i ∈ keptOf s → load offs i = Some cur →
            cur = start i + cnt seen i ∧ 0 ≤ cur ∧ cur + 1 ≤ start (i + 1)).
  { intros i cur Hk Hload. specialize (Hrange i Hk).
    rewrite Hcells in Hload by done. injection Hload as <-.
    pose proof (bucketStart_succ i Hrange) as Hsucc.
    specialize (Hcnt i). rewrite decide_True in Hcnt by done.
    pose proof (Hnn seen i). pose proof (Hnn rest i).
    pose proof (bucketStart_bounds i). lia. }
  destruct (addSequence_run (withArrays t offs ents) s idxer 0 (tableSize t)
              threshold diagonalScore)
    as (offs1 & ws & Hrun & Hlen1 & Hnd & Hkeys & Hws & Hout & Hin).
  { done. }
  { done. }
  { lia. }
  { lia. }
  { unfold UINT_MAX in Hsize. lia. }
  { rewrite Hidx. intros i cur Hk Hload.
    destruct (Hslot i cur Hk Hload) as (_ & ? & ?).
    pose proof (bucketStart_bounds (i + 1)).
    change (entries (withArrays t offs ents)) with ents. lia. }
  rewrite Hidx in Hkeys, Hout, Hin.
  change (offsets (withArrays t offs ents)) with offs in *.
  change (entries (withArrays t offs ents)) with ents in *.
  change (set_entries (set_offsets (withArrays t offs ents) offs1)
            (applyWrites ents ws))
    with (withArrays t offs1 (applyWrites ents ws)) in Hrun.
  (* what each posting of this call is *)
  assert (Hdesc : ∀ w, w ∈ ws →
            w_kmer w ∈ keptOf s
            ∧ w_slot w = start (w_kmer w) + cnt seen (w_kmer w)
            ∧ w_entry w = postingOf s (w_kmer w)).
  { intros w Hw. destruct (Hws w Hw) as (o & Ho & -> & Hmin).
    assert (Hk : o.1 ∈ keptOf s).
    { rewrite <- Hidx. by apply list_elem_of_fmap_2. }
    split; [done|]. split.
    - cbn. rewrite Hcells by by apply Hrange. done.
    - unfold writeOf, entryOf, tmpOf. cbn. f_equal.
      assert (o.2 ∈ keptPositions t idxer threshold diagonalScore s o.1)
        as Hin0.
      { rewrite Hocc in Ho.
        apply list_elem_of_fmap in Ho as (w0 & -> & Hw0).
        apply list_elem_of_filter in Hw0 as [Hkept Hw0].
        unfold keptPositions. apply list_elem_of_fmap. exists w0.
        split; [done|]. by apply list_elem_of_filter. }
      apply (isLeast_unique _ _
               (wrap16 <$> keptPositions t idxer threshold diagonalScore s
                             o.1)).
      + split; [by apply list_elem_of_fmap_2|].
        intros x (p & -> & Hp)%list_elem_of_fmap.
        apply list_elem_of_fmap in Hp as (w1 & -> & Hw1).
        apply list_elem_of_filter in Hw1 as [[Hkept Heq] Hw1].
        apply Hmin. rewrite Hocc. apply list_elem_of_fmap. exists w1.
        split; [by rewrite Heq|]. by apply list_elem_of_filter.
      + apply leastOf_isLeast. intros Hnil.
        apply (list_elem_of_fmap_2 wrap16) in Hin0.
        rewrite Hnil in Hin0. by apply elem_of_nil in Hin0. }
  destruct (IH (seen ++ [s]) offs1 (applyWrites ents ws))
    as (offs' & ents' & wss & Hrest & Hcur' & Hlen' & Hfilled' & Hfree & Hnd'
        & Happlied & Hcount & Hids).
  - by rewrite <- (assoc_L (++)).
  - done.
  - split; [lia|]. split.
    + intros i Hi. rewrite bucketCount_snoc. case_decide as Hk.
      * destruct (load_is_Some offs i) as [cur Hload]; [lia|].
        rewrite (Hin i cur Hk Hload).
        destruct (Hslot i cur Hk Hload) as (-> & ? & ?).
        pose proof (bucketStart_bounds (i + 1)).
        rewrite wrap64_small by lia.
        f_equal. unfold bucketStart. lia.
      * rewrite Hout, Hcells by done. f_equal. unfold bucketStart. lia.
    + rewrite Hout; [done|]. intros Hk%Hrange. lia.
  - by rewrite applyWrites_length.
  - (* the postings owed by seen ++ [s] stand in their buckets *)
    intros i j p Hi Hp. rewrite bucketPostings_snoc in Hp.
    pose proof (bucketPostings_length seen i) as Hlenp.
    destruct (decide (j < length (owed seen i))%nat) as [Hj|Hj].
    + rewrite lookup_app_l in Hp by done.
      rewrite applyWrites_load_other; [by apply Hfilled|].
      intros w Hw. destruct (Hdesc w Hw) as (Hk & Hsl & _).
      pose proof (Hrange _ Hk) as Hr.
      pose proof (bucketStart_bounds (w_kmer w)).
      pose proof (Hnn seen (w_kmer w)).
      split; [lia|]. rewrite Hsl.
      destruct (decide (w_kmer w = i)) as [->|Hne]; [lia|].
      apply (free_slots_apart seen s rest); try done; try lia.
      specialize (Hcnt i). pose proof (Hnn rest i).
      destruct (decide (i ∈ keptOf s)); lia.
    + rewrite lookup_app_r in Hp by lia.
      destruct (decide (i ∈ keptOf s)) as [Hk|Hk];
        [|by rewrite lookup_nil in Hp].
      destruct (j - length (owed seen i))%nat as [|?] eqn:Hd; [|done].
      injection Hp as <-.
      assert (Z.of_nat j = cnt seen i) as -> by lia.
      destruct (load_is_Some offs i) as [cur Hload]; [lia|].
      destruct (Hslot i cur Hk Hload) as (_ & ? & ?).
      rewrite Hcells in Hload by done. injection Hload as <-.
      pose proof (bucketStart_bounds (i + 1)).
      apply applyWrites_load_in.
      * lia.
      * assert (i ∈ w_kmer <$> ws) as (w & -> & Hw)%list_elem_of_fmap
          by by apply Hkeys.
        exists w. split; [done|]. by destruct (Hdesc w Hw) as (_ & -> & _).
      * intros w Hw. destruct (Hdesc w Hw) as (Hkw & Hsl & Hen).
        pose proof (Hrange _ Hkw) as Hr.
        pose proof (bucketStart_bounds (w_kmer w)).
        pose proof (Hnn seen (w_kmer w)).
        split; [lia|]. intros Heq. rewrite Hen.
        destruct (decide (w_kmer w = i)) as [->|Hne]; [done|].
        exfalso. rewrite Hsl in Heq. revert Heq.
        apply (free_slots_apart seen s rest); try done; try lia.
        specialize (Hcnt i). rewrite decide_True in Hcnt by done.
        pose proof (Hnn rest i). pose proof (Hnn seen i). lia.
  - exists offs', ents', (ws :: wss). cbn [fillAll]. rewrite Hrun.
    cbn [mbind option_bind]. rewrite Hrest.
    rewrite applyWrites_length in Hlen'.
    assert (Hwsfree : Forall (inFreePart t idxer threshold diagonalScore db
                                seen) ws).
    { apply list.Forall_forall. intros w Hw.
      destruct (Hdesc w Hw) as (Hk & Hsl & _).
      pose proof (Hrange _ Hk) as Hr. split; [done|].
      rewrite Hsl, (bucketStart_succ _ Hr).
      specialize (Hcnt (w_kmer w)). rewrite decide_True in Hcnt by done.
      pose proof (Hnn rest (w_kmer w)). lia. }
    split; [done|]. split; [done|]. split; [done|]. split; [done|].
    split; [|split].
    + constructor; [done|].
      eapply list.Forall_impl; [exact Hfree|]. intros l Hl.
      eapply list.Forall_impl; [exact Hl|]. intros w (Hr & Hlo & Hhi).
      split; [done|]. rewrite bucketCount_snoc in Hlo.
      destruct (decide (w_kmer w ∈ keptOf s)); lia.
    + cbn [concat]. rewrite fmap_app. apply NoDup_app. split; [|split].
      * (* the postings of one call *)
        apply (NoDup_fmap_1 w_kmer) in Hnd as Hndw.
        apply NoDup_fmap_2_strong; [|done].
        intros w w' Hw Hw' Heq.
        destruct (Hdesc w Hw) as (Hk & Hsl & _).
        destruct (Hdesc w' Hw') as (Hk' & Hsl' & _).
        destruct (decide (w_kmer w = w_kmer w')) as [Hkk|Hkk].
        { by apply (NoDup_fmap_eq w_kmer ws). }
        exfalso. rewrite Hsl, Hsl' in Heq. revert Heq.
        pose proof (Hrange _ Hk). pose proof (Hrange _ Hk').
        apply (free_slots_apart seen s rest); try done.
        specialize (Hcnt (w_kmer w')). rewrite decide_True in Hcnt by done.
        pose proof (Hnn rest (w_kmer w')). lia.
      * intros x (w & -> & Hw)%list_elem_of_fmap
                 (w' & Heq & Hw')%list_elem_of_fmap.
        apply elem_of_concat in Hw' as (l & Hw' & Hl).
        rewrite list.Forall_forall in Hfree. specialize (Hfree l Hl).
        rewrite list.Forall_forall in Hfree.
        destruct (Hfree w' Hw') as (Hr' & Hlo & Hhi).
        destruct (Hdesc w Hw) as (Hk & Hsl & _).
        pose proof (Hrange _ Hk) as Hr.
        rewrite bucketCount_snoc in Hlo.
        destruct (decide (w_kmer w = w_kmer w')) as [Hkk|Hkk].
        { rewrite <- Hkk, decide_True in Hlo by done. lia. }
        rewrite Hsl in Heq.
        pose proof (Hnn (seen ++ [s]) (w_kmer w')) as Hnn'.
        rewrite (bucketStart_succ _ Hr') in Hhi.
        pose proof (Hnn seen (w_kmer w')).
        assert (0 ≤ w_slot w' - start (w_kmer w')) as Hj0
          by (destruct (decide (w_kmer w' ∈ keptOf s)); lia).
        assert (w_slot w' - start (w_kmer w') < cnt db (w_kmer w')) as Hj1
          by lia.
        pose proof (free_slots_apart seen s rest (w_kmer w') (w_kmer w)
                      (w_slot w' - start (w_kmer w')) Hdb Hr' Hr Hk
                      ltac:(congruence) Hj0 Hj1).
        lia.
      * done.
    + split; [|split].
      * cbn [concat]. rewrite Happlied. unfold applyWrites.
        by rewrite foldl_app.
      * intros i. cbn [concat]. unfold writesFor.
        rewrite list.filter_app, length_app, Nat2Z.inj_add.
        fold (writesFor i ws). fold (writesFor i (concat wss)).
        rewrite (writesFor_one_call ws (keptOf s) i Hnd Hkeys), Hcount.
        by rewrite bucketCount_cons.
      * constructor; [|done]. split; [done|].
        intros w Hw. destruct (Hdesc w Hw) as (_ & _ & ->). done.
Qed.
End finished_index.

(** ** Counting twice: by sequence and by bucket *)

Lemma sumZ_fmap_add {A} (f g : A → Z) (l : list A) :
  sumZ ((λ x, f x + g x) <$> l) = sumZ (f <$> l) + sumZ (g <$> l).
Proof.
  induction l as [|x l IH]; [done|].
  rewrite !fmap_cons, !sumZ_cons, IH. lia.
Qed.

Lemma sumZ_indicator {A} (P : A → Prop) `{!∀ x, Decision (P x)} (l : list A) :
  sumZ ((λ x, if decide (P x) then 1 else 0) <$> l)
  = Z.of_nat (length (filter P l)).
Proof.
  induction l as [|x l IH]; [done|].
  rewrite fmap_cons, sumZ_cons, IH. destruct (decide (P x)).
  - rewrite filter_cons_True by done. cbn [length]. lia.
  - rewrite filter_cons_False by done. lia.
Qed.

Lemma distinct_by_bucket t idxer threshold diagonalScore s :
  fitsTable t idxer s →
  Z.of_nat (length (remove_dups (keptIndices t idxer threshold diagonalScore s)))
  = sumZ ((λ i, if decide (i ∈ keptIndices t idxer threshold diagonalScore s)
                then 1 else 0) <$> seqZ 0 (tableSize t)).
Proof.
  intros Hfit. rewrite sumZ_indicator. f_equal.
  apply Permutation_length, NoDup_Permutation.
  - apply NoDup_remove_dups.
  - apply NoDup_filter, NoDup_seqZ.
  - intros i. rewrite elem_of_remove_dups, list_elem_of_filter, elem_of_seqZ.
    pose proof (fitsTable_keptIndices t idxer threshold diagonalScore s Hfit)
      as Hrange. rewrite list.Forall_forall in Hrange.
    split; [|tauto]. intros Hi. split; [done|]. specialize (Hrange i Hi). lia.
Qed.

Lemma totalPostings_by_sequence t idxer threshold diagonalScore db :
  Forall (fitsTable t idxer) db →
  sumZ ((λ s, Z.of_nat (length (remove_dups
                (keptIndices t idxer threshold diagonalScore s)))) <$> db)
  = totalPostings t idxer threshold diagonalScore db.
Proof.
  unfold totalPostings, bucketCounts.
  induction 1 as [|s db Hs Hdb IH].
  { cbn. induction (seqZ 0 (tableSize t)) as [|i l IHl]; [done|].
    by rewrite fmap_cons, sumZ_cons, <- IHl. }
  rewrite fmap_cons, sumZ_cons, IH, distinct_by_bucket by done.
  rewrite <- sumZ_fmap_add. f_equal. apply list_fmap_ext.
  intros _ i _. by rewrite bucketCount_cons.
Qed.

(** ** The stages of a build *)

Lemma build_stages (t : IndexTable) (db : list Sequence)
    (idxer : Indexer) (threshold : Z) (diagonalScore : Z → Z)
    (fresh : list IndexEntryLocal) :
  0 ≤ tableSize t ≤ UINT_MAX →
  offsets t = replicate (Z.to_nat (tableSize t + 1)) 0 →
  Forall (fitsTable t idxer) db →
  totalPostings t idxer threshold diagonalScore db < 2 ^ 64 →
  totalPostings t idxer threshold diagonalScore db ≤ Z.of_nat (length fresh) →
  ∃ offs1 offs3 offs' ents' wss,
    countAll t db idxer threshold diagonalScore
    = Some (withArrays t offs1 (entries t),
            (λ s, Z.of_nat (length (remove_dups
               (keptIndices t idxer threshold diagonalScore s)))) <$> db)
    ∧ init (withArrays t offs1 (entries t))
      = Some (withArrays t offs3 (entries t))
    ∧ fillAll (withArrays t offs3 fresh) db idxer 0 (tableSize t)
        threshold diagonalScore = Some (withArrays t offs' ents', wss)
    ∧ cursorsAt t idxer threshold diagonalScore db [] offs3
    ∧ cursorsAt t idxer threshold diagonalScore db db offs'
    ∧ length ents' = length fresh
    ∧ entriesAt t idxer threshold diagonalScore db db ents'
    ∧ Forall (Forall (inFreePart t idxer threshold diagonalScore db [])) wss
    ∧ NoDup (w_slot <$> concat wss)
    ∧ Forall2 (λ s ws,
         Z.of_nat (length (remove_dups
            (keptIndices t idxer threshold diagonalScore s)))
         = Z.of_nat (length ws)) db wss
    ∧ ents' = applyWrites fresh (concat wss)
    ∧ (∀ i, Z.of_nat (length (writesFor i (concat wss)))
            = bucketCount t idxer threshold diagonalScore db i)
    ∧ Forall2 (λ s ws, NoDup (w_kmer <$> ws)
                       ∧ ∀ w, w ∈ ws → seqId (w_entry w) = wrap32 (getId s))
        db wss.
Proof.
  intros Hsize Hzero Hfit Htotal Hfresh.
  assert (Ht : t = withArrays t (offsets t) (entries t)) by by destruct t.
  assert (Hcnt : ∀ i, 0 ≤ i < tableSize t →
            bucketCount t idxer threshold diagonalScore db i < 2 ^ 64).
  { intros i Hi.
    pose proof (start_succ t idxer threshold diagonalScore db i Hi).
    pose proof (start_bounds t idxer threshold diagonalScore db i).
    pose proof (start_bounds t idxer threshold diagonalScore db (i + 1)).
    lia. }
  destruct (countAll_spec t idxer threshold diagonalScore Hsize db []
              (offsets t) (entries t))
    as (offs1 & Hcount & Hlen1 & Hcells1 & Hlast1).
  { rewrite Hzero, length_replicate. lia. }
  { done. }
  { intros i Hi. unfold load. rewrite decide_True, Hzero by lia.
    by rewrite lookup_replicate_2 by lia. }
  { unfold load. rewrite decide_True, Hzero by lia.
    by rewrite lookup_replicate_2 by lia. }
  { done. }
  rewrite <- Ht in Hcount. cbn [app] in Hcells1.
  pose proof (loads_determine offs1 (tableSize t) _ 0 ltac:(lia) Hlen1
                Hcells1 Hlast1) as Hoffs1.
  fold (bucketCounts t idxer threshold diagonalScore db) in Hoffs1.
  destruct (init_run (withArrays t offs1 (entries t))
              (bucketCounts t idxer threshold diagonalScore db) 0)
    as (offs3 & Hinit & Hlen3 & Hcells3).
  { done. }
  { rewrite bucketCounts_length. cbn. lia. }
  { apply bucketCounts_nonneg. }
  { done. }
  assert (Hcur3 : cursorsAt t idxer threshold diagonalScore db [] offs3).
  { split; [|split].
    - rewrite Hlen3. exact Hlen1.
    - intros i Hi. rewrite (Hcells3 i) by (cbn; lia).
      f_equal. unfold bucketCount. cbn. lia.
    - rewrite (Hcells3 (tableSize t)) by (cbn; lia).
      by rewrite start_last. }
  destruct (fillAll_entries t idxer threshold diagonalScore Hsize db Htotal db
              [] offs3 fresh)
    as (offs' & ents' & wss & Hfill & Hcur' & Hlen' & Hents' & Hfree & Hnd
        & Happlied & Hwrites & Hids).
  { done. }
  { done. }
  { done. }
  { done. }
  { intros i j p _ Hp. unfold bucketPostings in Hp.
    by rewrite filter_nil in Hp. }
  destruct (fillAll_spec t idxer threshold diagonalScore Hsize db Htotal db
              [] offs3 fresh) as (filled & wss2 & Hfill2 & Hpar);
    [done..|].
  rewrite Hfill in Hfill2. injection Hfill2 as _ <-.
  exists offs1, offs3, offs', ents', wss. done.
Qed.

(** ** Count–fill parity *)

Lemma applyWrites_resident (ents : list IndexEntryLocal) (ws : list Write) w :
  NoDup (w_slot <$> ws) →
  (∀ w', w' ∈ ws → 0 ≤ w_slot w' < Z.of_nat (length ents)) →
  w ∈ ws →
  load (applyWrites ents ws) (w_slot w) = Some (w_entry w).
Proof.
  intros Hnd Hrange Hw. apply applyWrites_load_in.
  - by apply Hrange.
  - by exists w.
  - intros w' Hw'. split; [by apply Hrange|].
    intros Heq. f_equal. by apply (NoDup_fmap_eq w_slot ws).
Qed.

(** C3. Count–fill parity.  A fresh table counts the sequences of a
    database, [init] turns the counts into offsets, and one worker with the
    full window [[0, tableSize)] fills the same sequences under the same
    threshold and diagonal scores, no bucket having been masked in between.
    Then for every sequence the value returned by [addKmerCount] is the
    number of postings that [addSequence] stores for it.  The postings
    counted are stores into [entries]: the filled [entries] array is the
    fresh one with the postings of all calls stored, no two of them into
    the same slot, so that every posting stands in [entries] at its slot
    when the fill pass has ended; the postings of a sequence carry its id
    and belong to different k-mers; and the cursor of every bucket has
    advanced by the number of postings stored for its k-mer. *)
Theorem count_fill_parity (t : IndexTable) (db : list Sequence)
    (idxer : Indexer) (threshold : Z) (diagonalScore : Z → Z)
    (fresh : list IndexEntryLocal) :
  0 ≤ tableSize t ≤ UINT_MAX →
  offsets t = replicate (Z.to_nat (tableSize t + 1)) 0 →
  Forall (fitsTable t idxer) db →
  totalPostings t idxer threshold diagonalScore db < 2 ^ 64 →
  totalPostings t idxer threshold diagonalScore db ≤ Z.of_nat (length fresh) →
  ∃ counted counts stage3 filled wss,
    countAll t db idxer threshold diagonalScore = Some (counted, counts)
    ∧ init counted = Some stage3
    ∧ fillAll (set_entries stage3 fresh) db idxer 0 (tableSize t)
        threshold diagonalScore = Some (filled, wss)
    ∧ length counts = length db
    ∧ Forall2 (λ n ws, n = Z.of_nat (length ws)) counts wss
    ∧ Forall2 (λ s ws, NoDup (w_kmer <$> ws)
                       ∧ ∀ w, w ∈ ws → seqId (w_entry w) = wrap32 (getId s))
        db wss
    ∧ entries filled = applyWrites fresh (concat wss)
    ∧ NoDup (w_slot <$> concat wss)
    ∧ (∀ w, w ∈ concat wss →
         load (entries filled) (w_slot w) = Some (w_entry w))
    ∧ (∀ i, 0 ≤ i < tableSize t →
         ∃ cur, load (offsets stage3) i = Some cur
              ∧ load (offsets filled) i
                = Some (cur + Z.of_nat (length (writesFor i (concat wss))))).
Proof.
  intros Hsize Hzero Hfit Htotal Hfresh.
  destruct (build_stages t db idxer threshold diagonalScore fresh)
    as (offs1 & offs3 & offs' & ents' & wss & Hcount & Hinit & Hfill
        & Hcur3 & Hcur' & Hlen & _ & Hfree & Hnd & Hpar & Happlied
        & Hwrites & Hids); [done..|].
  eexists _, _, _, _, wss.
  split; [exact Hcount|]. split; [exact Hinit|]. split; [exact Hfill|].
  change (entries (withArrays t offs' ents')) with ents'.
  change (offsets (withArrays t offs' ents')) with offs'.
  change (offsets (withArrays t offs3 (entries t))) with offs3.
  split; [by rewrite length_fmap|].
  split; [by apply Forall2_fmap_l|].
  split; [done|]. split; [done|]. split; [done|]. split.
  - intros w Hw. rewrite Happlied.
    apply applyWrites_resident; [done| |done].
    intros w' (ws & Hw' & Hws)%elem_of_concat.
    rewrite list.Forall_forall in Hfree. specialize (Hfree ws Hws).
    rewrite list.Forall_forall in Hfree.
    destruct (Hfree w' Hw') as (Hr & Hlo & Hhi).
    pose proof (bucketStart_bounds t idxer threshold diagonalScore db
                  (w_kmer w')).
    pose proof (bucketStart_bounds t idxer threshold diagonalScore db
                  (w_kmer w' + 1)).
    pose proof (bucketCount_nonneg t idxer threshold diagonalScore []
                  (w_kmer w')).
    lia.
  - intros i Hi. destruct Hcur3 as (_ & Hcells3 & _).
    destruct Hcur' as (_ & Hcells' & _).
    eexists. split; [by apply Hcells3|].
    rewrite Hcells', Hwrites by done. f_equal.
    unfold bucketCount at 2. cbn. lia.
Qed.

(** Scenario S1 of the specification: the sequences 0,1,2,3 and 0,1,0,1
    contribute 3 and 2 postings, which fill the five slots of [entries]. *)
Lemma count_fill_parity_witness :
  ∃ counted stage3 filled ws0 ws1,
    countAll (emptyTable 17 0) [sequence2 0 [0; 1; 2; 3]; sequence2 1 [0; 1; 0; 1]]
      indexer4 0 (λ _, 0) = Some (counted, [3; 2])
    ∧ init counted = Some stage3
    ∧ fillAll (set_entries stage3 (replicate 5 (mkIndexEntryLocal 9 9)))
        [sequence2 0 [0; 1; 2; 3]; sequence2 1 [0; 1; 0; 1]]
        indexer4 0 16 0 (λ _, 0) = Some (filled, [ws0; ws1])
    ∧ length ws0 = 3%nat ∧ length ws1 = 2%nat
    ∧ entries filled
      = [mkIndexEntryLocal 0 0; mkIndexEntryLocal 1 0; mkIndexEntryLocal 1 1;
         mkIndexEntryLocal 0 1; mkIndexEntryLocal 0 2]
    ∧ offsets filled = [0; 2; 2; 2; 3; 3; 4; 4; 4; 4; 4; 5; 5; 5; 5; 5; 5].
Proof.
  destruct (count_fill_parity (emptyTable 17 0)
              [sequence2 0 [0; 1; 2; 3]; sequence2 1 [0; 1; 0; 1]]
              indexer4 0 (λ _, 0) (replicate 5 (mkIndexEntryLocal 9 9)))
    as (counted & counts & stage3 & filled & wss
        & Hcount & Hinit & Hfill & _ & Hpar & _).
  - cbn. unfold UINT_MAX. lia.
  - reflexivity.
  - unfold fitsTable. cbn. repeat constructor; by vm_compute.
  - by vm_compute.
  - by vm_compute.
  - vm_compute in Hcount. injection Hcount as <- <-.
    vm_compute in Hinit. injection Hinit as <-.
    vm_compute in Hfill. injection Hfill as <- <-.
    do 5 eexists. repeat split; reflexivity.
Defined.

Lemma rewound_cells t idxer threshold diagonalScore db offs j :
  0 ≤ tableSize t →
  cursorsAt t idxer threshold diagonalScore db db offs →
  0 ≤ j ≤ tableSize t →
  load (0 :: take (Z.to_nat (tableSize t)) offs) j
  = Some (bucketStart t idxer threshold diagonalScore db j).
Proof.
  intros Hsize (Hlen & Hcells & _) Hj. unfold load.
  rewrite decide_True by lia.
  destruct (Z.to_nat j) as [|j'] eqn:Hj'.
  { assert (j = 0) as -> by lia. done. }
  cbn [lookup list_lookup]. change (take (Z.to_nat (tableSize t)) offs !! j'
    = Some (bucketStart t idxer threshold diagonalScore db j)).
  rewrite lookup_take_lt by lia.
  rewrite <- load_lookup, Hcells by lia. f_equal.
  replace j with (Z.of_nat j' + 1) by lia.
  symmetry. apply start_succ. lia.
Qed.


Lemma buildIndex_stages
    (operator_new : Z → option (list IndexEntryLocal))
    (t : IndexTable) (db : list Sequence)
    (idxer : Indexer) (threshold : Z) (diagonalScore : Z → Z)
    (fresh : list IndexEntryLocal) :
  0 ≤ tableSize t ≤ UINT_MAX →
  offsets t = replicate (Z.to_nat (tableSize t + 1)) 0 →
  Forall (fitsTable t idxer) db →
  totalPostings t idxer threshold diagonalScore db < 2 ^ 64 →
  operator_new (totalPostings t idxer threshold diagonalScore db)
  = Some fresh →
  Z.of_nat (length fresh) = totalPostings t idxer threshold diagonalScore db →
  ∃ offs' ents',
    buildIndex operator_new t db idxer threshold diagonalScore
    = Constructed (withArrays t (0 :: take (Z.to_nat (tableSize t)) offs')
                     ents')
    ∧ cursorsAt t idxer threshold diagonalScore db db offs'
    ∧ entriesAt t idxer threshold diagonalScore db db ents'
    ∧ length ents' = length fresh.
Proof.
  intros Hsize Hzero Hfit Htotal Hnew Hfresh.
  destruct (build_stages t db idxer threshold diagonalScore fresh)
    as (offs1 & offs3 & offs' & ents' & wss & Hcount & Hinit & Hfill
        & Hcur3 & Hcur' & Hlen & Hents & _); [done | done | done | done | lia |].
  pose proof Hcur' as (Hlen' & _ & _).
  pose proof Hcur3 as (_ & _ & Hlast3).
  exists offs', ents'. split; [|done].
  unfold buildIndex. rewrite Hcount, Hinit.
  change (offsets (withArrays t offs3 (entries t))) with offs3.
  rewrite Hlast3. unfold initMemory. rewrite Hnew. cbn [checkAllocation].
  change (set_entries (withArrays t offs3 (entries t))
            (default [] (Some fresh)))
    with (withArrays t offs3 fresh).
  rewrite Hfill.
  rewrite revertPointer_offsets; [done | cbn; lia | exact Hlen'].
Qed.

Lemma rewound_lookup t idxer threshold diagonalScore db offs' ents' i :
  0 ≤ tableSize t →
  totalPostings t idxer threshold diagonalScore db < 2 ^ 64 →
  cursorsAt t idxer threshold diagonalScore db db offs' →
  entriesAt t idxer threshold diagonalScore db db ents' →
  0 ≤ i < tableSize t →
  getDBSeqList (withArrays t (0 :: take (Z.to_nat (tableSize t)) offs') ents') i
  = Some (bucketStart t idxer threshold diagonalScore db i,
          bucketCount t idxer threshold diagonalScore db i)
  ∧ take (Z.to_nat (bucketCount t idxer threshold diagonalScore db i))
      (drop (Z.to_nat (bucketStart t idxer threshold diagonalScore db i))
         ents')
    = bucketPostings t idxer threshold diagonalScore db i.
Proof.
  intros Hsize Htotal Hcur' Hents Hi.
  pose proof (start_succ t idxer threshold diagonalScore db i Hi) as Hsucc.
  pose proof (start_bounds t idxer threshold diagonalScore db i) as Hb.
  pose proof (start_bounds t idxer threshold diagonalScore db (i + 1)) as Hb'.
  pose proof (bucketCount_nonneg t idxer threshold diagonalScore db i) as Hnn.
  fold (bucketStart t idxer threshold diagonalScore db i) in Hsucc, Hb.
  fold (bucketStart t idxer threshold diagonalScore db (i + 1)) in Hsucc, Hb'.
  split.
  - unfold getDBSeqList.
    change (offsets (withArrays t (0 :: take (Z.to_nat (tableSize t)) offs')
                       ents'))
      with (0 :: take (Z.to_nat (tableSize t)) offs').
    rewrite !(rewound_cells t idxer threshold diagonalScore db) by (done || lia).
    cbn [mbind option_bind]. do 2 f_equal.
    rewrite wrap64_small by lia. lia.
  - pose proof (bucketPostings_length t idxer threshold diagonalScore db i)
      as Hlenp.
    apply list_eq. intros j.
    destruct (decide (Z.of_nat j
                      < bucketCount t idxer threshold diagonalScore db i))
      as [Hj|Hj].
    + rewrite lookup_take_lt, lookup_drop by lia.
      destruct (lookup_lt_is_Some_2
                  (bucketPostings t idxer threshold diagonalScore db i) j)
        as [p Hp]; [lia|].
      rewrite Hp, <- (Hents i j p Hi Hp). unfold load.
      rewrite decide_True by lia. f_equal. lia.
    + rewrite lookup_take_ge by lia. symmetry.
      apply lookup_ge_None_2. lia.
Qed.

Lemma bucketPostings_storable t idxer threshold diagonalScore db i :
  Forall storable db →
  bucketPostings t idxer threshold diagonalScore db i
  = (λ s, mkIndexEntryLocal (getId s)
            (leastOf (keptPositions t idxer threshold diagonalScore s i)))
      <$> filter (λ s, i ∈ keptIndices t idxer threshold diagonalScore s) db.
Proof.
  intros Hdb. rewrite list.Forall_forall in Hdb.
  unfold bucketPostings. apply list_fmap_ext.
  intros _ s [_ Hs%Hdb]%list_elem_of_lookup_2%list_elem_of_filter.
  destruct Hs as [Hid Hpos]. rewrite wrap32_small by done.
  rewrite fmap_wrap16_storable; [done|].
  rewrite list.Forall_forall in Hpos. apply list.Forall_forall.
  unfold keptPositions.
  intros p (w & -> & [_ Hw]%list_elem_of_filter)%list_elem_of_fmap.
  by apply Hpos.
Qed.

(** X1. The finished index answers every lookup with the postings the
    database owes.  A zeroed table counts the sequences of a database, the
    prefix sum is taken, [initMemory] is given the content of the last cell
    and obtains an array of that many postings, the sequences are filled
    with the full window and the pointers are rewound.  Then the build ends
    with a table in which [getDBSeqList] gives, for every k-mer index [i],
    the start of bucket [i] (the number of postings of the buckets before
    it) and as length the number of sequences that keep a k-mer of index
    [i]; and the postings of that range of [entries] are, in database
    order, one for each such sequence, with its id as an [unsigned int]
    and the least of the positions at which it has the k-mer as [unsigned
    short]s.  For a database whose ids and positions are values of these
    types that is the id itself and the first position of the k-mer. *)
Theorem buildIndex_lookup
    (operator_new : Z → option (list IndexEntryLocal))
    (t : IndexTable) (db : list Sequence)
    (idxer : Indexer) (threshold : Z) (diagonalScore : Z → Z)
    (fresh : list IndexEntryLocal) :
  0 ≤ tableSize t ≤ UINT_MAX →
  offsets t = replicate (Z.to_nat (tableSize t + 1)) 0 →
  Forall (fitsTable t idxer) db →
  totalPostings t idxer threshold diagonalScore db < 2 ^ 64 →
  operator_new (totalPostings t idxer threshold diagonalScore db)
  = Some fresh →
  Z.of_nat (length fresh) = totalPostings t idxer threshold diagonalScore db →
  ∃ ready,
    buildIndex operator_new t db idxer threshold diagonalScore
    = Constructed ready
    ∧ ∀ i, 0 ≤ i < tableSize t →
        getDBSeqList ready i
        = Some (bucketStart t idxer threshold diagonalScore db i,
                bucketCount t idxer threshold diagonalScore db i)
        ∧ take (Z.to_nat (bucketCount t idxer threshold diagonalScore db i))
            (drop (Z.to_nat (bucketStart t idxer threshold diagonalScore db i))
               (entries ready))
          = bucketPostings t idxer threshold diagonalScore db i
        ∧ (Forall storable db →
           bucketPostings t idxer threshold diagonalScore db i
           = (λ s, mkIndexEntryLocal (getId s)
                     (leastOf (keptPositions t idxer threshold diagonalScore
                                 s i)))
               <$> filter (λ s, i ∈ keptIndices t idxer threshold
                                      diagonalScore s) db).
Proof.
  intros Hsize Hzero Hfit Htotal Hnew Hfresh.
  destruct (buildIndex_stages operator_new t db idxer threshold diagonalScore
              fresh) as (offs' & ents' & Hbuild & Hcur' & Hents & _);
    [done..|].
  eexists. split; [exact Hbuild|].
  intros i Hi.
  change (entries (withArrays t (0 :: take (Z.to_nat (tableSize t)) offs')
                     ents')) with ents'.
  destruct (rewound_lookup t idxer threshold diagonalScore db offs' ents' i)
    as [Hlist Hslice]; [lia | done..|].
  split; [done|]. split; [done|]. apply bucketPostings_storable.
Qed.

(** The sequences 0,1,2,3 and 0,1,0,1: the bucket of the k-mer (0,1),
    index 1, starts at slot 0 and holds one posting for each sequence. *)
Lemma buildIndex_lookup_witness :
  ∃ ready,
    buildIndex (λ n, Some (replicate (Z.to_nat n) (mkIndexEntryLocal 9 9)))
      (emptyTable 17 0)
      [sequence2 0 [0; 1; 2; 3]; sequence2 1 [0; 1; 0; 1]]
      indexer4 0 (λ _, 0) = Constructed ready
    ∧ getDBSeqList ready 1 = Some (0, 2)
    ∧ take 2 (drop 0 (entries ready))
      = [mkIndexEntryLocal 0 0; mkIndexEntryLocal 1 0].
Proof.
  destruct (buildIndex_lookup
              (λ n, Some (replicate (Z.to_nat n) (mkIndexEntryLocal 9 9)))
              (emptyTable 17 0)
              [sequence2 0 [0; 1; 2; 3]; sequence2 1 [0; 1; 0; 1]]
              indexer4 0 (λ _, 0) (replicate 5 (mkIndexEntryLocal 9 9)))
    as (ready & Hbuild & Hlookup).
  - cbn. unfold UINT_MAX. lia.
  - reflexivity.
  - unfold fitsTable. cbn. repeat constructor; by vm_compute.
  - by vm_compute.
  - by vm_compute.
  - by vm_compute.
  - exists ready. split; [exact Hbuild|].
    destruct (Hlookup 1) as (Hlist & Hslice & _); [by vm_compute|].
    split; [exact Hlist | exact Hslice].
Defined.



(** X3. The values returned by [addKmerCount] for the sequences of a
    database add up to the content of the last cell after [init]: the
    number of postings for which the caller allocates [entries]. *)
Theorem counts_sum_to_last_cell (t : IndexTable) (db : list Sequence)
    (idxer : Indexer) (threshold : Z) (diagonalScore : Z → Z) :
  0 ≤ tableSize t ≤ UINT_MAX →
  offsets t = replicate (Z.to_nat (tableSize t + 1)) 0 →
  Forall (fitsTable t idxer) db →
  totalPostings t idxer threshold diagonalScore db < 2 ^ 64 →
  ∃ counted counts stage3,
    countAll t db idxer threshold diagonalScore = Some (counted, counts)
    ∧ init counted = Some stage3
    ∧ load (offsets stage3) (tableSize t) = Some (sumZ counts).
Proof.
  intros Hsize Hzero Hfit Htotal.
  destruct (build_stages t db idxer threshold diagonalScore
              (replicate (Z.to_nat (totalPostings t idxer threshold
                                      diagonalScore db))
                 (mkIndexEntryLocal 0 0)))
    as (offs1 & offs3 & offs' & ents' & wss & Hcount & Hinit & _
        & Hcur3 & _); [done.. | |].
  { rewrite length_replicate. lia. }
  eexists _, _, _. split; [exact Hcount|]. split; [exact Hinit|].
  destruct Hcur3 as (_ & _ & Hlast).
  change (offsets (withArrays t offs3 (entries t))) with offs3.
  rewrite Hlast. f_equal. symmetry.
  by apply totalPostings_by_sequence.
Qed.

Lemma counts_sum_to_last_cell_witness :
  ∃ counted stage3,
    countAll (emptyTable 17 0)
      [sequence2 0 [0; 1; 2; 3]; sequence2 1 [0; 1; 0; 1]]
      indexer4 0 (λ _, 0) = Some (counted, [3; 2])
    ∧ init counted = Some stage3
    ∧ load (offsets stage3) 16 = Some 5.
Proof.
  destruct (counts_sum_to_last_cell (emptyTable 17 0)
              [sequence2 0 [0; 1; 2; 3]; sequence2 1 [0; 1; 0; 1]]
              indexer4 0 (λ _, 0))
    as (counted & counts & stage3 & Hcount & Hinit & Hlast).
  - cbn. unfold UINT_MAX. lia.
  - reflexivity.
  - unfold fitsTable. cbn. repeat constructor; by vm_compute.
  - by vm_compute.
  - pose proof Hcount as Hc. vm_compute in Hc. injection Hc as _ <-.
    exists counted, stage3. split; [exact Hcount|]. split; [exact Hinit|].
    exact Hlast.
Defined.

(** X4. When the allocation of [entries] in [initMemory] returns the null
    pointer the build ends in the allocation check: counting and prefix sum
    have run without an access outside the offsets, and nothing is written
    through the null pointer. *)
Theorem buildIndex_allocation_failure
    (operator_new : Z → option (list IndexEntryLocal))
    (t : IndexTable) (db : list Sequence)
    (idxer : Indexer) (threshold : Z) (diagonalScore : Z → Z) :
  0 ≤ tableSize t ≤ UINT_MAX →
  offsets t = replicate (Z.to_nat (tableSize t + 1)) 0 →
  Forall (fitsTable t idxer) db →
  totalPostings t idxer threshold diagonalScore db < 2 ^ 64 →
  operator_new (totalPostings t idxer threshold diagonalScore db) = None →
  buildIndex operator_new t db idxer threshold diagonalScore = AllocFailed.
Proof.
  intros Hsize Hzero Hfit Htotal Hnew.
  destruct (build_stages t db idxer threshold diagonalScore
              (replicate (Z.to_nat (totalPostings t idxer threshold
                                      diagonalScore db))
                 (mkIndexEntryLocal 0 0)))
    as (offs1 & offs3 & offs' & ents' & wss & Hcount & Hinit & _
        & Hcur3 & _); [done.. | |].
  { rewrite length_replicate. lia. }
  destruct Hcur3 as (_ & _ & Hlast3).
  unfold buildIndex. rewrite Hcount, Hinit.
  change (offsets (withArrays t offs3 (entries t))) with offs3.
  rewrite Hlast3. unfold initMemory. by rewrite Hnew.
Qed.

Lemma buildIndex_allocation_failure_witness :
  buildIndex (λ _, None) (emptyTable 17 0)
    [sequence2 0 [0; 1; 2; 3]; sequence2 1 [0; 1; 0; 1]]
    indexer4 0 (λ _, 0) = AllocFailed.
Proof.
  apply (buildIndex_allocation_failure (λ _, None) (emptyTable 17 0)
           [sequence2 0 [0; 1; 2; 3]; sequence2 1 [0; 1; 0; 1]]
           indexer4 0 (λ _, 0)).
  - cbn. unfold UINT_MAX. lia.
  - reflexivity.
  - unfold fitsTable. cbn. repeat constructor; by vm_compute.
  - by vm_compute.
  - reflexivity.
Defined.

(** X5. Counting a database into a zeroed table leaves in cell [i] the
    number of sequences that keep a k-mer of index [i], however often each
    of them holds it; the last cell stays 0, [entries] is not touched, and
    one value is returned for every sequence. *)
Theorem countAll_bucket_counts (t : IndexTable) (db : list Sequence)
    (idxer : Indexer) (threshold : Z) (diagonalScore : Z → Z) :
  0 ≤ tableSize t ≤ UINT_MAX →
  offsets t = replicate (Z.to_nat (tableSize t + 1)) 0 →
  Forall (fitsTable t idxer) db →
  Z.of_nat (length db) < 2 ^ 64 →
  ∃ counted counts,
    countAll t db idxer threshold diagonalScore = Some (counted, counts)
    ∧ (∀ i, 0 ≤ i < tableSize t →
         load (offsets counted) i
         = Some (bucketCount t idxer threshold diagonalScore db i))
    ∧ load (offsets counted) (tableSize t) = Some 0
    ∧ entries counted = entries t
    ∧ length counts = length db.
Proof.
  intros Hsize Hzero Hfit Hdb.
  assert (Ht : t = withArrays t (offsets t) (entries t)) by by destruct t.
  destruct (countAll_spec t idxer threshold diagonalScore Hsize db []
              (offsets t) (entries t))
    as (offs1 & Hcount & Hlen1 & Hcells1 & Hlast1).
  { rewrite Hzero, length_replicate. lia. }
  { done. }
  { intros i Hi. unfold load. rewrite decide_True, Hzero by lia.
    by rewrite lookup_replicate_2 by lia. }
  { unfold load. rewrite decide_True, Hzero by lia.
    by rewrite lookup_replicate_2 by lia. }
  { intros i Hi. cbn [app]. unfold bucketCount.
    pose proof (length_filter
      (λ s, i ∈ keptIndices t idxer threshold diagonalScore s) db). lia. }
  rewrite <- Ht in Hcount. cbn [app] in Hcells1.
  eexists _, _. split; [exact Hcount|]. split; [exact Hcells1|].
  split; [exact Hlast1|]. split; [done|]. by rewrite length_fmap.
Qed.

(** The k-mer (0,1), index 1, is kept by both sequences, although the
    second holds it twice. *)
Lemma countAll_bucket_counts_witness :
  ∃ counted,
    countAll (emptyTable 17 0)
      [sequence2 0 [0; 1; 2; 3]; sequence2 1 [0; 1; 0; 1]]
      indexer4 0 (λ _, 0) = Some (counted, [3; 2])
    ∧ load (offsets counted) 1 = Some 2.
Proof.
  destruct (countAll_bucket_counts (emptyTable 17 0)
              [sequence2 0 [0; 1; 2; 3]; sequence2 1 [0; 1; 0; 1]]
              indexer4 0 (λ _, 0))
    as (counted & counts & Hcount & Hcells & _).
  - cbn. unfold UINT_MAX. lia.
  - reflexivity.
  - unfold fitsTable. cbn. repeat constructor; by vm_compute.
  - cbn. lia.
  - pose proof Hcount as Hc. vm_compute in Hc. injection Hc as _ <-.
    exists counted. split; [exact Hcount|].
    rewrite (Hcells 1) by (cbn; lia). reflexivity.
Defined.

(** ** The comparator of the fill buffer *)

(** X6. [comapreByIdAndPos] is a strict weak ordering, as [std::sort]
    requires: irreflexive, asymmetric and transitive, with a transitive
    equivalence.  Two buffer elements are equivalent exactly when they
    agree in k-mer and position: the sequence id does not enter the
    comparison. *)
Theorem comapreByIdAndPos_strict_weak_order :
  (∀ x, comapreByIdAndPos x x = false)
  ∧ (∀ x y, comapreByIdAndPos x y = true → comapreByIdAndPos y x = false)
  ∧ (∀ x y z, comapreByIdAndPos x y = true → comapreByIdAndPos y z = true →
       comapreByIdAndPos x z = true)
  ∧ (∀ x y, comapreByIdAndPos x y = false ∧ comapreByIdAndPos y x = false
       ↔ kmer x = kmer y ∧ tmp_position_j x = tmp_position_j y)
  ∧ (∀ x y z, comapreByIdAndPos x y = false → comapreByIdAndPos y x = false →
       comapreByIdAndPos y z = false → comapreByIdAndPos z y = false →
       comapreByIdAndPos x z = false ∧ comapreByIdAndPos z x = false).
Proof.
  unfold comapreByIdAndPos.
  split; [|split; [|split; [|split]]].
  - intros x. by rewrite !Z.ltb_irrefl.
  - intros x y.
    destruct (Z.ltb_spec (kmer x) (kmer y)), (Z.ltb_spec (kmer y) (kmer x)),
      (Z.ltb_spec (tmp_position_j x) (tmp_position_j y)),
      (Z.ltb_spec (tmp_position_j y) (tmp_position_j x)); done || lia.
  - intros x y z.
    destruct (Z.ltb_spec (kmer x) (kmer y)), (Z.ltb_spec (kmer y) (kmer x)),
      (Z.ltb_spec (kmer y) (kmer z)), (Z.ltb_spec (kmer z) (kmer y)),
      (Z.ltb_spec (kmer x) (kmer z)), (Z.ltb_spec (kmer z) (kmer x)),
      (Z.ltb_spec (tmp_position_j x) (tmp_position_j y)),
      (Z.ltb_spec (tmp_position_j y) (tmp_position_j x)),
      (Z.ltb_spec (tmp_position_j y) (tmp_position_j z)),
      (Z.ltb_spec (tmp_position_j z) (tmp_position_j y)),
      (Z.ltb_spec (tmp_position_j x) (tmp_position_j z)),
      (Z.ltb_spec (tmp_position_j z) (tmp_position_j x)); done || lia.
  - intros x y.
    destruct (Z.ltb_spec (kmer x) (kmer y)), (Z.ltb_spec (kmer y) (kmer x)),
      (Z.ltb_spec (tmp_position_j x) (tmp_position_j y)),
      (Z.ltb_spec (tmp_position_j y) (tmp_position_j x));
      split; intros [? ?]; (done || lia || (split; lia)).
  - intros x y z.
    destruct (Z.ltb_spec (kmer x) (kmer y)), (Z.ltb_spec (kmer y) (kmer x)),
      (Z.ltb_spec (kmer y) (kmer z)), (Z.ltb_spec (kmer z) (kmer y)),
      (Z.ltb_spec (kmer x) (kmer z)), (Z.ltb_spec (kmer z) (kmer x)),
      (Z.ltb_spec (tmp_position_j x) (tmp_position_j y)),
      (Z.ltb_spec (tmp_position_j y) (tmp_position_j x)),
      (Z.ltb_spec (tmp_position_j y) (tmp_position_j z)),
      (Z.ltb_spec (tmp_position_j z) (tmp_position_j y)),
      (Z.ltb_spec (tmp_position_j x) (tmp_position_j z)),
      (Z.ltb_spec (tmp_position_j z) (tmp_position_j x));
      done || lia.
Qed.

(** ** Calls that find nothing to do *)

Lemma loads_equal (l l' : list Z) :
  length l' = length l → (∀ i, load l' i = load l i) → l' = l.
Proof.
  intros Hlen Hload. apply list_eq. intros j.
  by rewrite <- !load_lookup.
Qed.

(** X7. A sequence without an eligible k-mer (no window of [kmerSize]
    symbols, or every k-mer outside the window of the worker, in a masked
    bucket or below the threshold) is filled without any effect:
    [addSequence] stores nothing and leaves offsets and entries as they
    are. *)
Theorem addSequence_nothing_eligible (t : IndexTable) (s : Sequence)
    (idxer : Indexer) (aaFrom aaSize threshold : Z) (diagonalScore : Z → Z) :
  tableShape t →
  fitsTable t idxer s →
  0 ≤ aaFrom → 0 ≤ aaSize → aaFrom + aaSize < 2 ^ 64 →
  eligibleOccurrences t idxer aaFrom aaSize threshold diagonalScore s = [] →
  addSequence t s idxer aaFrom aaSize threshold diagonalScore = Some (t, []).
Proof.
  intros Hshape Hfit HaF HaS Hwin Hnone.
  destruct (addSequence_run t s idxer aaFrom aaSize threshold diagonalScore)
    as (offs' & ws & -> & Hlen & _ & Hkeys & _ & Hout & _); try done.
  { rewrite Hnone. by intros i cur ?%elem_of_nil. }
  rewrite Hnone in Hkeys, Hout.
  assert (ws = []) as ->.
  { destruct ws as [|w ws]; [done|].
    destruct (Hkeys (w_kmer w)) as [Hin _].
    exfalso. eapply elem_of_nil, Hin. by left. }
  assert (offs' = offsets t) as ->.
  { apply loads_equal; [done|]. intros i. apply Hout. apply not_elem_of_nil. }
  by destruct t.
Qed.

(** The bucket of the only k-mer of the sequence is masked. *)
Lemma addSequence_nothing_eligible_witness :
  addSequence maskedTable (sequence2 1 [0; 1]) indexer4 0 16 0 (λ _, 0)
  = Some (maskedTable, []).
Proof.
  apply (addSequence_nothing_eligible maskedTable (sequence2 1 [0; 1])
           indexer4 0 16 0 (λ _, 0)).
  - split; [cbn; unfold UINT_MAX; lia | reflexivity].
  - unfold fitsTable. cbn. repeat constructor; by vm_compute.
  - lia.
  - lia.
  - lia.
  - by vm_compute.
Defined.

(** X8. A sequence none of whose k-mers is kept by the score filter (or
    that has no k-mer at all) is counted as 0 and leaves every cell as it
    is. *)
Theorem addKmerCount_nothing_kept (t : IndexTable) (s : Sequence)
    (idxer : Indexer) (threshold : Z) (diagonalScore : Z → Z) :
  tableShape t →
  fitsTable t idxer s →
  keptIndices t idxer threshold diagonalScore s = [] →
  addKmerCount t s idxer threshold diagonalScore = Some (t, 0).
Proof.
  intros Hshape Hfit Hnone.
  destruct (addKmerCount_run t s idxer threshold diagonalScore)
    as (offs' & -> & Hlen & _ & Hout); try done.
  rewrite Hnone in Hout |- *.
  assert (offs' = offsets t) as ->.
  { apply loads_equal; [done|]. intros i. apply Hout. apply not_elem_of_nil. }
  by destruct t.
Qed.

(** No k-mer of the sequence reaches the threshold. *)
Lemma addKmerCount_nothing_kept_witness :
  addKmerCount (emptyTable 17 0) (sequence2 0 [0; 1; 2; 3]) indexer4 5 (λ _, 2)
  = Some (emptyTable 17 0, 0).
Proof.
  apply (addKmerCount_nothing_kept (emptyTable 17 0)
           (sequence2 0 [0; 1; 2; 3]) indexer4 5 (λ _, 2)).
  - split; [cbn; unfold UINT_MAX; lia | reflexivity].
  - unfold fitsTable. cbn. repeat constructor; by vm_compute.
  - by vm_compute.
Defined.

(** ** Counted and stored postings of one sequence *)

(** X9. For every window and every state of the masks, [addSequence]
    stores for a sequence at most as many postings as [addKmerCount]
    returned for it under the same threshold and diagonal scores: the fill
    pass of one sequence never needs more slots than were counted. *)
Theorem addSequence_stores_at_most_counted (t1 t3 : IndexTable) (s : Sequence)
    (idxer : Indexer) (aaFrom aaSize threshold : Z) (diagonalScore : Z → Z) :
  tableShape t1 → tableShape t3 →
  kmerSize t3 = kmerSize t1 →
  fitsTable t1 idxer s → fitsTable t3 idxer s →
  0 ≤ aaFrom → 0 ≤ aaSize → aaFrom + aaSize < 2 ^ 64 →
  (∀ i cur,
     i ∈ (eligibleOccurrences t3 idxer aaFrom aaSize threshold
            diagonalScore s).*1 →
     load (offsets t3) i = Some cur →
     0 ≤ cur < Z.of_nat (length (entries t3))) →
  ∃ counted n filled ws,
    addKmerCount t1 s idxer threshold diagonalScore = Some (counted, n)
    ∧ addSequence t3 s idxer aaFrom aaSize threshold diagonalScore
      = Some (filled, ws)
    ∧ Z.of_nat (length ws) ≤ n.
Proof.
  intros Hshape1 Hshape3 Hk Hfit1 Hfit3 HaF HaS Hwin Hslots.
  destruct (addKmerCount_run t1 s idxer threshold diagonalScore)
    as (offs1 & Hcount & _); [done..|].
  destruct (addSequence_run t3 s idxer aaFrom aaSize threshold diagonalScore)
    as (offs3 & ws & Hfill & _ & Hnd & Hkeys & _); [done..|].
  eexists _, _, _, ws. split; [exact Hcount|]. split; [exact Hfill|].
  apply inj_le. rewrite <- (length_fmap w_kmer ws).
  apply submseteq_length, NoDup_submseteq; [done|].
  intros i Hi%Hkeys. apply elem_of_remove_dups.
  unfold eligibleOccurrences in Hi.
  rewrite <- list_fmap_compose in Hi.
  apply list_elem_of_fmap in Hi as (w & -> & Hw).
  apply list_elem_of_filter in Hw as [(_ & _ & Hkept) Hw].
  unfold keptIndices. apply list_elem_of_fmap. exists w.
  split; [cbn; by rewrite Hk|]. by apply list_elem_of_filter.
Qed.

(** Counted on the empty table, filled into a table in which the buckets of
    two of the three k-mers are masked. *)
Lemma addSequence_stores_at_most_counted_witness :
  ∃ counted filled,
    addKmerCount (emptyTable 17 0) (sequence2 0 [0; 2; 0; 1]) indexer4 0 (λ _, 0)
    = Some (counted, 3)
    ∧ addSequence maskedTable (sequence2 0 [0; 2; 0; 1]) indexer4 0 16 0 (λ _, 0)
      = Some (filled, [mkWrite 2 0 (mkIndexEntryLocal 0 0)]).
Proof.
  destruct (addSequence_stores_at_most_counted (emptyTable 17 0) maskedTable
              (sequence2 0 [0; 2; 0; 1]) indexer4 0 16 0 (λ _, 0))
    as (counted & n & filled & ws & Hcount & Hfill & _).
  - split; [cbn; unfold UINT_MAX; lia | reflexivity].
  - split; [cbn; unfold UINT_MAX; lia | reflexivity].
  - reflexivity.
  - unfold fitsTable. cbn. repeat constructor; by vm_compute.
  - unfold fitsTable. cbn. repeat constructor; by vm_compute.
  - lia.
  - lia.
  - lia.
  - intros i cur Hi. vm_compute in Hi.
    apply list_elem_of_singleton in Hi as ->. intros [= <-]. cbn. lia.
  - pose proof Hcount as Hc. vm_compute in Hc. injection Hc as _ <-.
    pose proof Hfill as Hf. vm_compute in Hf. injection Hf as _ <-.
    exists counted, filled. split; [exact Hcount | exact Hfill].
Defined.

(** ** k-mer size and its bound *)

(** X10. For a residue count below [SIZE_MAX - 1], the k-mer size chosen by
    [computeKmerSize] is one for which [getUpperBoundAACountForKmerSize]
    returns a bound, the residue count lies below that bound, and no
    smaller k-mer size has a bound above the residue count. *)
Theorem computeKmerSize_within_bound (aaSize : Z) :
  0 ≤ aaSize < SIZE_MAX - 1 →
  ∃ k bound,
    computeKmerSize aaSize = Returns k
    ∧ getUpperBoundAACountForKmerSize k = Returns bound
    ∧ aaSize < bound
    ∧ ∀ k' bound', getUpperBoundAACountForKmerSize k' = Returns bound' →
        aaSize < bound' → k ≤ k'.
Proof.
  intros Hsize. unfold computeKmerSize, getUpperBoundAACountForKmerSize.
  rewrite decide_True by done.
  destruct (decide (aaSize < 3350000000)) as [Hlt|Hge].
  - exists 6, 3350000000. rewrite decide_True by done.
    split; [done|]. split; [done|]. split; [done|].
    intros k' bound'. repeat case_decide; try done; lia.
  - exists 7, (SIZE_MAX - 1). rewrite decide_False, decide_True by done.
    split; [done|]. split; [done|]. split; [lia|].
    intros k' bound'. repeat case_decide; try done; [|lia].
    intros [= <-]. lia.
Qed.

Lemma computeKmerSize_within_bound_witness :
  ∃ k bound,
    computeKmerSize 3350000000 = Returns k
    ∧ getUpperBoundAACountForKmerSize k = Returns bound
    ∧ 3350000000 < bound
    ∧ ∀ k' bound', getUpperBoundAACountForKmerSize k' = Returns bound' →
        3350000000 < bound' → k ≤ k'.
Proof.
  apply (computeKmerSize_within_bound 3350000000).
  unfold SIZE_MAX. lia.
Defined.

(** ** Neighbourhood variants: counted and stored postings *)

Lemma similarCountScan_bind kmerGenerator stream :
  similarCountScan kmerGenerator stream
  = stream ≫= λ w, generateKmerList kmerGenerator w.1.
Proof.
  induction stream as [|[kmer pos] stream IH]; [done|].
  cbn [similarCountScan]. by rewrite IH.
Qed.

Lemma similarFillInner_taken t id pos aaFrom aaSize index :
  tableShape t →
  0 ≤ aaFrom → 0 ≤ aaSize → aaFrom + aaSize < 2 ^ 64 →
  Forall (λ i, 0 ≤ i < tableSize t) index →
  similarFillInner (offsets t) id pos aaFrom aaSize index
  = Some (tmpOf id <$> ((λ i, (i, pos)) <$> filter (taken t aaFrom aaSize) index)).
Proof.
  intros Hshape HaF HaS Hwin Hidx.
  induction Hidx as [|i index Hi _ IH]; [done|].
  cbn [similarFillInner]. rewrite IH. clear IH.
  pose proof (inWindow_spec aaFrom aaSize i HaF HaS Hwin) as Hw.
  destruct (inWindow aaFrom aaSize i) eqn:Hin.
  - destruct (regionMasked_spec t i Hshape Hi) as (lo & n & _ & Hlen & ->).
    cbn [mbind option_bind].
    destruct (decide (n = 0)) as [->|Hn].
    + rewrite bool_decide_eq_true_2 by done.
      rewrite filter_cons_False; [done|]. intros [_ Hm]. by apply Hm.
    + rewrite bool_decide_eq_false_2 by done. cbn [mbind option_bind].
      rewrite filter_cons_True; [done|]. split; [by apply Hw|].
      unfold masked. rewrite Hlen. by intros [=].
  - rewrite filter_cons_False; [done|]. intros [Hr _].
    apply Hw in Hr. congruence.
Qed.

Lemma similarFillScan_taken t s kmerGenerator aaFrom aaSize :
  tableShape t → generatesInto t kmerGenerator s →
  0 ≤ aaFrom → 0 ≤ aaSize → aaFrom + aaSize < 2 ^ 64 →
  similarFillScan (offsets t) (getId s) kmerGenerator aaFrom aaSize
    (kmerStream s)
  = Some (tmpOf (getId s)
            <$> similarOccurrences t kmerGenerator aaFrom aaSize s).
Proof.
  intros Hshape Hgen HaF HaS Hwin.
  unfold generatesInto, similarOccurrences in *.
  induction (kmerStream s) as [|[kmer pos] stream IH]; [done|].
  cbn [similarCountScan] in Hgen. apply Forall_app in Hgen as [Hhere Hlater].
  cbn [similarFillScan].
  rewrite similarFillInner_taken by done. cbn [mbind option_bind].
  rewrite IH by done. cbn [mbind option_bind].
  by rewrite bind_cons, fmap_app.
Qed.

Lemma similarOccurrences_keys t kmerGenerator aaFrom aaSize s i :
  i ∈ (similarOccurrences t kmerGenerator aaFrom aaSize s).*1
  ↔ i ∈ similarCountScan kmerGenerator (kmerStream s)
    ∧ taken t aaFrom aaSize i.
Proof.
  unfold similarOccurrences. rewrite similarCountScan_bind.
  rewrite list_elem_of_fmap. setoid_rewrite list_elem_of_bind. split.
  - intros (o & -> & w & Ho & Hw).
    apply list_elem_of_fmap in Ho as (j & -> & Hj).
    apply list_elem_of_filter in Hj as [Ht Hj]. cbn. split; [|done].
    by exists w.
  - intros [(w & Hi & Hw) Ht]. exists (i, w.2). split; [done|].
    exists w. split; [|done]. apply list_elem_of_fmap. exists i.
    split; [done|]. by apply list_elem_of_filter.
Qed.

(** X11. [addSimilarKmerCount] returns the number of distinct k-mer indices
    that the generator yields over all windows of the sequence, and adds
    one, in [size_t], to the cell of each of them, whatever the number of
    windows that generate it; every other cell stays. *)
Theorem addSimilarKmerCount_distinct (t : IndexTable) (s : Sequence)
    (kmerGenerator : KmerGenerator) (idxer : Indexer)
    (threshold : Z) (diagonalScore : Z → Z) :
  tableShape t →
  generatesInto t kmerGenerator s →
  ∃ offs',
    addSimilarKmerCount t s kmerGenerator idxer threshold diagonalScore
    = Some (set_offsets t offs',
            Z.of_nat (length (remove_dups
                        (similarCountScan kmerGenerator (kmerStream s)))))
    ∧ length offs' = length (offsets t)
    ∧ (∀ i v, i ∈ similarCountScan kmerGenerator (kmerStream s) →
         load (offsets t) i = Some v →
         load offs' i = Some (wrap64 (v + 1)))
    ∧ (∀ i, i ∉ similarCountScan kmerGenerator (kmerStream s) →
         load offs' i = load (offsets t) i).
Proof.
  intros [Hsize Hcells] Hgen. unfold addSimilarKmerCount.
  destruct (countPass_spec (offsets t)
              (similarCountScan kmerGenerator (kmerStream s)))
    as (offs' & -> & Hlen & Hin & Hout).
  { eapply list.Forall_impl; [exact Hgen|]. cbn. intros i Hi.
    unfold UINT_MAX in *. lia. }
  cbn. exists offs'. split; [done|]. split; [done|]. split; [|done].
  intros i v Hi Hv. destruct (Hin i Hi) as (v' & Hv' & ->). congruence.
Qed.

(** The windows (0,1), (1,0) of 0,1,0 generate the indices 1, 4, 4, 1: two
    distinct ones. *)
Lemma addSimilarKmerCount_distinct_witness :
  ∃ counted,
    addSimilarKmerCount (emptyTable 17 0) (sequence2 0 [0; 1; 0])
      swapGenerator indexer4 0 (λ _, 0) = Some (counted, 2)
    ∧ load (offsets counted) 1 = Some 1
    ∧ load (offsets counted) 4 = Some 1.
Proof.
  destruct (addSimilarKmerCount_distinct (emptyTable 17 0)
              (sequence2 0 [0; 1; 0]) swapGenerator indexer4 0 (λ _, 0))
    as (offs' & Hrun & _ & Hin & _).
  - split; [cbn; unfold UINT_MAX; lia | reflexivity].
  - unfold generatesInto. cbn. repeat constructor; by vm_compute.
  - eexists. split; [exact Hrun|]. split.
    + apply (Hin 1 0); [vm_compute; by left | reflexivity].
    + apply (Hin 4 0); [vm_compute; right; by left | reflexivity].
Defined.

(** X12. [addSimilarSequence] stores exactly one posting for every
    generated k-mer index that lies in the window and whose bucket is not
    masked at the call: at the slot its cursor held, with the id of the
    sequence as an [unsigned int] and the least of the positions of the
    windows that generate the index as [unsigned short]s (the id itself
    and the least position when they are values of these types); the
    cursor of such an index is then one more, in [size_t], and every other
    cursor stays. *)
Theorem addSimilarSequence_first_occurrences (t : IndexTable) (s : Sequence)
    (kmerGenerator : KmerGenerator) (idxer : Indexer)
    (aaFrom aaSize threshold : Z) (diagonalScore : Z → Z) :
  let occ := similarOccurrences t kmerGenerator aaFrom aaSize s in
  tableShape t →
  generatesInto t kmerGenerator s →
  0 ≤ aaFrom → 0 ≤ aaSize → aaFrom + aaSize < 2 ^ 64 →
  (∀ i cur, i ∈ occ.*1 → load (offsets t) i = Some cur →
     0 ≤ cur < Z.of_nat (length (entries t))) →
  ∃ offs' ws,
    addSimilarSequence t s kmerGenerator idxer aaFrom aaSize threshold
      diagonalScore
    = Some (set_entries (set_offsets t offs') (applyWrites (entries t) ws), ws)
    ∧ NoDup (w_kmer <$> ws)
    ∧ (∀ i, i ∈ (w_kmer <$> ws)
         ↔ i ∈ similarCountScan kmerGenerator (kmerStream s)
           ∧ taken t aaFrom aaSize i)
    ∧ (∀ w, w ∈ ws →
         ∃ cur p, load (offsets t) (w_kmer w) = Some cur
           ∧ w = mkWrite (w_kmer w) cur
                   (mkIndexEntryLocal (wrap32 (getId s)) p)
           ∧ isLeast p (wrap16 <$> positionsOf (w_kmer w) occ)
           ∧ (storable s →
              wrap32 (getId s) = getId s
              ∧ isLeast p (positionsOf (w_kmer w) occ)))
    ∧ (∀ i, i ∉ (w_kmer <$> ws) → load offs' i = load (offsets t) i)
    ∧ (∀ i cur, i ∈ (w_kmer <$> ws) → load (offsets t) i = Some cur →
         load offs' i = Some (wrap64 (cur + 1))).
Proof.
  intros occ Hshape Hgen HaF HaS Hwin Hslots.
  unfold addSimilarSequence. rewrite similarFillScan_taken by done.
  cbn [mbind option_bind]. fold occ.
  assert (Hocc : ∀ i, i ∈ occ.*1 → 0 ≤ i < tableSize t).
  { intros i [Hi _]%similarOccurrences_keys.
    unfold generatesInto in Hgen. rewrite list.Forall_forall in Hgen.
    by apply Hgen. }
  assert (Hkmers : kmer <$> (tmpOf (getId s) <$> occ) = occ.*1)
    by by rewrite <- list_fmap_compose.
  destruct (fillPass_spec (offsets t) (entries t) (tmpOf (getId s) <$> occ))
    as (offs' & ws & -> & Hlen & Hnd & Hws & Hkeys & Hout & Hin).
  { intros b (o & -> & Ho)%list_elem_of_fmap. cbn.
    assert (o.1 ∈ occ.*1) as Hk by by apply list_elem_of_fmap_2.
    specialize (Hocc _ Hk). destruct Hshape as [Hsize Hcells]. split.
    - unfold UINT_MAX in *. lia.
    - destruct (load_is_Some (offsets t) o.1) as [cur Hcur]; [lia|].
      exists cur. split; [done|]. by apply (Hslots o.1). }
  rewrite Hkmers in Hkeys, Hout, Hin.
  cbn. exists offs', ws. split; [done|]. split; [done|].
  split; [|split; [|split]].
  - intros i. rewrite Hkeys. apply similarOccurrences_keys.
  - intros w Hw.
    destruct (Hws w Hw) as (h & (o & -> & Ho)%list_elem_of_fmap & -> & Hmin).
    assert (o.1 ∈ occ.*1) as Hk by by apply list_elem_of_fmap_2.
    specialize (Hocc _ Hk). destruct Hshape as [Hsize Hcells].
    destruct (load_is_Some (offsets t) o.1) as [cur Hcur]; [lia|].
    assert (Hleast : isLeast (wrap16 o.2) (wrap16 <$> positionsOf o.1 occ)).
    { split.
      - apply list_elem_of_fmap_2, elem_of_positionsOf. by destruct o.
      - intros x (p & -> & Hp%elem_of_positionsOf)%list_elem_of_fmap.
        apply (Hmin (tmpOf (getId s) (o.1, p))); [|done].
        by apply list_elem_of_fmap_2. }
    exists cur, (wrap16 o.2). cbn. split; [done|]. split; [|split; [done|]].
    + unfold writeOf. cbn. by rewrite Hcur.
    + intros [Hid Hpos]. split; [by apply wrap32_small|].
      rewrite <- (fmap_wrap16_storable (positionsOf o.1 occ)); [done|].
      rewrite list.Forall_forall in Hpos. apply list.Forall_forall.
      intros p Hp%elem_of_positionsOf. unfold occ, similarOccurrences in Hp.
      apply list_elem_of_bind in Hp as (w0 & Hp & Hw0).
      apply list_elem_of_fmap in Hp as (j & [= _ ->] & _). by apply Hpos.
  - intros i Hi. apply Hout. by rewrite <- Hkeys.
  - intros i cur Hi. apply Hin. by rewrite <- Hkeys.
Qed.

(** The windows (0,1) at position 0 and (1,0) at position 1 both generate
    the indices 1 and 4; each is stored once, at position 0. *)
Lemma addSimilarSequence_first_occurrences_witness :
  ∃ filled,
    addSimilarSequence
      (mkIndexTable 16 4 2 false (replicate 2 (mkIndexEntryLocal 9 9))
         [0; 0; 1; 1; 1; 2; 2; 2; 2; 2; 2; 2; 2; 2; 2; 2; 2])
      (sequence2 7 [0; 1; 0]) swapGenerator indexer4 0 16 0 (λ _, 0)
    = Some (filled, [mkWrite 1 0 (mkIndexEntryLocal 7 0);
                     mkWrite 4 1 (mkIndexEntryLocal 7 0)])
    ∧ entries filled = [mkIndexEntryLocal 7 0; mkIndexEntryLocal 7 0].
Proof.
  destruct (addSimilarSequence_first_occurrences
              (mkIndexTable 16 4 2 false (replicate 2 (mkIndexEntryLocal 9 9))
                 [0; 0; 1; 1; 1; 2; 2; 2; 2; 2; 2; 2; 2; 2; 2; 2; 2])
              (sequence2 7 [0; 1; 0]) swapGenerator indexer4 0 16 0 (λ _, 0))
    as (offs' & ws & Hrun & _).
  - split; [cbn; unfold UINT_MAX; lia | reflexivity].
  - unfold generatesInto. cbn. repeat constructor; by vm_compute.
  - lia.
  - lia.
  - lia.
  - intros i cur Hi. vm_compute in Hi.
    repeat (apply elem_of_cons in Hi as [->|Hi]; [intros [= <-]; cbn; lia|]).
    by apply elem_of_nil in Hi.
  - pose proof Hrun as Hr. vm_compute in Hr. injection Hr.
    intros Hws _ _. subst ws.
    eexists. split; [exact Hrun | reflexivity].
Defined.

(** X13. Parity of the neighbourhood variants: with the full window and no
    generated index in a masked bucket, [addSimilarSequence] stores for a
    sequence as many postings as [addSimilarKmerCount] returned for it.
    The postings counted are stores into [entries]: the new [entries]
    array is the old one with these postings stored, each for another
    k-mer, at the slot the cursor of its k-mer held and with the id of the
    sequence; the cursor of each of these k-mers is then one more, in
    [size_t], and every other cursor stays. *)
Theorem similar_count_fill_parity (t1 t3 : IndexTable) (s : Sequence)
    (kmerGenerator : KmerGenerator) (idxer : Indexer)
    (threshold : Z) (diagonalScore : Z → Z) :
  tableShape t1 → tableShape t3 →
  tableSize t3 = tableSize t1 →
  generatesInto t1 kmerGenerator s →
  (∀ i, i ∈ similarCountScan kmerGenerator (kmerStream s) →
     ¬ masked (offsets t3) i) →
  (∀ i cur, i ∈ similarCountScan kmerGenerator (kmerStream s) →
     load (offsets t3) i = Some cur →
     0 ≤ cur < Z.of_nat (length (entries t3))) →
  ∃ counted n filled ws,
    addSimilarKmerCount t1 s kmerGenerator idxer threshold diagonalScore
    = Some (counted, n)
    ∧ addSimilarSequence t3 s kmerGenerator idxer 0 (tableSize t3) threshold
        diagonalScore
      = Some (filled, ws)
    ∧ n = Z.of_nat (length ws)
    ∧ entries filled = applyWrites (entries t3) ws
    ∧ NoDup (w_kmer <$> ws)
    ∧ (∀ w, w ∈ ws →
         ∃ cur, load (offsets t3) (w_kmer w) = Some cur
              ∧ w_slot w = cur
              ∧ seqId (w_entry w) = wrap32 (getId s)
              ∧ load (offsets filled) (w_kmer w) = Some (wrap64 (cur + 1)))
    ∧ (∀ i, i ∉ (w_kmer <$> ws) → load (offsets filled) i = load (offsets t3) i).
Proof.
  intros Hshape1 Hshape3 Hsz Hgen Hunmasked Hslots.
  assert (Hgen3 : generatesInto t3 kmerGenerator s).
  { unfold generatesInto in *. by rewrite Hsz. }
  destruct (addSimilarKmerCount_run t1 s kmerGenerator idxer threshold
              diagonalScore) as (offs1 & Hcount & _).
  { destruct Hshape1 as [Hsize Hcells].
    eapply list.Forall_impl; [exact Hgen|]. cbn. intros i Hi.
    unfold UINT_MAX in *. lia. }
  assert (Hkeys3 : ∀ i,
            i ∈ (similarOccurrences t3 kmerGenerator 0 (tableSize t3) s).*1
            ↔ i ∈ similarCountScan kmerGenerator (kmerStream s)).
  { intros i. rewrite similarOccurrences_keys. split; [tauto|].
    intros Hi. split; [done|]. split; [|by apply Hunmasked].
    unfold generatesInto in Hgen3. rewrite list.Forall_forall in Hgen3.
    specialize (Hgen3 i Hi). lia. }
  destruct Hshape3 as [Hsize3 Hcells3].
  pose proof (similarFillScan_taken t3 s kmerGenerator 0 (tableSize t3)
                (conj Hsize3 Hcells3) Hgen3 ltac:(lia) ltac:(lia)
                ltac:(unfold UINT_MAX in *; lia)) as Hscan.
  set (occ := similarOccurrences t3 kmerGenerator 0 (tableSize t3) s) in *.
  assert (Hkmers : kmer <$> (tmpOf (getId s) <$> occ) = occ.*1)
    by by rewrite <- list_fmap_compose.
  destruct (fillPass_spec (offsets t3) (entries t3) (tmpOf (getId s) <$> occ))
    as (offs' & ws & Hwalk & _ & Hnd & Hws & Hkeys & Hout & Hin).
  { intros b (o & -> & Ho)%list_elem_of_fmap. cbn.
    assert (o.1 ∈ similarCountScan kmerGenerator (kmerStream s)) as Hk
      by by apply Hkeys3, list_elem_of_fmap_2.
    unfold generatesInto in Hgen3. rewrite list.Forall_forall in Hgen3.
    specialize (Hgen3 _ Hk). split.
    - unfold UINT_MAX in *. lia.
    - destruct (load_is_Some (offsets t3) o.1) as [cur Hcur]; [lia|].
      exists cur. split; [done|]. by apply (Hslots o.1). }
  rewrite Hkmers in Hkeys, Hout, Hin.
  eexists _, _, _, ws. split; [exact Hcount|]. split.
  { unfold addSimilarSequence. rewrite Hscan. cbn [mbind option_bind].
    rewrite Hwalk. done. }
  cbn [entries offsets set_entries set_offsets].
  split; [|split; [done|split; [done|split]]].
  - f_equal. rewrite <- (length_fmap w_kmer ws).
    apply Permutation_length, NoDup_Permutation;
      [apply NoDup_remove_dups | done |].
    intros i. by rewrite elem_of_remove_dups, Hkeys, Hkeys3.
  - intros w Hw.
    destruct (Hws w Hw) as (h & (o & -> & Ho)%list_elem_of_fmap & -> & _).
    assert (o.1 ∈ occ.*1) as Hk by by apply list_elem_of_fmap_2.
    assert (0 ≤ o.1 < tableSize t3) as Hr.
    { apply Hkeys3 in Hk. unfold generatesInto in Hgen3.
      rewrite list.Forall_forall in Hgen3. by apply Hgen3. }
    destruct (load_is_Some (offsets t3) o.1) as [cur Hcur]; [lia|].
    exists cur. cbn. split; [done|]. split.
    { unfold writeOf. cbn. by rewrite Hcur. }
    split; [done|]. by apply Hin.
  - intros i Hi. apply Hout. by rewrite <- Hkeys.
Qed.

Lemma similar_count_fill_parity_witness :
  ∃ counted filled ws,
    addSimilarKmerCount (emptyTable 17 0) (sequence2 7 [0; 1; 0])
      swapGenerator indexer4 0 (λ _, 0) = Some (counted, 2)
    ∧ addSimilarSequence
        (mkIndexTable 16 4 2 false (replicate 2 (mkIndexEntryLocal 9 9))
           [0; 0; 1; 1; 1; 2; 2; 2; 2; 2; 2; 2; 2; 2; 2; 2; 2])
        (sequence2 7 [0; 1; 0]) swapGenerator indexer4 0 16 0 (λ _, 0)
      = Some (filled, ws)
    ∧ length ws = 2%nat.
Proof.
  destruct (similar_count_fill_parity (emptyTable 17 0)
              (mkIndexTable 16 4 2 false (replicate 2 (mkIndexEntryLocal 9 9))
                 [0; 0; 1; 1; 1; 2; 2; 2; 2; 2; 2; 2; 2; 2; 2; 2; 2])
              (sequence2 7 [0; 1; 0]) swapGenerator indexer4 0 (λ _, 0))
    as (counted & n & filled & ws & Hcount & Hfill & Hn & _).
  - split; [cbn; unfold UINT_MAX; lia | reflexivity].
  - split; [cbn; unfold UINT_MAX; lia | reflexivity].
  - reflexivity.
  - unfold generatesInto. cbn. repeat constructor; by vm_compute.
  - intros i Hi. vm_compute in Hi.
    repeat (apply elem_of_cons in Hi as [->|Hi]; [by vm_compute|]).
    by apply elem_of_nil in Hi.
  - intros i cur Hi. vm_compute in Hi.
    repeat (apply elem_of_cons in Hi as [->|Hi]; [intros [= <-]; cbn; lia|]).
    by apply elem_of_nil in Hi.
  - pose proof Hcount as Hc. vm_compute in Hc. injection Hc as _ <-.
    exists counted, filled, ws. split; [exact Hcount|].
    split; [exact Hfill|]. lia.
Defined.

Lemma wrap64_range z : 0 ≤ wrap64 z < 2 ^ 64.
Proof. apply Z.mod_pos_bound. lia. Qed.

Lemma wrap64_telescope a b c :
  wrap64 (wrap64 (a - c) + wrap64 (b - a)) = wrap64 (b - c).
Proof.
  unfold wrap64. rewrite <- Z.add_mod by lia. f_equal. lia.
Qed.

Lemma topInsert_length top size i :
  length (topInsert top size i) = length top.
Proof.
  induction top as [|e rest IH]; [done|].
  cbn [topInsert]. case_decide; cbn [length]; congruence.
Qed.

Lemma topInsert_Forall (P : Z * Z → Prop) top size i :
  Forall P top → P (size, i) → Forall P (topInsert top size i).
Proof.
  intros Htop Hnew. induction Htop as [|e rest He Hrest IH]; [constructor|].
  cbn [topInsert]. case_decide; constructor; done.
Qed.

Lemma topInsert_sorted top size i :
  StronglySorted (λ a b : Z * Z, b.1 ≤ a.1) top →
  StronglySorted (λ a b : Z * Z, b.1 ≤ a.1) (topInsert top size i).
Proof.
  induction 1 as [|e rest Hsorted IH Hle]; [constructor|].
  cbn [topInsert]. case_decide as Hlt.
  - constructor; [done|]. eapply list.Forall_impl; [exact Hle|].
    cbn. intros b Hb. lia.
  - constructor; [done|]. apply topInsert_Forall; [done|]. cbn. lia.
Qed.

Lemma topInsert_head top size i e :
  head top = Some e →
  ∃ e', head (topInsert top size i) = Some e' ∧ e.1 ≤ e'.1 ∧ size ≤ e'.1.
Proof.
  destruct top as [|e0 rest]; [done|]. intros [= ->].
  cbn [topInsert]. case_decide.
  - exists (size, i). cbn. split; [done|]. lia.
  - exists e. cbn. split; [done|]. lia.
Qed.

Lemma topInsert_elem_of top size i e :
  e ∈ topInsert top size i → e = (size, i) ∨ e ∈ top.
Proof.
  induction top as [|e0 rest IH]; [by intros ?%elem_of_nil|].
  cbn [topInsert]. case_decide.
  - intros [->|He]%elem_of_cons; [by left|]. right. by right.
  - intros [->|He]%elem_of_cons; [right; by left|].
    destruct (IH He) as [->|?]; [by left|]. right. by right.
Qed.

Lemma sorted_last_le_head (top : list (Z * Z)) e l :
  StronglySorted (λ a b : Z * Z, b.1 ≤ a.1) top →
  head top = Some e → l ∈ top → l.1 ≤ e.1.
Proof.
  destruct 1 as [|e0 rest _ Hle]; [done|]. intros [= ->].
  intros [->|Hl]%elem_of_cons; [lia|].
  rewrite list.Forall_forall in Hle. by apply Hle.
Qed.

Lemma statisticsStep_tallied offs n i st :
  Z.of_nat (length offs) = n + 1 → 0 ≤ i < n → n ≤ UINT_MAX →
  tallied offs i st →
  ∃ st', statisticsStep offs st i = Some st' ∧ tallied offs (i + 1) st'.
Proof.
  intros Hlen Hi Hn
    ((first & cur & Hfirst & Hcur & Hentry) & Hmin & Hempty & Htop
     & Hsorted & Hmax & Hreal).
  unfold statisticsStep. rewrite Hcur.
  destruct (load_is_Some offs (i + 1)) as [hi Hhi]; [lia|].
  rewrite Hhi. cbn [mbind option_bind].
  destruct (load_is_Some (topElements st) (top_N - 1)) as [least Hleast];
    [unfold top_N in *; lia|].
  rewrite Hleast. cbn [mbind option_bind].
  assert (Hlen_i : bucketLength offs i = Some (wrap64 (hi - cur))).
  { unfold bucketLength. by rewrite Hhi, Hcur. }
  pose proof (wrap64_range (hi - cur)) as Hrange.
  assert (Hseq : seqZ 0 (i + 1) = seqZ 0 i ++ [i]).
  { rewrite seqZ_app by lia. f_equal. }
  assert (Hleast_in : least ∈ topElements st).
  { unfold load in Hleast. rewrite decide_True in Hleast by (unfold top_N; lia).
    by eapply list_elem_of_lookup_2. }
  destruct (topElements st) as [|e0 rest] eqn:Htops;
    [by apply elem_of_nil in Hleast_in|].
  rewrite <- Htops in *.
  assert (Hhead : head (topElements st) = Some e0) by by rewrite Htops.
  eexists. split; [done|]. unfold tallied.
  cbn [entrySize minKmer emptyKmer topElements].
  split; [|split; [|split; [|split; [|split; [|split]]]]].
  - exists first, hi. split; [done|]. split; [done|].
    rewrite Hentry. apply wrap64_telescope.
  - rewrite Hmin. lia.
  - rewrite Hseq, list.filter_app, length_app.
    destruct (decide (wrap64 (hi - cur) = 0)) as [Hz|Hz].
    + rewrite filter_cons_True by (by rewrite Hlen_i, Hz).
      cbn [filter length filter_nil]. rewrite Hempty.
      pose proof (length_filter (λ j, bucketLength offs j = Some 0) (seqZ 0 i)) as Hle.
      rewrite length_seqZ in Hle. unfold UINT_MAX in Hn.
      rewrite wrap64_small by lia. rewrite filter_nil. cbn [length]. lia.
    + rewrite filter_cons_False
        by (rewrite Hlen_i; intros [=]; done).
      rewrite filter_nil. cbn [length]. lia.
  - case_decide; [done|]. by rewrite topInsert_length.
  - case_decide; [done|]. by apply topInsert_sorted.
  - intros j m Hj Hm.
    pose proof (sorted_last_le_head _ e0 least Hsorted Hhead Hleast_in) as Hll.
    destruct (decide (j = i)) as [->|Hne].
    + rewrite Hlen_i in Hm. injection Hm as <-.
      case_decide.
      * exists e0. split; [done|]. lia.
      * destruct (topInsert_head (topElements st) (wrap64 (hi - cur)) i e0 Hhead)
          as (e' & He' & _ & Hge). by exists e'.
    + destruct (Hmax j m ltac:(lia) Hm) as (e & He & Hle).
      rewrite Hhead in He. injection He as <-.
      case_decide.
      * by exists e0.
      * destruct (topInsert_head (topElements st) (wrap64 (hi - cur)) i e0 Hhead)
          as (e' & He' & Hge & _). exists e'. split; [done|]. lia.
  - intros e He.
    assert (e = (wrap64 (hi - cur), i) ∨ e ∈ topElements st) as [->|Hold].
    { case_decide; [by right|]. by apply topInsert_elem_of. }
    + right. cbn. split; [lia|done].
    + destruct (Hreal e Hold) as [->|[? ?]]; [by left|]. right.
      split; [lia|done].
Qed.

Lemma statisticsLoop_tallied offs n : ∀ k i st,
  Z.of_nat (length offs) = n + 1 → n ≤ UINT_MAX →
  0 ≤ i → i + Z.of_nat k = n →
  tallied offs i st →
  ∃ st', statisticsLoop k i offs st = Some st' ∧ tallied offs n st'.
Proof.
  induction k as [|k IH]; intros i st Hlen Hn Hi Hk Hst.
  { exists st. replace n with i by lia. done. }
  destruct (statisticsStep_tallied offs n i st) as (st1 & Hstep & Hst1);
    [done | lia | done | done |].
  cbn [statisticsLoop]. rewrite Hstep. cbn [mbind option_bind].
  apply IH; [done | done | lia | lia | done].
Qed.

Lemma printStatistics_tallied (t : IndexTable) :
  tableShape t →
  ∃ st, printStatistics t = Some st ∧ tallied (offsets t) (tableSize t) st.
Proof.
  intros [Hsize Hcells]. unfold printStatistics.
  apply statisticsLoop_tallied; [done | lia | lia | lia |].
  destruct (load_is_Some (offsets t) 0) as [first Hfirst]; [lia|].
  split; [|split; [|split; [|split; [|split; [|split]]]]]; cbn.
  - exists first, first. rewrite Z.sub_diag. done.
  - done.
  - done.
  - done.
  - repeat (constructor; [|repeat constructor; cbn; lia]). constructor.
  - intros j n Hj. lia.
  - intros e He. left. by apply elem_of_replicate in He as [-> _].
Qed.

(** X14. [printStatistics] reads no cell outside the offsets; the number it
    prints as "Entries" is the last cell less the first, in [size_t];
    "Empty list" is the number of buckets of length zero; and "Min Kmer
    Size" is 0 for every table, the minimum being taken from 0 on. *)
Theorem printStatistics_totals (t : IndexTable) :
  tableShape t →
  ∃ st first total,
    printStatistics t = Some st
    ∧ load (offsets t) 0 = Some first
    ∧ load (offsets t) (tableSize t) = Some total
    ∧ entrySize st = wrap64 (total - first)
    ∧ emptyKmer st
      = Z.of_nat (length (filter (λ j, bucketLength (offsets t) j = Some 0)
                          (seqZ 0 (tableSize t))))
    ∧ minKmer st = 0.
Proof.
  intros Hshape.
  destruct (printStatistics_tallied t Hshape)
    as (st & Hrun & (first & total & Hfirst & Htotal & Hentry) & Hmin
        & Hempty & _).
  by exists st, first, total.
Qed.

(** The finished index of the sequences 0,1,2,3 and 0,1,0,1: five
    postings, twelve of the sixteen buckets empty. *)
Lemma printStatistics_totals_witness :
  ∃ st,
    printStatistics
      (mkIndexTable 16 4 2 false (replicate 5 (mkIndexEntryLocal 0 0))
         [0; 0; 2; 2; 2; 3; 3; 4; 4; 4; 4; 4; 5; 5; 5; 5; 5]) = Some st
    ∧ entrySize st = 5 ∧ emptyKmer st = 12 ∧ minKmer st = 0.
Proof.
  destruct (printStatistics_totals
              (mkIndexTable 16 4 2 false (replicate 5 (mkIndexEntryLocal 0 0))
                 [0; 0; 2; 2; 2; 3; 3; 4; 4; 4; 4; 4; 5; 5; 5; 5; 5]))
    as (st & first & total & Hrun & Hfirst & Htotal & Hentry & Hempty & Hmin).
  - split; [cbn; unfold UINT_MAX; lia | reflexivity].
  - injection Hfirst as <-. injection Htotal as <-.
    exists st. split; [exact Hrun|]. split; [exact Hentry|].
    split; [exact Hempty | exact Hmin].
Defined.

(** X15. The list that [printStatistics] prints as "Top 10 Kmers" has ten
    elements with lengths that never increase; every element other than
    the initial (0, 0) names a bucket of the table together with its
    length; and the first element holds the greatest bucket length of the
    table. *)
Theorem printStatistics_top (t : IndexTable) :
  tableShape t →
  ∃ st,
    printStatistics t = Some st
    ∧ Z.of_nat (length (topElements st)) = top_N
    ∧ StronglySorted (λ a b : Z * Z, b.1 ≤ a.1) (topElements st)
    ∧ (∀ e, e ∈ topElements st →
         e = (0, 0)
         ∨ (0 ≤ e.2 < tableSize t ∧ bucketLength (offsets t) e.2 = Some e.1))
    ∧ (∀ i n, 0 ≤ i < tableSize t → bucketLength (offsets t) i = Some n →
         ∃ e, head (topElements st) = Some e ∧ n ≤ e.1).
Proof.
  intros Hshape.
  destruct (printStatistics_tallied t Hshape)
    as (st & Hrun & _ & _ & _ & Hlen & Hsorted & Hmax & Hreal).
  by exists st.
Qed.

Lemma printStatistics_top_witness :
  ∃ st,
    printStatistics
      (mkIndexTable 16 4 2 false (replicate 5 (mkIndexEntryLocal 0 0))
         [0; 0; 2; 2; 2; 3; 3; 4; 4; 4; 4; 4; 5; 5; 5; 5; 5]) = Some st
    ∧ topElements st !! 0%nat = Some (2, 1)
    ∧ topElements st !! 1%nat = Some (1, 4).
Proof.
  destruct (printStatistics_top
              (mkIndexTable 16 4 2 false (replicate 5 (mkIndexEntryLocal 0 0))
                 [0; 0; 2; 2; 2; 3; 3; 4; 4; 4; 4; 4; 5; 5; 5; 5; 5]))
    as (st & Hrun & _).
  - split; [cbn; unfold UINT_MAX; lia | reflexivity].
  - pose proof Hrun as Hr. vm_compute in Hr. injection Hr as <-.
    eexists. split; [exact Hrun|]. split; reflexivity.
Defined.

(** ** Assembly: the choice of a fragment *)

Lemma select_cases (alignments : list result_t) (prevFound : gset Z)
    (queryKey : Z) :
  let best := selectBestExtentionFragment alignments prevFound queryKey in
  (best ∈ alignments ∧ extends prevFound queryKey best)
  ∨ (best = noFragment
     ∧ Forall (λ a, ¬ extends prevFound queryKey a) alignments).
Proof.
  induction alignments as [|a rest IH]; cbn [selectBestExtentionFragment].
  { right. split; [done | constructor]. }
  destruct (decide (extends prevFound queryKey a)) as [Hyes|Hno].
  - pose proof Hyes as (Hprev & Hend & Hkey).
    rewrite (bool_decide_eq_false_2 (dbKey a ∈ prevFound)) by done.
    rewrite bool_decide_eq_true_2 by done.
    rewrite (bool_decide_eq_true_2 (dbKey a ≠ queryKey)) by done.
    destruct Hend as [Hend|Hend].
    + rewrite (bool_decide_eq_true_2 (dbStartPos a = 0)) by done. cbn.
      left. split; [by left | done].
    + rewrite (bool_decide_eq_true_2 (qStartPos a = 0)) by done.
      rewrite orb_true_r. cbn. left. split; [by left | done].
  - assert (selectBestExtentionFragment (a :: rest) prevFound queryKey
            = selectBestExtentionFragment rest prevFound queryKey) as Hskip.
    { cbn [selectBestExtentionFragment].
      destruct (decide (dbKey a ∈ prevFound)) as [Hprev|Hprev].
      { by rewrite (bool_decide_eq_true_2 (dbKey a ∈ prevFound)) by done. }
      rewrite (bool_decide_eq_false_2 (dbKey a ∈ prevFound)) by done.
      rewrite bool_decide_eq_true_2 by done.
      destruct (_ && _) eqn:Hsel; [|done].
      apply andb_true_iff in Hsel as [Hend Hkey].
      apply orb_true_iff in Hend.
      rewrite !bool_decide_eq_true in Hend.
      rewrite bool_decide_eq_true in Hkey.
      by destruct Hno. }
    cbn [selectBestExtentionFragment] in Hskip. rewrite Hskip.
    destruct IH as [[Hin Hbest]|[Hnone Hall]].
    + left. split; [by right | done].
    + right. split; [done | by constructor].
Qed.

(** X16. [selectBestExtentionFragment] returns the first alignment, in the
    order given, whose target has not been used, that starts at the first
    residue of the query or of the target and whose target is not the
    query; when there is none it returns the value with [dbKey =
    UINT_MAX]. *)
Theorem selectBestExtentionFragment_first (alignments : list result_t)
    (prevFound : gset Z) (queryKey : Z) :
  let best := selectBestExtentionFragment alignments prevFound queryKey in
  (∃ before after,
     alignments = before ++ best :: after
     ∧ extends prevFound queryKey best
     ∧ Forall (λ a, ¬ extends prevFound queryKey a) before)
  ∨ (best = noFragment
     ∧ Forall (λ a, ¬ extends prevFound queryKey a) alignments).
Proof.
  induction alignments as [|a rest IH]; cbn [selectBestExtentionFragment].
  { right. split; [done | constructor]. }
  assert (Hrest : ¬ extends prevFound queryKey a →
    (∃ before after,
       a :: rest
       = before ++ selectBestExtentionFragment rest prevFound queryKey :: after
       ∧ extends prevFound queryKey
           (selectBestExtentionFragment rest prevFound queryKey)
       ∧ Forall (λ a, ¬ extends prevFound queryKey a) before)
    ∨ (selectBestExtentionFragment rest prevFound queryKey = noFragment
       ∧ Forall (λ a, ¬ extends prevFound queryKey a) (a :: rest))).
  { intros Hno.
    destruct IH as [(before & after & Heq & Hbest & Hbefore)|[Hnone Hall]].
    - left. exists (a :: before), after. split; [by rewrite Heq at 1|].
      split; [done|]. by constructor.
    - right. split; [done|]. by constructor. }
  destruct (decide (dbKey a ∈ prevFound)) as [Hprev|Hprev].
  { rewrite (bool_decide_eq_true_2 (dbKey a ∈ prevFound)) by done.
    cbn. apply Hrest. by intros [? _]. }
  rewrite (bool_decide_eq_false_2 (dbKey a ∈ prevFound)) by done.
  rewrite bool_decide_eq_true_2 by done.
  destruct (_ && _) eqn:Hsel.
  - apply andb_true_iff in Hsel as [Hend Hkey].
    apply orb_true_iff in Hend.
    rewrite !bool_decide_eq_true in Hend. rewrite bool_decide_eq_true in Hkey.
    left. exists [], rest. split; [done|].
    split; [exact (conj Hprev (conj Hend Hkey)) | constructor].
  - apply Hrest. intros (_ & Hend & Hkey).
    apply andb_false_iff in Hsel as [Hsel|Hsel].
    + apply orb_false_iff in Hsel as [H1 H2].
      rewrite bool_decide_eq_false in H1, H2. tauto.
    + by rewrite bool_decide_eq_false in Hsel.
Qed.

(** ** The fragments chosen for one query *)

Lemma extensionLoop_stops n alignments queryKey prevFound chosen :
  dbKey (selectBestExtentionFragment alignments prevFound queryKey) = UINT_MAX →
  extensionLoop n alignments queryKey prevFound chosen = (prevFound, chosen).
Proof.
  intros Hnone. induction n as [|n IH]; [done|].
  cbn [extensionLoop]. by rewrite decide_True.
Qed.

Lemma extensionLoop_sound alignments queryKey n : ∀ prevFound chosen,
  (∀ k, k ∈ prevFound ↔ k ∈ dbKey <$> chosen) →
  NoDup (dbKey <$> chosen) →
  (∀ c, c ∈ chosen → c ∈ alignments ∧ extends ∅ queryKey c) →
  ∃ prevFound' chosen',
    extensionLoop n alignments queryKey prevFound chosen
    = (prevFound', chosen')
    ∧ (∀ k, k ∈ prevFound' ↔ k ∈ dbKey <$> chosen')
    ∧ NoDup (dbKey <$> chosen')
    ∧ (∀ c, c ∈ chosen' → c ∈ alignments ∧ extends ∅ queryKey c).
Proof.
  induction n as [|n IH]; intros prevFound chosen Hkeys Hnd Hchosen.
  { by exists prevFound, chosen. }
  cbn [extensionLoop]. case_decide as Hmax; [by apply IH|].
  destruct (select_cases alignments prevFound queryKey)
    as [[Hin (Hnew & Hend & Hkey)]|[Hnone _]];
    [|by rewrite Hnone in Hmax].
  set (best := selectBestExtentionFragment alignments prevFound queryKey) in *.
  apply IH.
  - intros k. rewrite elem_of_union, elem_of_singleton, fmap_app, elem_of_app.
    rewrite Hkeys. cbn. rewrite list_elem_of_singleton. tauto.
  - rewrite fmap_app. apply NoDup_app. split; [done|]. split.
    + intros k Hk ->%list_elem_of_singleton. by apply Hnew, Hkeys.
    + apply NoDup_singleton.
  - intros c [Hc|Hc]%elem_of_app; [by apply Hchosen|].
    apply list_elem_of_singleton in Hc as ->.
    split; [done|]. split; [apply not_elem_of_empty | done].
Qed.

Lemma extensionLoop_progress alignments queryKey n : ∀ prevFound chosen,
  (∀ a, a ∈ alignments → dbKey a ≠ UINT_MAX) →
  let r := extensionLoop n alignments queryKey prevFound chosen in
  prevFound ⊆ r.1
  ∧ (Forall (λ a, ¬ extends r.1 queryKey a) alignments
     ∨ size r.1 = (size prevFound + n)%nat).
Proof.
  induction n as [|n IH]; intros prevFound chosen Hreal; cbn zeta.
  { cbn. split; [done|]. right. lia. }
  cbn [extensionLoop].
  destruct (select_cases alignments prevFound queryKey)
    as [[Hin (Hnew & Hend & Hkey)]|[Hnone Hall]].
  - set (best := selectBestExtentionFragment alignments prevFound queryKey)
      in *.
    rewrite decide_False by by apply Hreal.
    destruct (IH ({[dbKey best]} ∪ prevFound) (chosen ++ [best]) Hreal)
      as [Hsub Hcases].
    split.
    + etrans; [|exact Hsub]. apply union_subseteq_r.
    + destruct Hcases as [?|Hsz]; [by left|]. right. rewrite Hsz.
      rewrite size_union by (apply disjoint_singleton_l; done).
      rewrite size_singleton. lia.
  - rewrite Hnone. cbn [dbKey noFragment]. rewrite decide_True by done.
    rewrite extensionLoop_stops by by rewrite Hnone.
    cbn. split; [done|]. by left.
Qed.

(** X17. The loop of [doassembly] over the alignments of one query, no
    target having the key [UINT_MAX]: the chosen fragments are alignments
    of the query that can extend it, no target is chosen twice,
    [prevFound] holds exactly the targets chosen, and when the loop ends
    every target of an alignment that can extend the query has been
    chosen. *)
Theorem chosenFragments_spec (alignments : list result_t) (queryKey : Z) :
  (∀ a, a ∈ alignments → dbKey a ≠ UINT_MAX) →
  ∃ prevFound chosen,
    chosenFragments alignments queryKey = (prevFound, chosen)
    ∧ NoDup (dbKey <$> chosen)
    ∧ (∀ k, k ∈ prevFound ↔ k ∈ dbKey <$> chosen)
    ∧ (∀ c, c ∈ chosen → c ∈ alignments ∧ extends ∅ queryKey c)
    ∧ (∀ a, a ∈ alignments → extends ∅ queryKey a → dbKey a ∈ prevFound).
Proof.
  intros Hreal. unfold chosenFragments.
  destruct (extensionLoop_sound alignments queryKey (length alignments) ∅ [])
    as (prevFound & chosen & Hrun & Hkeys & Hnd & Hchosen).
  { intros k. cbn. split; [by intros ?%not_elem_of_empty|].
    by intros ?%elem_of_nil. }
  { constructor. }
  { by intros c ?%elem_of_nil. }
  exists prevFound, chosen. split; [done|]. split; [done|].
  split; [done|]. split; [done|].
  intros a Ha (_ & Hend & Hkey).
  pose proof (extensionLoop_progress alignments queryKey (length alignments)
                ∅ [] Hreal) as [_ Hcases].
  rewrite Hrun in Hcases. cbn in Hcases.
  destruct Hcases as [Hall|Hsize].
  - rewrite list.Forall_forall in Hall. specialize (Hall a Ha).
    destruct (decide (dbKey a ∈ prevFound)) as [|Hno]; [done|].
    destruct Hall. done.
  - rewrite size_empty in Hsize. cbn in Hsize.
    assert (prevFound ⊆ list_to_set (dbKey <$> alignments)) as Hsub.
    { intros k Hk%Hkeys. apply elem_of_list_to_set.
      apply list_elem_of_fmap in Hk as (c & -> & Hc).
      apply list_elem_of_fmap_2. by apply Hchosen. }
    assert (size (list_to_set (C := gset Z) (dbKey <$> alignments))
            ≤ length alignments)%nat as Hle.
    { rewrite <- (length_fmap dbKey alignments).
      generalize (dbKey <$> alignments). intros l.
      induction l as [|x l IHl]; [by rewrite list_to_set_nil, size_empty|].
      cbn [list_to_set length].
      rewrite size_union_alt, size_singleton.
      pose proof (subseteq_size (list_to_set l ∖ {[x]})
                    (list_to_set (C := gset Z) l)
                    ltac:(apply subseteq_difference_l; done)). lia. }
    rewrite (set_subseteq_size_eq _ _ Hsub ltac:(lia)).
    apply elem_of_list_to_set. by apply list_elem_of_fmap_2.
Qed.

(** Three alignments for the query 5: the second names the query itself,
    the first and the third extend it. *)
Lemma chosenFragments_spec_witness :
  chosenFragments [mk_result_t 8 0 3; mk_result_t 5 0 0; mk_result_t 9 4 0] 5
  = ({[8; 9]}, [mk_result_t 8 0 3; mk_result_t 9 4 0]).
Proof.
  destruct (chosenFragments_spec
              [mk_result_t 8 0 3; mk_result_t 5 0 0; mk_result_t 9 4 0] 5)
    as (prevFound & chosen & Hrun & _).
  - intros a Ha.
    repeat (apply elem_of_cons in Ha as [->|Ha]; [by vm_compute|]).
    by apply elem_of_nil in Ha.
  - reflexivity.
Defined.

(** X18. Once [selectBestExtentionFragment] returns a fragment with [dbKey
    = UINT_MAX], be it "no fragment" or an alignment whose target has that
    key, the remaining turns of the loop of [doassembly] choose nothing and
    leave [prevFound] as it is. *)
Theorem extensionLoop_ends_with_first_miss (n : nat)
    (alignments : list result_t) (queryKey : Z) (prevFound : gset Z)
    (chosen : list result_t) :
  dbKey (selectBestExtentionFragment alignments prevFound queryKey) = UINT_MAX →
  extensionLoop n alignments queryKey prevFound chosen = (prevFound, chosen).
Proof.
  intros Hmiss. induction n as [|n IH]; [done|].
  cbn [extensionLoop].
  destruct (decide (dbKey (selectBestExtentionFragment alignments prevFound
                             queryKey) = UINT_MAX)) as [_|Hne].
  - exact IH.
  - by destruct Hne.
Qed.

(** An alignment whose target has the key [UINT_MAX] is taken for "no
    fragment": the alignment behind it is never chosen. *)
Lemma extensionLoop_ends_with_first_miss_witness :
  chosenFragments [mk_result_t UINT_MAX 0 0; mk_result_t 9 4 0] 5 = (∅, []).
Proof.
  apply (extensionLoop_ends_with_first_miss 2
           [mk_result_t UINT_MAX 0 0; mk_result_t 9 4 0] 5 ∅ []).
  reflexivity.
Defined.

(** ** The printed time *)

(** X19. The hours, minutes and seconds that [assembleresult] prints add up
    to the seconds measured; for a time that is not negative the minutes
    and seconds lie in [[0, 60)], and for a negative one (the clock was set
    back) no part is positive. *)
Theorem processingTime_decomposes (sec : Z) :
  let '(h, m, s) := processingTime sec in
  h * 3600 + m * 60 + s = sec
  ∧ (0 ≤ sec → 0 ≤ h ∧ 0 ≤ m < 60 ∧ 0 ≤ s < 60)
  ∧ (sec ≤ 0 → h ≤ 0 ∧ -60 < m ≤ 0 ∧ -60 < s ≤ 0).
Proof.
  unfold processingTime. Z.to_euclidean_division_equations. lia.
Qed.

(** ** Workers with windows *)

Section windows.
Context (t : IndexTable) (idxer : Indexer).
Context (threshold : Z) (diagonalScore : Z → Z).
Hypothesis Hsize : 0 ≤ tableSize t ≤ UINT_MAX.
Context (db : list Sequence).
Hypothesis Htotal : totalPostings t idxer threshold diagonalScore db < 2 ^ 64.
Context (a b : Z).
Hypothesis Hwindow : 0 ≤ a ≤ b ≤ tableSize t.

Local Abbreviation keptOf := (keptIndices t idxer threshold diagonalScore).
Local Abbreviation cnt := (bucketCount t idxer threshold diagonalScore).
Local Abbreviation total := (totalPostings t idxer threshold diagonalScore db).
Local Abbreviation start := (bucketStart t idxer threshold diagonalScore db).
Local Abbreviation owed := (bucketPostings t idxer threshold diagonalScore).
Local Abbreviation held :=
  (filledIn t idxer threshold diagonalScore db a b).
Local Abbreviation postingOf s i :=
  (mkIndexEntryLocal (wrap32 (getId s))
     (leastOf (wrap16 <$> keptPositions t idxer threshold diagonalScore s i))).

Lemma filledIn_length seen i :
  Z.of_nat (length (held seen i))
  = if decide (i < a) then cnt db i
    else if decide (i < b) then cnt seen i else 0.
Proof.
  unfold filledIn. repeat case_decide; try apply bucketPostings_length. done.
Qed.

Lemma filledIn_snoc seen s i :
  held (seen ++ [s]) i
  = held seen i
    ++ (if decide (a ≤ i < b ∧ i ∈ keptOf s) then [postingOf s i] else []).
Proof.
  unfold filledIn. destruct (decide (i < a)).
  { rewrite decide_False by lia. by rewrite app_nil_r. }
  destruct (decide (i < b)).
  - rewrite bucketPostings_snoc. f_equal.
    destruct (decide (i ∈ keptOf s)).
    + by rewrite decide_True by (split; [lia | done]).
    + by rewrite decide_False by tauto.
  - by rewrite decide_False by lia.
Qed.

Lemma filledIn_bound seen rest i :
  db = seen ++ rest → 0 ≤ i < tableSize t →
  Z.of_nat (length (held seen i)) ≤ cnt db i.
Proof.
  intros Hdb Hi. rewrite filledIn_length.
  pose proof (bucketCount_nonneg t idxer threshold diagonalScore seen i).
  pose proof (bucketCount_nonneg t idxer threshold diagonalScore rest i).
  pose proof (bucketCount_nonneg t idxer threshold diagonalScore db i).
  assert (cnt db i = cnt seen i + cnt rest i)
    by (rewrite Hdb; apply bucketCount_app).
  repeat case_decide; lia.
Qed.

Lemma window_cursor seen rest offs j :
  db = seen ++ rest →
  cursorsInWindow t idxer threshold diagonalScore db a b seen offs →
  0 ≤ j ≤ tableSize t →
  ∃ c, load offs j = Some c ∧ start j ≤ c ≤ total.
Proof.
  intros Hdb (Hlen & Hcells & Hlast) Hj.
  destruct (decide (j = tableSize t)) as [->|Hne].
  - exists total. split; [done|].
    pose proof (bucketStart_bounds t idxer threshold diagonalScore db
                  (tableSize t)). lia.
  - eexists. split; [apply Hcells; lia|].
    pose proof (filledIn_bound seen rest j Hdb ltac:(lia)).
    pose proof (bucketStart_succ t idxer threshold diagonalScore db j
                  ltac:(lia)).
    pose proof (bucketStart_bounds t idxer threshold diagonalScore db (j + 1)).
    lia.
Qed.

Lemma window_eligible seen s rest offs ents :
  db = seen ++ s :: rest →
  cursorsInWindow t idxer threshold diagonalScore db a b seen offs →
  fitsTable t idxer s →
  eligibleOccurrences (withArrays t offs ents) idxer a (b - a)
    threshold diagonalScore s
  = (λ w, (int2index idxer w.1 0 (kmerSize t), w.2))
      <$> filter (λ w, kept threshold diagonalScore w.1
                       ∧ a ≤ int2index idxer w.1 0 (kmerSize t) < b)
                 (kmerStream s).
Proof.
  intros Hdb Hcur Hfit. unfold eligibleOccurrences.
  change (kmerSize (withArrays t offs ents)) with (kmerSize t).
  f_equal. apply filter_iff_Forall, list.Forall_forall.
  intros w Hw. unfold eligible.
  change (kmerSize (withArrays t offs ents)) with (kmerSize t).
  change (offsets (withArrays t offs ents)) with offs.
  unfold fitsTable in Hfit. rewrite list.Forall_forall in Hfit.
  destruct (Hfit w Hw) as [_ Hrange].
  set (i := int2index idxer w.1 0 (kmerSize t)) in *.
  split; [intros (? & _ & ?); split; [done | lia]|].
  intros [Hk Hi]. split; [lia|]. split; [|done].
  assert (Hkept : i ∈ keptOf s).
  { unfold keptIndices. apply list_elem_of_fmap. exists w.
    split; [done|]. by apply list_elem_of_filter. }
  unfold masked, bucketLength.
  destruct (window_cursor seen (s :: rest) offs (i + 1) Hdb Hcur)
    as (hi & -> & Hhi); [lia|].
  destruct Hcur as (_ & Hcells & _). rewrite Hcells by done. cbn.
  rewrite filledIn_length, decide_False, decide_True by lia.
  pose proof (bucketStart_succ t idxer threshold diagonalScore db i Hrange).
  assert (cnt db i = cnt seen i + (1 + cnt rest i)).
  { rewrite Hdb, bucketCount_app, bucketCount_cons, decide_True by done.
    done. }
  pose proof (bucketCount_nonneg t idxer threshold diagonalScore seen i).
  pose proof (bucketCount_nonneg t idxer threshold diagonalScore rest i).
  pose proof (bucketStart_bounds t idxer threshold diagonalScore db i).
  rewrite wrap64_small by lia. intros [=]. lia.
Qed.

Lemma fillAll_window rest : ∀ seen offs ents,
  db = seen ++ rest →
  Forall (fitsTable t idxer) rest →
  cursorsInWindow t idxer threshold diagonalScore db a b seen offs →
  total ≤ Z.of_nat (length ents) →
  entriesInWindow t idxer threshold diagonalScore db a b seen ents →
  ∃ offs' ents' wss,
    fillAll (withArrays t offs ents) rest idxer a (b - a)
      threshold diagonalScore = Some (withArrays t offs' ents', wss)
    ∧ cursorsInWindow t idxer threshold diagonalScore db a b db offs'
    ∧ length ents' = length ents
    ∧ entriesInWindow t idxer threshold diagonalScore db a b db ents'
    ∧ (∀ k, total ≤ k → load ents' k = load ents k).
Proof.
  induction rest as [|s rest IH];
    intros seen offs ents Hdb Hfit Hcur Hents Hfilled.
  { rewrite app_nil_r in Hdb. subst seen.
    exists offs, ents, []. split; [done|]. split; [done|]. split; [done|].
    split; done. }
  apply Forall_cons_1 in Hfit as [Hs Hfit].
  pose proof (window_eligible seen s rest offs ents Hdb Hcur Hs) as Hocc.
  assert (Hidx : ∀ i,
            i ∈ (eligibleOccurrences (withArrays t offs ents) idxer a (b - a)
                   threshold diagonalScore s).*1
            ↔ a ≤ i < b ∧ i ∈ keptOf s).
  { intros i. rewrite Hocc, <- list_fmap_compose. unfold keptIndices.
    rewrite !list_elem_of_fmap. split.
    - intros (w & -> & [[Hk Hi] Hw]%list_elem_of_filter). cbn.
      split; [done|]. exists w. split; [done|]. by apply list_elem_of_filter.
    - intros [Hi (w & -> & [Hk Hw]%list_elem_of_filter)]. exists w.
      split; [done|]. by apply list_elem_of_filter. }
  pose proof (fitsTable_keptIndices t idxer threshold diagonalScore s Hs)
    as Hrange. rewrite list.Forall_forall in Hrange.
  pose proof Hcur as (Hlen & Hcells & Hlast).
  assert (Hcnt : ∀ i, cnt db i = cnt seen i
                   + ((if decide (i ∈ keptOf s) then 1 else 0) + cnt rest i)).
  { intros i. by rewrite Hdb, bucketCount_app, bucketCount_cons. }
  assert (Hnn : ∀ l i, 0 ≤ cnt l i)
    by (intros; apply bucketCount_nonneg).
  assert (Hslot : ∀ i cur, a ≤ i < b → i ∈ keptOf s → load offs i = Some cur →
            cur = start i + cnt seen i ∧ 0 ≤ cur ∧ cur + 1 ≤ start (i + 1)).
  { intros i cur Hi Hk Hload. specialize (Hrange i Hk).
    rewrite Hcells in Hload by done. injection Hload as <-.
    rewrite filledIn_length, decide_False, decide_True by lia.
    pose proof (bucketStart_succ t idxer threshold diagonalScore db i Hrange).
    specialize (Hcnt i). rewrite decide_True in Hcnt by done.
    pose proof (Hnn seen i). pose proof (Hnn rest i).
    pose proof (bucketStart_bounds t idxer threshold diagonalScore db i).
    lia. }
  destruct (addSequence_run (withArrays t offs ents) s idxer a (b - a)
              threshold diagonalScore)
    as (offs1 & ws & Hrun & Hlen1 & Hnd & Hkeys & Hws & Hout & Hin).
  { done. }
  { done. }
  { lia. }
  { lia. }
  { unfold UINT_MAX in Hsize. lia. }
  { intros i cur [Hi Hk]%Hidx Hload.
    destruct (Hslot i cur Hi Hk Hload) as (_ & ? & ?).
    pose proof (bucketStart_bounds t idxer threshold diagonalScore db (i + 1)).
    change (entries (withArrays t offs ents)) with ents. lia. }
  change (offsets (withArrays t offs ents)) with offs in *.
  change (entries (withArrays t offs ents)) with ents in *.
  change (set_entries (set_offsets (withArrays t offs ents) offs1)
            (applyWrites ents ws))
    with (withArrays t offs1 (applyWrites ents ws)) in Hrun.
  assert (Hdesc : ∀ w, w ∈ ws →
            w_kmer w ∈ keptOf s
            ∧ a ≤ w_kmer w < b
            ∧ w_slot w = start (w_kmer w) + cnt seen (w_kmer w)
            ∧ w_entry w = postingOf s (w_kmer w)).
  { intros w Hw. destruct (Hws w Hw) as (o & Ho & -> & Hmin).
    assert (a ≤ o.1 < b ∧ o.1 ∈ keptOf s) as [Hi Hk].
    { apply Hidx. by apply list_elem_of_fmap_2. }
    split; [done|]. split; [done|]. split.
    - cbn. rewrite Hcells by by apply Hrange. cbn.
      rewrite filledIn_length, decide_False, decide_True by lia. done.
    - unfold writeOf, entryOf, tmpOf. cbn. f_equal.
      assert (o.2 ∈ keptPositions t idxer threshold diagonalScore s o.1)
        as Hin0.
      { rewrite Hocc in Ho.
        apply list_elem_of_fmap in Ho as (w0 & -> & Hw0).
        apply list_elem_of_filter in Hw0 as [[Hkept _] Hw0].
        unfold keptPositions. apply list_elem_of_fmap. exists w0.
        split; [done|]. by apply list_elem_of_filter. }
      apply (isLeast_unique _ _
               (wrap16 <$> keptPositions t idxer threshold diagonalScore s
                             o.1)).
      + split; [by apply list_elem_of_fmap_2|].
        intros x (p & -> & Hp)%list_elem_of_fmap.
        apply list_elem_of_fmap in Hp as (w1 & -> & Hw1).
        apply list_elem_of_filter in Hw1 as [[Hkept Heq] Hw1].
        apply Hmin. rewrite Hocc. apply list_elem_of_fmap. exists w1.
        split; [by rewrite Heq|]. apply list_elem_of_filter.
        split; [|done]. split; [done|]. by rewrite Heq.
      + apply leastOf_isLeast. intros Hnil.
        apply (list_elem_of_fmap_2 wrap16) in Hin0.
        rewrite Hnil in Hin0. by apply elem_of_nil in Hin0. }
  assert (Hwslot : ∀ w, w ∈ ws → 0 ≤ w_slot w < total).
  { intros w Hw. destruct (Hdesc w Hw) as (Hk & Hi & Hsl & _).
    pose proof (Hrange _ Hk) as Hr.
    pose proof (bucketStart_bounds t idxer threshold diagonalScore db
                  (w_kmer w)).
    pose proof (bucketStart_bounds t idxer threshold diagonalScore db
                  (w_kmer w + 1)).
    pose proof (bucketStart_succ t idxer threshold diagonalScore db _ Hr).
    specialize (Hcnt (w_kmer w)). rewrite decide_True in Hcnt by done.
    pose proof (Hnn seen (w_kmer w)). pose proof (Hnn rest (w_kmer w)).
    lia. }
  destruct (IH (seen ++ [s]) offs1 (applyWrites ents ws))
    as (offs' & ents' & wss & Hrest & Hcur' & Hlen' & Hfilled' & Hsame).
  - by rewrite <- (assoc_L (++)).
  - done.
  - split; [lia|]. split.
    + intros i Hi. rewrite filledIn_snoc, length_app.
      destruct (decide (a ≤ i < b ∧ i ∈ keptOf s)) as [[Hw Hk]|Hno].
      * destruct (load_is_Some offs i) as [cur Hload]; [lia|].
        rewrite (Hin i cur (proj2 (Hidx i) (conj Hw Hk)) Hload).
        destruct (Hslot i cur Hw Hk Hload) as (-> & ? & ?).
        pose proof (bucketStart_bounds t idxer threshold diagonalScore db
                      (i + 1)).
        rewrite wrap64_small by lia.
        rewrite Nat2Z.inj_add, filledIn_length, decide_False, decide_True
          by lia.
        cbn [length]. f_equal. lia.
      * rewrite Hout, Hcells by (done || by rewrite Hidx).
        cbn [length]. f_equal. lia.
    + rewrite Hout; [done|]. rewrite Hidx. lia.
  - by rewrite applyWrites_length.
  - intros i j p Hi Hp. rewrite filledIn_snoc in Hp.
    pose proof (filledIn_length seen i) as Hlenp.
    pose proof (filledIn_bound seen (s :: rest) i Hdb Hi) as Hbound.
    destruct (decide (j < length (held seen i))%nat) as [Hj|Hj].
    + rewrite lookup_app_l in Hp by done.
      rewrite applyWrites_load_other; [by apply Hfilled|].
      intros w Hw. destruct (Hdesc w Hw) as (Hk & Hwin & Hsl & _).
      pose proof (Hrange _ Hk) as Hr.
      split; [by apply Hwslot|]. rewrite Hsl.
      destruct (decide (w_kmer w = i)) as [Heq|Hne].
      * rewrite Heq in *.
        rewrite decide_False, decide_True in Hlenp by lia. lia.
      * apply (free_slots_apart t idxer threshold diagonalScore db seen s rest);
          try done; lia.
    + rewrite lookup_app_r in Hp by lia.
      destruct (decide (a ≤ i < b ∧ i ∈ keptOf s)) as [[Hw Hk]|Hno];
        [|by rewrite lookup_nil in Hp].
      destruct (j - length (held seen i))%nat as [|?] eqn:Hd; [|done].
      injection Hp as <-.
      rewrite decide_False, decide_True in Hlenp by lia.
      assert (Z.of_nat j = cnt seen i) as -> by lia.
      destruct (load_is_Some offs i) as [cur Hload]; [lia|].
      destruct (Hslot i cur Hw Hk Hload) as (_ & ? & ?).
      rewrite Hcells in Hload by done. injection Hload as <-.
      rewrite Hlenp in *.
      pose proof (bucketStart_bounds t idxer threshold diagonalScore db
                    (i + 1)).
      apply applyWrites_load_in.
      * lia.
      * assert (i ∈ w_kmer <$> ws) as (w & -> & Hw')%list_elem_of_fmap
          by by apply Hkeys, Hidx.
        exists w. split; [done|]. by destruct (Hdesc w Hw') as (_ & _ & -> & _).
      * intros w Hw'. destruct (Hdesc w Hw') as (Hkw & Hwin & Hsl & Hen).
        pose proof (Hrange _ Hkw) as Hr.
        split; [by apply Hwslot|]. intros Heq. rewrite Hen.
        destruct (decide (w_kmer w = i)) as [->|Hne]; [done|].
        exfalso. rewrite Hsl in Heq. revert Heq.
        apply (free_slots_apart t idxer threshold diagonalScore db seen s rest);
          try done; try lia.
        specialize (Hcnt i). rewrite decide_True in Hcnt by done.
        pose proof (Hnn rest i). lia.
  - exists offs', ents', (ws :: wss). cbn [fillAll]. rewrite Hrun.
    cbn [mbind option_bind]. rewrite Hrest.
    rewrite applyWrites_length in Hlen'.
    split; [done|]. split; [done|]. split; [done|]. split; [done|].
    intros k Hk. rewrite Hsame by done.
    apply applyWrites_load_other. intros w Hw.
    specialize (Hwslot w Hw). lia.
Qed.
End windows.

Lemma slot_in_bucket t idxer threshold diagonalScore db k :
  0 ≤ tableSize t →
  0 ≤ k < totalPostings t idxer threshold diagonalScore db →
  ∃ i, 0 ≤ i < tableSize t
     ∧ bucketStart t idxer threshold diagonalScore db i ≤ k
       < bucketStart t idxer threshold diagonalScore db (i + 1).
Proof.
  intros Hsize Hk.
  assert (Hsearch : ∀ m : nat, Z.of_nat m ≤ tableSize t →
            k < bucketStart t idxer threshold diagonalScore db (Z.of_nat m) →
            ∃ i, 0 ≤ i < Z.of_nat m
               ∧ bucketStart t idxer threshold diagonalScore db i ≤ k
                 < bucketStart t idxer threshold diagonalScore db (i + 1)).
  { induction m as [|m IH]; intros Hm Hlt.
    { unfold bucketStart in Hlt. change (Z.to_nat (Z.of_nat 0)) with 0%nat in Hlt.
      rewrite take_0 in Hlt. change (sumZ []) with 0 in Hlt. lia. }
    destruct (decide (k < bucketStart t idxer threshold diagonalScore db
                           (Z.of_nat m))) as [Hbelow|Habove].
    - destruct (IH ltac:(lia) Hbelow) as (i & Hi & Hin).
      exists i. split; [lia | done].
    - exists (Z.of_nat m). split; [lia|].
      replace (Z.of_nat m + 1) with (Z.of_nat (S m)) by lia. lia. }
  destruct (Hsearch (Z.to_nat (tableSize t))) as (i & Hi & Hin).
  - lia.
  - rewrite Z2Nat.id by lia. unfold bucketStart.
    rewrite (start_last t idxer threshold diagonalScore db). lia.
  - exists i. split; [lia | done].
Qed.

Lemma filledIn_nothing t idxer threshold diagonalScore db b i :
  filledIn t idxer threshold diagonalScore db 0 b [] i = []
  ∨ i < 0.
Proof.
  unfold filledIn. destruct (decide (i < 0)); [by right|]. left.
  by case_decide.
Qed.

Lemma filledIn_next t idxer threshold diagonalScore db a b c i :
  a ≤ b →
  filledIn t idxer threshold diagonalScore db a b db i
  = filledIn t idxer threshold diagonalScore db b c [] i.
Proof.
  intros Hab. unfold filledIn.
  destruct (decide (i < a)).
  { by rewrite decide_True by lia. }
  destruct (decide (i < b)); [done|]. by case_decide.
Qed.

Lemma filledIn_all t idxer threshold diagonalScore db a i :
  0 ≤ i < tableSize t →
  filledIn t idxer threshold diagonalScore db a (tableSize t) db i
  = bucketPostings t idxer threshold diagonalScore db i.
Proof.
  intros Hi. unfold filledIn. case_decide; [done|].
  by rewrite decide_True by lia.
Qed.

Lemma filled_tables_agree t idxer threshold diagonalScore db a a'
    (fresh : list IndexEntryLocal) offs offs' ents ents' :
  0 ≤ tableSize t →
  cursorsInWindow t idxer threshold diagonalScore db a (tableSize t) db offs →
  cursorsInWindow t idxer threshold diagonalScore db a' (tableSize t) db offs' →
  entriesInWindow t idxer threshold diagonalScore db a (tableSize t) db ents →
  entriesInWindow t idxer threshold diagonalScore db a' (tableSize t) db ents' →
  length ents = length fresh → length ents' = length fresh →
  (∀ k, totalPostings t idxer threshold diagonalScore db ≤ k →
     load ents k = load fresh k) →
  (∀ k, totalPostings t idxer threshold diagonalScore db ≤ k →
     load ents' k = load fresh k) →
  offs = offs' ∧ ents = ents'.
Proof.
  intros Hsize (Hlen & Hcells & Hlast) (Hlen' & Hcells' & Hlast')
    Hents Hents' Hl Hl' Hsame Hsame'.
  split.
  - rewrite (loads_determine offs (tableSize t)
               (λ i, bucketStart t idxer threshold diagonalScore db i
                     + Z.of_nat (length (bucketPostings t idxer threshold
                                           diagonalScore db i)))
               (totalPostings t idxer threshold diagonalScore db));
      [|done|done| |done].
    2:{ intros i Hi. rewrite Hcells by done. by rewrite filledIn_all. }
    symmetry. apply loads_determine; [done|done| |done].
    intros i Hi. rewrite Hcells' by done. by rewrite filledIn_all.
  - apply list_eq. intros k. rewrite <- !load_lookup.
    destruct (decide (Z.of_nat k
                      < totalPostings t idxer threshold diagonalScore db))
      as [Hk|Hk]; [|by rewrite Hsame, Hsame' by lia].
    destruct (slot_in_bucket t idxer threshold diagonalScore db (Z.of_nat k))
      as (i & Hi & Hlo & Hhi); [done | lia |].
    rewrite (bucketStart_succ t idxer threshold diagonalScore db i Hi) in Hhi.
    pose proof (bucketPostings_length t idxer threshold diagonalScore db i)
      as Hlenp.
    destruct (lookup_lt_is_Some_2
                (bucketPostings t idxer threshold diagonalScore db i)
                (Z.to_nat (Z.of_nat k
                           - bucketStart t idxer threshold diagonalScore db i)))
      as [p Hp]; [lia|].
    replace (Z.of_nat k)
      with (bucketStart t idxer threshold diagonalScore db i
            + Z.of_nat (Z.to_nat (Z.of_nat k - bucketStart t idxer threshold
                                                 diagonalScore db i)))
      by lia.
    rewrite (Hents i _ p Hi) by by rewrite filledIn_all.
    rewrite (Hents' i _ p Hi) by by rewrite filledIn_all.
    done.
Qed.

(** X20. Two workers in turn fill the index as one worker does: filling
    the sequences of the database with the window [[0, m)] and then, on
    the table so obtained, with the window [[m, tableSize)] leaves the same
    offsets and the same entries as filling them once with the full
    window. *)
Theorem fill_by_windows (t : IndexTable) (db : list Sequence)
    (idxer : Indexer) (threshold : Z) (diagonalScore : Z → Z)
    (fresh : list IndexEntryLocal) (m : Z) :
  0 ≤ tableSize t ≤ UINT_MAX →
  offsets t = replicate (Z.to_nat (tableSize t + 1)) 0 →
  Forall (fitsTable t idxer) db →
  totalPostings t idxer threshold diagonalScore db < 2 ^ 64 →
  totalPostings t idxer threshold diagonalScore db ≤ Z.of_nat (length fresh) →
  0 ≤ m ≤ tableSize t →
  ∃ counted counts stage3 lower wss1 both wss2 whole wss,
    countAll t db idxer threshold diagonalScore = Some (counted, counts)
    ∧ init counted = Some stage3
    ∧ fillAll (set_entries stage3 fresh) db idxer 0 m
        threshold diagonalScore = Some (lower, wss1)
    ∧ fillAll lower db idxer m (tableSize t - m)
        threshold diagonalScore = Some (both, wss2)
    ∧ fillAll (set_entries stage3 fresh) db idxer 0 (tableSize t)
        threshold diagonalScore = Some (whole, wss)
    ∧ both = whole.
Proof.
  intros Hsize Hzero Hfit Htotal Hfresh Hm.
  destruct (build_stages t db idxer threshold diagonalScore fresh)
    as (offs1 & offs3 & _ & _ & _ & Hcount & Hinit & _ & Hcur3 & _);
    [done..|].
  destruct Hcur3 as (Hlen3 & Hcells3 & Hlast3).
  assert (Hstart : ∀ b, 0 ≤ b →
            cursorsInWindow t idxer threshold diagonalScore db 0 b [] offs3
            ∧ entriesInWindow t idxer threshold diagonalScore db 0 b []
                fresh).
  { intros b Hb. split.
    - split; [done|]. split; [|done].
      intros i Hi. rewrite Hcells3 by done. f_equal.
      destruct (filledIn_nothing t idxer threshold diagonalScore db b i)
        as [->|?]; [|lia].
      unfold bucketCount, bucketStart. cbn. lia.
    - intros i j p Hi Hp.
      destruct (filledIn_nothing t idxer threshold diagonalScore db b i)
        as [Hnone|?]; [|lia].
      by rewrite Hnone, lookup_nil in Hp. }
  destruct (Hstart m ltac:(lia)) as [Hc1 He1].
  destruct (fillAll_window t idxer threshold diagonalScore Hsize db Htotal
              0 m ltac:(lia) db [] offs3 fresh)
    as (offs_l & ents_l & wss1 & Hfill1 & Hcur_l & Hlen_l & Hents_l & Hsame_l);
    [done..|].
  rewrite Z.sub_0_r in Hfill1.
  destruct (fillAll_window t idxer threshold diagonalScore Hsize db Htotal
              m (tableSize t) ltac:(lia) db [] offs_l ents_l)
    as (offs_b & ents_b & wss2 & Hfill2 & Hcur_b & Hlen_b & Hents_b & Hsame_b).
  { done. }
  { done. }
  { destruct Hcur_l as (Hl & Hc & Hlast). split; [done|]. split; [|done].
    intros i Hi. rewrite Hc by done.
    by rewrite (filledIn_next _ _ _ _ _ 0 m (tableSize t)) by lia. }
  { lia. }
  { intros i j p Hi Hp. apply Hents_l; [done|].
    by rewrite (filledIn_next _ _ _ _ _ 0 m (tableSize t)) by lia. }
  destruct (Hstart (tableSize t) ltac:(lia)) as [Hcw Hew].
  destruct (fillAll_window t idxer threshold diagonalScore Hsize db Htotal
              0 (tableSize t) ltac:(lia) db [] offs3 fresh)
    as (offs_w & ents_w & wss & Hfill & Hcur_w & Hlen_w & Hents_w & Hsame_w);
    [done..|].
  rewrite Z.sub_0_r in Hfill.
  destruct (filled_tables_agree t idxer threshold diagonalScore db
              m 0 fresh offs_b offs_w ents_b ents_w)
    as [-> ->]; try done; try lia.
  { intros k Hk. by rewrite Hsame_b, Hsame_l. }
  eexists _, _, _, _, wss1, _, wss2, _, wss.
  split; [exact Hcount|]. split; [exact Hinit|].
  split; [exact Hfill1|]. split; [exact Hfill2|]. split; [exact Hfill|].
  done.
Qed.

(** The sequences 0,1,2,3 and 0,1,0,1, one worker for the k-mers below 5
    and one for the others. *)
Lemma fill_by_windows_witness :
  ∃ lower wss1 both wss2 wss,
    fillAll (mkIndexTable 16 4 2 false (replicate 5 (mkIndexEntryLocal 9 9))
               [0; 0; 2; 2; 2; 3; 3; 4; 4; 4; 4; 4; 5; 5; 5; 5; 5])
      [sequence2 0 [0; 1; 2; 3]; sequence2 1 [0; 1; 0; 1]]
      indexer4 0 5 0 (λ _, 0) = Some (lower, wss1)
    ∧ fillAll lower [sequence2 0 [0; 1; 2; 3]; sequence2 1 [0; 1; 0; 1]]
        indexer4 5 11 0 (λ _, 0) = Some (both, wss2)
    ∧ fillAll (mkIndexTable 16 4 2 false (replicate 5 (mkIndexEntryLocal 9 9))
                 [0; 0; 2; 2; 2; 3; 3; 4; 4; 4; 4; 4; 5; 5; 5; 5; 5])
        [sequence2 0 [0; 1; 2; 3]; sequence2 1 [0; 1; 0; 1]]
        indexer4 0 16 0 (λ _, 0) = Some (both, wss).
Proof.
  destruct (fill_by_windows (emptyTable 17 0)
              [sequence2 0 [0; 1; 2; 3]; sequence2 1 [0; 1; 0; 1]]
              indexer4 0 (λ _, 0) (replicate 5 (mkIndexEntryLocal 9 9)) 5)
    as (counted & counts & stage3 & lower & wss1 & both & wss2 & whole & wss
        & Hcount & Hinit & Hfill1 & Hfill2 & Hfill & Heq).
  - cbn. unfold UINT_MAX. lia.
  - reflexivity.
  - unfold fitsTable. cbn. repeat constructor; by vm_compute.
  - by vm_compute.
  - by vm_compute.
  - cbn. lia.
  - vm_compute in Hcount. injection Hcount as <- <-.
    vm_compute in Hinit. injection Hinit as <-.
    subst whole. exists lower, wss1, both, wss2, wss.
    split; [exact Hfill1|]. split; [exact Hfill2 | exact Hfill].
Defined.

(** ** The order of the sequences *)

Lemma bucketCount_Permutation t idxer threshold diagonalScore db db' i :
  db ≡ₚ db' →
  bucketCount t idxer threshold diagonalScore db i
  = bucketCount t idxer threshold diagonalScore db' i.
Proof. intros Hperm. unfold bucketCount. by rewrite Hperm. Qed.

Lemma bucketCounts_Permutation t idxer threshold diagonalScore db db' :
  db ≡ₚ db' →
  bucketCounts t idxer threshold diagonalScore db
  = bucketCounts t idxer threshold diagonalScore db'.
Proof.
  intros Hperm. unfold bucketCounts. apply list_fmap_ext.
  intros _ i _. by apply bucketCount_Permutation.
Qed.

Lemma bucketPostings_Permutation t idxer threshold diagonalScore db db' i :
  db ≡ₚ db' →
  bucketPostings t idxer threshold diagonalScore db i
  ≡ₚ bucketPostings t idxer threshold diagonalScore db' i.
Proof. intros Hperm. unfold bucketPostings. by rewrite Hperm. Qed.

(** X21. Counting does not depend on the order of the sequences: counting
    a database and counting a rearrangement of it, each into the zeroed
    table, leave the same table and return the same values, rearranged. *)
Theorem countAll_order_independent (t : IndexTable) (db db' : list Sequence)
    (idxer : Indexer) (threshold : Z) (diagonalScore : Z → Z) :
  db ≡ₚ db' →
  0 ≤ tableSize t ≤ UINT_MAX →
  offsets t = replicate (Z.to_nat (tableSize t + 1)) 0 →
  Forall (fitsTable t idxer) db →
  Z.of_nat (length db) < 2 ^ 64 →
  ∃ counted counts counts',
    countAll t db idxer threshold diagonalScore = Some (counted, counts)
    ∧ countAll t db' idxer threshold diagonalScore = Some (counted, counts')
    ∧ counts ≡ₚ counts'.
Proof.
  intros Hperm Hsize Hzero Hfit Hdb.
  assert (Ht : t = withArrays t (offsets t) (entries t)) by by destruct t.
  assert (Hrun : ∀ l, l ≡ₚ db →
    ∃ offs1,
      countAll t l idxer threshold diagonalScore
      = Some (withArrays t offs1 (entries t),
              (λ s, Z.of_nat (length (remove_dups
                 (keptIndices t idxer threshold diagonalScore s)))) <$> l)
      ∧ offs1 = (bucketCount t idxer threshold diagonalScore db
                   <$> seqZ 0 (tableSize t)) ++ [0]).
  { intros l Hl.
    destruct (countAll_spec t idxer threshold diagonalScore Hsize l []
                (offsets t) (entries t))
      as (offs1 & Hcount & Hlen1 & Hcells1 & Hlast1).
    { rewrite Hzero, length_replicate. lia. }
    { by rewrite Hl. }
    { intros i Hi. unfold load. rewrite decide_True, Hzero by lia.
      by rewrite lookup_replicate_2 by lia. }
    { unfold load. rewrite decide_True, Hzero by lia.
      by rewrite lookup_replicate_2 by lia. }
    { intros i Hi. cbn [app]. unfold bucketCount.
      pose proof (length_filter
        (λ s, i ∈ keptIndices t idxer threshold diagonalScore s) l).
      rewrite Hl in H at 2. lia. }
    rewrite <- Ht in Hcount. cbn [app] in Hcells1.
    exists offs1. split; [done|].
    apply loads_determine; [lia | done | | done].
    intros i Hi. rewrite Hcells1 by done. f_equal.
    by apply bucketCount_Permutation. }
  destruct (Hrun db) as (offs1 & Hcount & ->); [done|].
  destruct (Hrun db') as (offs1' & Hcount' & ->); [done|].
  eexists _, _, _. split; [exact Hcount|]. split; [exact Hcount'|].
  by rewrite Hperm.
Qed.

Lemma countAll_order_independent_witness :
  ∃ counted,
    countAll (emptyTable 17 0)
      [sequence2 0 [0; 1; 2; 3]; sequence2 1 [0; 1; 0; 1]]
      indexer4 0 (λ _, 0) = Some (counted, [3; 2])
    ∧ countAll (emptyTable 17 0)
        [sequence2 1 [0; 1; 0; 1]; sequence2 0 [0; 1; 2; 3]]
        indexer4 0 (λ _, 0) = Some (counted, [2; 3]).
Proof.
  destruct (countAll_order_independent (emptyTable 17 0)
              [sequence2 0 [0; 1; 2; 3]; sequence2 1 [0; 1; 0; 1]]
              [sequence2 1 [0; 1; 0; 1]; sequence2 0 [0; 1; 2; 3]]
              indexer4 0 (λ _, 0))
    as (counted & counts & counts' & Hcount & Hcount' & _).
  - apply perm_swap.
  - cbn. unfold UINT_MAX. lia.
  - reflexivity.
  - unfold fitsTable. cbn. repeat constructor; by vm_compute.
  - cbn. lia.
  - pose proof Hcount as Hc. vm_compute in Hc. injection Hc as _ <-.
    pose proof Hcount' as Hc. vm_compute in Hc. injection Hc as _ <-.
    exists counted. split; [exact Hcount | exact Hcount'].
Defined.

(** X22. The finished index depends on the order of the sequences only
    inside the buckets: the build of a rearranged database ends with the
    same offsets, so [getDBSeqList] gives the same start and length for
    every k-mer, and every bucket holds the same postings, possibly in
    another order. *)
Theorem buildIndex_order_of_sequences
    (operator_new : Z → option (list IndexEntryLocal))
    (t : IndexTable) (db db' : list Sequence)
    (idxer : Indexer) (threshold : Z) (diagonalScore : Z → Z)
    (fresh : list IndexEntryLocal) :
  db ≡ₚ db' →
  0 ≤ tableSize t ≤ UINT_MAX →
  offsets t = replicate (Z.to_nat (tableSize t + 1)) 0 →
  Forall (fitsTable t idxer) db →
  totalPostings t idxer threshold diagonalScore db < 2 ^ 64 →
  operator_new (totalPostings t idxer threshold diagonalScore db)
  = Some fresh →
  Z.of_nat (length fresh) = totalPostings t idxer threshold diagonalScore db →
  ∃ ready ready',
    buildIndex operator_new t db idxer threshold diagonalScore
    = Constructed ready
    ∧ buildIndex operator_new t db' idxer threshold diagonalScore
      = Constructed ready'
    ∧ offsets ready = offsets ready'
    ∧ ∀ i, 0 ≤ i < tableSize t →
        ∃ lo n,
          getDBSeqList ready i = Some (lo, n)
          ∧ getDBSeqList ready' i = Some (lo, n)
          ∧ take (Z.to_nat n) (drop (Z.to_nat lo) (entries ready))
            ≡ₚ take (Z.to_nat n) (drop (Z.to_nat lo) (entries ready')).
Proof.
  intros Hperm Hsize Hzero Hfit Htotal Hnew Hfresh.
  assert (Hcounts : bucketCounts t idxer threshold diagonalScore db'
                    = bucketCounts t idxer threshold diagonalScore db)
    by (symmetry; by apply bucketCounts_Permutation).
  assert (Htotal' : totalPostings t idxer threshold diagonalScore db'
                    = totalPostings t idxer threshold diagonalScore db)
    by (unfold totalPostings; by rewrite Hcounts).
  assert (Hstart : ∀ i, bucketStart t idxer threshold diagonalScore db' i
                        = bucketStart t idxer threshold diagonalScore db i)
    by (intros i; unfold bucketStart; by rewrite Hcounts).
  destruct (buildIndex_stages operator_new t db idxer threshold diagonalScore
              fresh) as (offs1 & ents1 & Hbuild1 & Hcur1 & Hents1 & _);
    [done..|].
  destruct (buildIndex_stages operator_new t db' idxer threshold diagonalScore
              fresh) as (offs2 & ents2 & Hbuild2 & Hcur2 & Hents2 & _).
  { done. }
  { done. }
  { by rewrite <- Hperm. }
  { by rewrite Htotal'. }
  { by rewrite Htotal'. }
  { by rewrite Htotal'. }
  eexists _, _. split; [exact Hbuild1|]. split; [exact Hbuild2|].
  cbn [offsets entries withArrays set_offsets set_entries].
  split.
  - apply list_eq. intros j.
    pose proof Hcur1 as (Hl1 & _ & _). pose proof Hcur2 as (Hl2 & _ & _).
    destruct (decide (Z.of_nat j ≤ tableSize t)) as [Hj|Hj].
    + rewrite <- !load_lookup.
      rewrite (rewound_cells t idxer threshold diagonalScore db)
        by (done || lia).
      rewrite (rewound_cells t idxer threshold diagonalScore db')
        by (done || lia).
      by rewrite Hstart.
    + rewrite !lookup_ge_None_2; [done|..];
        cbn [length]; rewrite length_take; lia.
  - intros i Hi.
    destruct (rewound_lookup t idxer threshold diagonalScore db offs1 ents1 i)
      as [Hlist1 Hslice1]; [lia | done..|].
    destruct (rewound_lookup t idxer threshold diagonalScore db' offs2 ents2 i)
      as [Hlist2 Hslice2]; [lia | by rewrite Htotal' | done..|].
    rewrite Hstart, <- (bucketCount_Permutation _ _ _ _ db db' i Hperm)
      in Hlist2, Hslice2.
    eexists _, _. split; [exact Hlist1|]. split; [exact Hlist2|].
    rewrite Hslice1, Hslice2. by apply bucketPostings_Permutation.
Qed.

(** The sequences 0,1,2,3 and 0,1,0,1 in both orders: bucket 1 holds the
    same two postings, in the order of the sequences. *)
Lemma buildIndex_order_of_sequences_witness :
  ∃ ready ready',
    buildIndex (λ n, Some (replicate (Z.to_nat n) (mkIndexEntryLocal 9 9)))
      (emptyTable 17 0)
      [sequence2 0 [0; 1; 2; 3]; sequence2 1 [0; 1; 0; 1]]
      indexer4 0 (λ _, 0) = Constructed ready
    ∧ buildIndex (λ n, Some (replicate (Z.to_nat n) (mkIndexEntryLocal 9 9)))
        (emptyTable 17 0)
        [sequence2 1 [0; 1; 0; 1]; sequence2 0 [0; 1; 2; 3]]
        indexer4 0 (λ _, 0) = Constructed ready'
    ∧ offsets ready = offsets ready'
    ∧ take 2 (entries ready) = [mkIndexEntryLocal 0 0; mkIndexEntryLocal 1 0]
    ∧ take 2 (entries ready') = [mkIndexEntryLocal 1 0; mkIndexEntryLocal 0 0].
Proof.
  destruct (buildIndex_order_of_sequences
              (λ n, Some (replicate (Z.to_nat n) (mkIndexEntryLocal 9 9)))
              (emptyTable 17 0)
              [sequence2 0 [0; 1; 2; 3]; sequence2 1 [0; 1; 0; 1]]
              [sequence2 1 [0; 1; 0; 1]; sequence2 0 [0; 1; 2; 3]]
              indexer4 0 (λ _, 0) (replicate 5 (mkIndexEntryLocal 9 9)))
    as (ready & ready' & Hbuild & Hbuild' & Hoffs & _).
  - apply perm_swap.
  - cbn. unfold UINT_MAX. lia.
  - reflexivity.
  - unfold fitsTable. cbn. repeat constructor; by vm_compute.
  - by vm_compute.
  - by vm_compute.
  - by vm_compute.
  - exists ready, ready'. split; [exact Hbuild|]. split; [exact Hbuild'|].
    split; [exact Hoffs|].
    vm_compute in Hbuild. injection Hbuild as <-.
    vm_compute in Hbuild'. injection Hbuild' as <-.
    split; reflexivity.
Defined.
